(** * VeriLeaf AI pipeline: the numeric core of [api_server.py]

    The server turns two RGB rasters into vegetation-index rasters
    ([_compute_indices]), reduces every index raster to four statistics
    ([_metrics_summary], [_compute_metrics]) and compares the two summaries
    ([_impact_analysis]).

    The Python source is written once and runs over whatever numbers it is
    given: NumPy [float32] arrays for the rasters, Python floats (binary64)
    for the scalars.  The embedding keeps that shape.  The functions are
    defined once, over an interface [Arith] of the arithmetic they use, and
    are then read in two ways:

    - over [Q], exact rational arithmetic, where the algebraic statements
      about the formulas are proved;
    - over IEEE 754 binary32 / binary64 as specified by [SpecFloat], where a
      value is the very bit pattern NumPy and Python compute, and where the
      statements about NaN and infinities live. *)

From Stdlib Require Import ZArith QArith Qabs Qminmax Lia Lra Psatz List Bool.
From Stdlib Require Import SpecFloat Zpower.
From stdpp Require Import gmap strings.


(* ===================================================================== *)
(** * Part I.  Definitions                                                *)
(* ===================================================================== *)

(** ** The arithmetic the source uses *)

Declare Scope num_scope.
Delimit Scope num_scope with num.

(** [lit n d] is the decimal literal [n/d] as the interpreter reads it
    (correctly rounded when the carrier is a float format); [ltb], [leb] are
    Python's [<] and [<=]; [isnan] is [numpy.isnan]. *)
Class Arith (T : Type) : Type := {
  lit : Z -> Z -> T;
  add : T -> T -> T;
  sub : T -> T -> T;
  mul : T -> T -> T;
  div : T -> T -> T;
  neg : T -> T;
  fabs : T -> T;
  ltb : T -> T -> bool;
  leb : T -> T -> bool;
  isnan : T -> bool
}.

Infix "+" := add : num_scope.
Infix "-" := sub : num_scope.
Infix "*" := mul : num_scope.
Infix "/" := div : num_scope.
Notation "- x" := (neg x) : num_scope.
Infix "<?" := ltb : num_scope.
Infix "<=?" := leb : num_scope.

(** How the two carriers meet.  [S] is the Python float, [F] the dtype of the
    raster.  [cast] is NumPy's promotion of a Python scalar into an array
    expression and [widen] is [float(x)] on an array scalar.  [flog] is
    [numpy.log] and [fsqrt] the square root taken by [numpy.nanstd]. *)
Class Dtype (S F : Type) : Type := {
  cast : S -> F;
  widen : F -> S
}.

Class Libm (F : Type) : Type := {
  flog : F -> F;
  fsqrt : F -> F
}.

Section Clip.
Context {T : Type} `{Arith T}.
Local Open Scope num_scope.

(** NumPy's [clip] loop on floats: [_NPY_MAX (a, b)] is
    [isnan a ? a : (a > b ? a : b)], [_NPY_MIN] likewise, and
    [np.clip (x, lo, hi) = _NPY_MIN (_NPY_MAX (x, lo), hi)]. *)
Definition npy_max (a b : T) : T :=
  if isnan a then a else if b <? a then a else b.

Definition npy_min (a b : T) : T :=
  if isnan a then a else if a <? b then a else b.

Definition clip (x lo hi : T) : T := npy_min (npy_max x lo) hi.

(** [numpy.fmax] / [numpy.fmin]: the operand that is not NaN wins. *)
Definition fmax (a b : T) : T :=
  if isnan a then b else if isnan b then a else if a <? b then b else a.

Definition fmin (a b : T) : T :=
  if isnan a then b else if isnan b then a else if b <? a then b else a.
End Clip.

(** ** Interpreter state and exceptions

    The only module-level name the numeric core reads is [EPS].  A call
    threads the module globals; [ValueError] is what NumPy raises when a
    reduction without identity meets an empty array. *)

Inductive exn : Type := ValueError.

Inductive result (A : Type) : Type :=
| Ok (a : A)
| Raise (e : exn).
Arguments Ok {A} a.
Arguments Raise {A} e.

Record Globals (S : Type) : Type := { EPS : S }.
Arguments EPS {S} _.

Definition Py (S A : Type) : Type := Globals S -> result A * Globals S.

Definition ret {S A} (a : A) : Py S A := fun g => (Ok a, g).

Definition raise {S A} (e : exn) : Py S A := fun g => (Raise e, g).

Definition bind {S A B} (m : Py S A) (k : A -> Py S B) : Py S B :=
  fun g => match m g with
           | (Ok a, g') => k a g'
           | (Raise e, g') => (Raise e, g')
           end.

Definition load_EPS {S} : Py S S := fun g => (Ok (EPS g), g).

#[global] Instance Py_ret {S} : MRet (Py S) := fun A a => ret a.
#[global] Instance Py_bind {S} : MBind (Py S) := fun A B k m => bind m k.

(** [for x in xs: acc = body(acc, x)] *)
Fixpoint for_each {S A B} (xs : list A) (body : B -> A -> Py S B) (acc : B) : Py S B :=
  match xs with
  | [] => ret acc
  | x :: rest => acc' ← body acc x; for_each rest body acc'
  end.

(** ** The pipeline *)

Record Stats (S : Type) : Type := {
  mean : S;
  std : S;
  max : S;
  min : S
}.
Arguments mean {S} _.
Arguments std {S} _.
Arguments max {S} _.
Arguments min {S} _.

Record ImpactReport (S : Type) : Type := {
  impact_score : S;
  confidence : S;
  category : string;
  ndvi_change_percent : S;
  evi_change_percent : S;
  fvc_change_percent : S;
  lai_change_percent : S;
  weighted_score : S
}.
Arguments impact_score {S} _.
Arguments confidence {S} _.
Arguments category {S} _.
Arguments ndvi_change_percent {S} _.
Arguments evi_change_percent {S} _.
Arguments fvc_change_percent {S} _.
Arguments lai_change_percent {S} _.
Arguments weighted_score {S} _.

(** [d.get(key, 0.0)] *)
Definition get {S} `{Arith S} (d : gmap string S) (key : string) : S :=
  default (lit 0 1) (d !! key).

(** A raster is [H] rows of [W] pixels [(R, G, B)]; an index raster has one
    number per pixel. *)
Definition Pixel (F : Type) : Type := F * F * F.
Definition Raster (F : Type) : Type := list (list (Pixel F)).
Definition IndexRaster (F : Type) : Type := list (list F).

Section Pipeline.
Context {S F : Type} {AS : Arith S} {AF : Arith F} {D : Dtype S F} {L : Libm F}.
Local Open Scope num_scope.

Local Notation "⟨ x ⟩" := (cast x) (format "⟨ x ⟩").

Definition map2d {A B} (f : A -> B) (a : list (list A)) : list (list B) :=
  map (map f) a.

(** *** [_compute_indices] *)

(** [(G - R) / (G + R + EPS)] *)
Definition vndvi (eps : S) (px : Pixel F) : F :=
  let '(R, G, B) := px in
  (G - R) / (G + R + ⟨eps⟩).

(** [2.5 * (G - R) / (G + 6.0 * R - 7.5 * B + 1.0 + EPS)] *)
Definition evi (eps : S) (px : Pixel F) : F :=
  let '(R, G, B) := px in
  ⟨lit 25 10⟩ * (G - R)
  / (G + ⟨lit 6 1⟩ * R - ⟨lit 75 10⟩ * B + ⟨lit 1 1⟩ + ⟨eps⟩).

(** [(G - B) / (G + B + EPS)] *)
Definition ndwi (eps : S) (px : Pixel F) : F :=
  let '(R, G, B) := px in
  (G - B) / (G + B + ⟨eps⟩).

(** [1.5 * (G - R) / (G + R + 0.5 + EPS)] *)
Definition savi (eps : S) (px : Pixel F) : F :=
  let '(R, G, B) := px in
  ⟨lit 15 10⟩ * (G - R) / (G + R + ⟨lit 5 10⟩ + ⟨eps⟩).

Definition ndvi_soil : S := lit 2 10.
Definition ndvi_veg : S := lit 86 100.

(** [np.clip((vndvi - ndvi_soil) / (ndvi_veg - ndvi_soil + EPS), 0.0, 1.0) ** 2];
    the anchor span is computed on Python floats and enters the array
    expression as one scalar; [** 2] is NumPy's square, [x * x]. *)
Definition fvc (eps : S) (v : F) : F :=
  let c := clip ((v - ⟨ndvi_soil⟩) / ⟨ndvi_veg - ndvi_soil + eps⟩)
                ⟨lit 0 1⟩ ⟨lit 1 1⟩ in
  c * c.

(** [-np.log(1.0 - np.clip(fvc, 0.0, 0.99) + EPS)] *)
Definition lai (eps : S) (f : F) : F :=
  - flog (⟨lit 1 1⟩ - clip f ⟨lit 0 1⟩ ⟨lit 99 100⟩ + ⟨eps⟩).

Definition clip2d (a : IndexRaster F) (lo hi : S) : IndexRaster F :=
  map2d (fun x => clip x ⟨lo⟩ ⟨hi⟩) a.

(** The returned dict, in insertion order. *)
Definition _compute_indices (rgb : Raster F) : Py S (list (string * IndexRaster F)) :=
  eps ← load_EPS;
  let vndvi_a := map2d (vndvi eps) rgb in
  let evi_a := map2d (evi eps) rgb in
  let ndwi_a := map2d (ndwi eps) rgb in
  let savi_a := map2d (savi eps) rgb in
  let fvc_a := map2d (fvc eps) vndvi_a in
  let lai_a := map2d (lai eps) fvc_a in
  ret [ ("ndvi", clip2d vndvi_a (- lit 1 1) (lit 1 1));
        ("evi", clip2d evi_a (- lit 1 1) (lit 1 1));
        ("ndwi", clip2d ndwi_a (- lit 1 1) (lit 1 1));
        ("savi", clip2d savi_a (- lit 1 1) (lit 1 1));
        ("fvc", clip2d fvc_a (lit 0 1) (lit 1 1));
        ("lai", clip2d lai_a (lit 0 1) (lit 6 1)) ].

(** *** [_metrics_summary]

    The four reductions are NumPy's; they are modelled from NumPy's
    documented behaviour: NaN entries are left out, the mean is the sum
    over the count, the standard deviation is the root of the mean squared
    deviation, and [nanmax] / [nanmin] reduce with [fmax] / [fmin] and
    refuse an empty array. *)

Definition nonnan (l : list F) : list F :=
  List.filter (fun x => negb (isnan x)) l.

Definition fsum (l : list F) : F := fold_left add l (lit 0 1).

Definition count (l : list F) : F := lit (Z.of_nat (length l)) 1.

Definition nanmean (l : list F) : F :=
  let v := nonnan l in fsum v / count v.

Definition nanvar (l : list F) : F :=
  let v := nonnan l in
  let avg := fsum v / count v in
  fsum (map (fun x => (x - avg) * (x - avg)) v) / count v.

Definition nanstd (l : list F) : F := fsqrt (nanvar l).

Definition nanmax (l : list F) : Py S F :=
  match l with
  | [] => raise ValueError
  | x :: rest => ret (fold_left fmax rest x)
  end.

Definition nanmin (l : list F) : Py S F :=
  match l with
  | [] => raise ValueError
  | x :: rest => ret (fold_left fmin rest x)
  end.

Definition _metrics_summary (arr : IndexRaster F) : Py S (Stats S) :=
  let flat := concat arr in
  let m := widen (nanmean flat) in
  let s := widen (nanstd flat) in
  hi ← nanmax flat;
  lo ← nanmin flat;
  ret {| mean := m; std := s; max := widen hi; min := widen lo |}.

(** *** [_compute_metrics] *)

(** One turn of the loop: [s = _metrics_summary(data)] and the four
    assignments [out[f'{key}_mean'] = s['mean']], ... *)
Definition record_stats (out : gmap string S) (item : string * IndexRaster F)
  : Py S (gmap string S) :=
  let '(key, data) := item in
  s ← _metrics_summary data;
  let out := <[key +:+ "_mean" := mean s]> out in
  let out := <[key +:+ "_std" := std s]> out in
  let out := <[key +:+ "_max" := max s]> out in
  let out := <[key +:+ "_min" := min s]> out in
  ret out.

Definition _compute_metrics (rgb : Raster F) : Py S (gmap string S) :=
  idx ← _compute_indices rgb;
  for_each idx record_stats ∅.

(** *** [_impact_analysis] *)

Definition change_pct (eps : S) (before after : gmap string S) (metric : string) : S :=
  let b := get before (metric +:+ "_mean") in
  let a := get after (metric +:+ "_mean") in
  ((a - b) / (fabs b + eps)) * lit 100 1.

Definition weighted (ndvi_ch evi_ch fvc_ch lai_ch : S) : S :=
  lit 4 10 * ndvi_ch + lit 2 10 * evi_ch + lit 2 10 * fvc_ch + lit 2 10 * lai_ch.

Definition score_of (w : S) : S :=
  clip (lit 50 1 + w / lit 2 1) (lit 0 1) (lit 100 1).

Definition category_of (score : S) : string :=
  if lit 80 1 <=? score then "Excellent"
  else if lit 65 1 <=? score then "Good"
  else if lit 50 1 <=? score then "Moderate"
  else if lit 35 1 <=? score then "Poor"
  else "Very Poor".

(** [sum(abs(before.get(m_std, 0) - after.get(m_std, 0)) for m in [...])];
    the built-in [sum] starts from [0] and adds left to right. *)
Definition noise_of (before after : gmap string S) : S :=
  fold_left add
    (map (fun m => fabs (get before (m +:+ "_std") - get after (m +:+ "_std")))
         ["ndvi"; "evi"; "fvc"; "lai"])
    (lit 0 1).

Definition confidence_of (noise : S) : S :=
  clip (lit 70 1 - noise * lit 5 1) (lit 50 1) (lit 95 1).

Definition _impact_analysis (before after : gmap string S) : Py S (ImpactReport S) :=
  eps ← load_EPS;
  let ndvi_ch := change_pct eps before after "ndvi" in
  let evi_ch := change_pct eps before after "evi" in
  let fvc_ch := change_pct eps before after "fvc" in
  let lai_ch := change_pct eps before after "lai" in
  let w := weighted ndvi_ch evi_ch fvc_ch lai_ch in
  let score := score_of w in
  let cat := category_of score in
  let conf := confidence_of (noise_of before after) in
  ret {| impact_score := score;
         confidence := conf;
         category := cat;
         ndvi_change_percent := ndvi_ch;
         evi_change_percent := evi_ch;
         fvc_change_percent := fvc_ch;
         lai_change_percent := lai_ch;
         weighted_score := w |}.

(** The module globals once [api_server.py] is loaded: [EPS = 1e-6]. *)
Definition module_globals : Globals S := {| EPS := lit 1 1000000 |}.

(** The value a call returns from the loaded module, when it returns. *)
Definition returns {A} (m : Py S A) (a : A) : Prop :=
  fst (m module_globals) = Ok a.
End Pipeline.

(** ** Reading 1: exact rational arithmetic *)

Definition Qltb (x y : Q) : bool :=
  match (x ?= y)%Q with Lt => true | _ => false end.

#[global] Instance Q_arith : Arith Q := {|
  lit n d := (n # Z.to_pos d)%Q;
  add := Qplus;
  sub := Qminus;
  mul := Qmult;
  div := Qdiv;
  neg := Qopp;
  fabs := Qabs;
  ltb := Qltb;
  leb := Qle_bool;
  isnan _ := false
|}.

(** Over [Q] a Python scalar and an array element are the same number. *)
#[global] Instance Q_dtype : Dtype Q Q := {| cast x := x; widen x := x |}.

(** ** Reading 2: IEEE 754 binary64 scalars, binary32 rasters *)

Record f64 : Type := F64 { f64_val : spec_float }.
Record f32 : Type := F32 { f32_val : spec_float }.

Module B64.
Definition prec : Z := 53.
Definition emax : Z := 1024.
Definition of_Z (z : Z) : spec_float := binary_normalize prec emax z 0 false.
Definition round (x : spec_float) : spec_float :=
  match x with
  | S754_finite s m e => binary_round prec emax s m e
  | _ => x
  end.
End B64.

Module B32.
Definition prec : Z := 24.
Definition emax : Z := 128.
Definition of_Z (z : Z) : spec_float := binary_normalize prec emax z 0 false.
Definition round (x : spec_float) : spec_float :=
  match x with
  | S754_finite s m e => binary_round prec emax s m e
  | _ => x
  end.
End B32.

Definition SFisnan (x : spec_float) : bool :=
  match x with S754_nan => true | _ => false end.

#[global] Instance f64_arith : Arith f64 := {|
  lit n d := F64 (SFdiv B64.prec B64.emax (B64.of_Z n) (B64.of_Z d));
  add x y := F64 (SFadd B64.prec B64.emax (f64_val x) (f64_val y));
  sub x y := F64 (SFsub B64.prec B64.emax (f64_val x) (f64_val y));
  mul x y := F64 (SFmul B64.prec B64.emax (f64_val x) (f64_val y));
  div x y := F64 (SFdiv B64.prec B64.emax (f64_val x) (f64_val y));
  neg x := F64 (SFopp (f64_val x));
  fabs x := F64 (SFabs (f64_val x));
  ltb x y := SFltb (f64_val x) (f64_val y);
  leb x y := SFleb (f64_val x) (f64_val y);
  isnan x := SFisnan (f64_val x)
|}.

#[global] Instance f32_arith : Arith f32 := {|
  lit n d := F32 (SFdiv B32.prec B32.emax (B32.of_Z n) (B32.of_Z d));
  add x y := F32 (SFadd B32.prec B32.emax (f32_val x) (f32_val y));
  sub x y := F32 (SFsub B32.prec B32.emax (f32_val x) (f32_val y));
  mul x y := F32 (SFmul B32.prec B32.emax (f32_val x) (f32_val y));
  div x y := F32 (SFdiv B32.prec B32.emax (f32_val x) (f32_val y));
  neg x := F32 (SFopp (f32_val x));
  fabs x := F32 (SFabs (f32_val x));
  ltb x y := SFltb (f32_val x) (f32_val y);
  leb x y := SFleb (f32_val x) (f32_val y);
  isnan x := SFisnan (f32_val x)
|}.

(** A Python float entering a [float32] expression is rounded to binary32;
    [float(x)] of a [float32] is exact. *)
#[global] Instance f64_f32 : Dtype f64 f32 := {|
  cast x := F32 (B32.round (f64_val x));
  widen x := F64 (B64.round (f32_val x))
|}.

(** ** Vocabulary of the specification *)


(** The four metrics the impact analysis reads, each with the field of the
    report that holds its percent change. *)
Definition metrics {S} : list (string * (ImpactReport S -> S)) :=
  [ ("ndvi", ndvi_change_percent);
    ("evi", evi_change_percent);
    ("fvc", fvc_change_percent);
    ("lai", lai_change_percent) ].

(** The keys of a full summary: [{index}_{stat}]. *)
Definition index_names : list string := ["ndvi"; "evi"; "ndwi"; "savi"; "fvc"; "lai"].

Definition keys_of (key : string) : gset string :=
  {[ key +:+ "_mean"; key +:+ "_std"; key +:+ "_max"; key +:+ "_min" ]}.

Definition summary_keys : list string :=
  flat_map (fun k => [k +:+ "_mean"; k +:+ "_std"; k +:+ "_max"; k +:+ "_min"])
           index_names.

(** ** Scenarios *)

(** The before / after pair of the specification's worked example: every
    mean doubles, every standard deviation is zero. *)
Definition before_doubling {S} `{Arith S} : gmap string S :=
  list_to_map
    [ ("ndvi_mean", lit 2 10); ("evi_mean", lit 1 10);
      ("fvc_mean", lit 1 10); ("lai_mean", lit 1 10);
      ("ndvi_std", lit 0 1); ("evi_std", lit 0 1);
      ("fvc_std", lit 0 1); ("lai_std", lit 0 1) ].

Definition after_doubling {S} `{Arith S} : gmap string S :=
  list_to_map
    [ ("ndvi_mean", lit 4 10); ("evi_mean", lit 2 10);
      ("fvc_mean", lit 2 10); ("lai_mean", lit 2 10);
      ("ndvi_std", lit 0 1); ("evi_std", lit 0 1);
      ("fvc_std", lit 0 1); ("lai_std", lit 0 1) ].

(** Rational stand-ins for the two elementary functions, used where a
    statement over [Q] is run on a concrete raster: five Babylonian steps for
    the square root, the first terms of [2 artanh ((x - 1) / (x + 1))] for
    the logarithm. *)
Definition Qsqrt_approx (x : Q) : Q :=
  let step y := ((y + x / y) / 2)%Q in
  step (step (step (step (step ((1 + x) / 2)%Q)))).

Definition Qlog_approx (x : Q) : Q :=
  let z := ((x - 1) / (x + 1))%Q in
  (2 * (z + z * z * z / 3 + z * z * z * z * z / 5))%Q.

Definition Q_libm_approx : Libm Q :=
  {| flog := Qlog_approx; fsqrt := Qsqrt_approx |}.

(** A 2 x 2 index raster and a reshuffle of it into one row. *)
Definition sample_index : IndexRaster Q :=
  [[1 # 2; - (1 # 4)]; [3 # 4; 1 # 2]]%Q.
Definition sample_index_shuffled : IndexRaster Q :=
  [[3 # 4; 1 # 2; 1 # 2; - (1 # 4)]]%Q.

(** ** Vocabulary for the binary32 reading *)

(** [numpy.log] on [float32] is the platform's; the statements take it as a
    parameter [logf].  The square root of [numpy.nanstd] is IEEE's. *)
Definition f32_libm (logf : spec_float -> spec_float) : Libm f32 :=
  {| flog x := F32 (logf (f32_val x));
     fsqrt x := F32 (SFsqrt B32.prec B32.emax (f32_val x)) |}.

(** A finite float above zero. *)
Definition is_pos (x : spec_float) : bool :=
  match x with S754_finite false _ _ => true | _ => false end.

(** A zero or a finite float that is not negative. *)
Definition is_nonneg (x : spec_float) : bool :=
  match x with S754_finite false _ _ | S754_zero _ => true | _ => false end.

(** Zero, a positive finite float, or plus infinity. *)
Definition is_nonneg_or_inf (x : spec_float) : bool :=
  match x with
  | S754_zero _ | S754_finite false _ _ | S754_infinity false => true
  | _ => false
  end.

(** Zero or finite: neither NaN nor an infinity. *)
Definition SFfinite (x : spec_float) : bool :=
  match x with S754_zero _ | S754_finite _ _ _ => true | _ => false end.

(** A Python float that is a valid binary64 number, neither NaN nor
    infinite. *)
Definition finite64 (x : f64) : bool :=
  valid_binary B64.prec B64.emax (f64_val x) && SFfinite (f64_val x).

(** A summary all of whose entries are finite. *)
Definition finite_summary (m : gmap string f64) : Prop :=
  map_Forall (fun _ v => finite64 v = true) m.

(** The outcome of [binary_round_aux] once its two shifts have left the
    mantissa [m] and the exponent [e]. *)
Definition outcome (prec emax : Z) (s : bool) (m e : Z) : spec_float :=
  match m with
  | Z0 => S754_zero s
  | Zpos p => if (e <=? emax - prec)%Z then S754_finite s p e else S754_infinity s
  | Zneg _ => S754_nan
  end.

(** [fin_leb k x]: [x] is a zero, or a finite float with at most [prec]
    digits, an exponent within the format, and magnitude below [2 ^ k]. *)
Definition fin_leb (prec emax k : Z) (x : spec_float) : bool :=
  match x with
  | S754_zero _ => true
  | S754_finite _ m e =>
      ((Zdigits2 (Zpos m) <=? prec) && (emin prec emax <=? e) && (e <=? emax - prec)
       && (Zdigits2 (Zpos m) + e <=? k))%Z
  | _ => false
  end.

(** A finite float, if any, has at most [prec] digits and an exponent
    within the format. *)
Definition wfb (prec emax : Z) (x : spec_float) : bool :=
  match x with
  | S754_finite _ m e =>
      ((Zdigits2 (Zpos m) <=? prec) && (emin prec emax <=? e) && (e <=? emax - prec))%Z
  | _ => true
  end.

(** The signed mantissa of [m * 2 ^ e] once aligned on the exponent [ez]. *)
Definition aligned (s : bool) (m : positive) (e ez : Z) : Z :=
  cond_Zopp s (Zpos m * 2 ^ (e - ez))%Z.

(** A channel value of a valid raster: a well-formed binary32 number [x]
    with [0.0 <= x <= 1.0]. *)
Definition unit32 (x : f32) : bool :=
  valid_binary B32.prec B32.emax (f32_val x)
  && leb (cast (lit 0 1 : f64)) x && leb x (cast (lit 1 1 : f64)).

Definition unit_pixel (px : Pixel f32) : bool :=
  let '(R, G, B) := px in unit32 R && unit32 G && unit32 B.

(** Neither NaN nor an infinity. *)
Definition finite32 (x : f32) : bool :=
  match f32_val x with
  | S754_zero _ | S754_finite _ _ _ => true
  | _ => false
  end.

(** [x] is finite and [lo <= x <= hi], in binary32 comparisons. *)
Definition within32 (lo hi : f64) (x : f32) : bool :=
  finite32 x && leb (cast lo) x && leb x (cast hi).

(** Every element of a raster satisfies [P]. *)
Definition all2d {A} (P : A -> Prop) (a : list (list A)) : Prop :=
  Forall (Forall P) a.

(** A coarse logarithm, good enough to run the pipeline on a concrete
    raster: the binary exponent of a positive finite float (so [log2],
    rounded down), minus infinity at zero, NaN below zero. *)
Definition log2_floor (x : spec_float) : spec_float :=
  match x with
  | S754_finite false m e => B32.of_Z (Zdigits2 (Zpos m) + e - 1)
  | S754_zero _ => S754_infinity true
  | S754_infinity false => x
  | _ => S754_nan
  end.

(** A raster with a black, a white and a pure green pixel. *)
Definition degenerate_raster : Raster f32 :=
  [[ (cast (lit 0 1 : f64), cast (lit 0 1 : f64), cast (lit 0 1 : f64));
     (cast (lit 1 1 : f64), cast (lit 1 1 : f64), cast (lit 1 1 : f64));
     (cast (lit 0 1 : f64), cast (lit 1 1 : f64), cast (lit 0 1 : f64)) ]].

(** The module's [EPS] as a binary64 Python float. *)
Abbreviation E64 := (EPS (module_globals (S:=f64))).

(** The binary32 values of [1.0], [EPS] and [0.99]. *)
Definition one32 : spec_float := S754_finite false 8388608 (-23).
Definition eps32 : spec_float := S754_finite false 8796093 (-43).
Definition c99_32 : spec_float := S754_finite false 16609444 (-24).

(** The order of [SFcompare] on floats that are not NaN is the
    lexicographic order of these keys. *)
Definition key (x : spec_float) : Z * Z * Z :=
  match x with
  | S754_zero _ => (0, 0, 0)
  | S754_infinity false => (2, 0, 0)
  | S754_infinity true => (-2, 0, 0)
  | S754_finite false m e => (1, e, Zpos m)
  | S754_finite true m e => (-1, - e, Zneg m)
  | S754_nan => (0, 0, 0)
  end%Z.

Definition lexcmp (k1 k2 : Z * Z * Z) : comparison :=
  let '(a1, b1, c1) := k1 in
  let '(a2, b2, c2) := k2 in
  match (a1 ?= a2)%Z with
  | Eq => match (b1 ?= b2)%Z with
          | Eq => (c1 ?= c2)%Z
          | r => r
          end
  | r => r
  end.

(** Two arrangements of the same three binary32 values, [1.0] and twice
    [2 ^ -24]. *)
Definition ulp_raster_a : IndexRaster f32 :=
  [[ cast (lit 1 1 : f64); cast (lit 1 16777216 : f64); cast (lit 1 16777216 : f64) ]].
Definition ulp_raster_b : IndexRaster f32 :=
  [[ cast (lit 1 16777216 : f64); cast (lit 1 16777216 : f64); cast (lit 1 1 : f64) ]].

(** ** Decoding and encoding images

    [_to_rgb_array_from_bytes] and [_to_data_url] sit between the image
    libraries and the numeric core.  What OpenCV and Pillow do with a file is
    taken as given: a decoder maps bytes to an 8-bit image or fails, an
    encoder maps an 8-bit image to bytes or fails.  What the source does
    itself is modelled: the choice of the library, the swap of the channels,
    and the conversions between 8-bit values and binary32 numbers. *)

(** An 8-bit image, [H] rows of [W] pixels of three channels. *)
Definition Image8 : Type := list (list (Byte.byte * Byte.byte * Byte.byte)).

(** The exceptions of the image layer, by class and message. *)
Inductive pyexn : Type :=
| PyValueError (msg : string)
| PyRuntimeError (msg : string)
| PyLibraryError (msg : string).

Record Codecs : Type := {
  (** the two flags set when the module is loaded *)
  HAS_CV2 : bool;
  HAS_PIL : bool;
  (** [cv2.imdecode(arr, cv2.IMREAD_COLOR)]: an image in B, G, R order, or
      [None] when the bytes are not an image *)
  cv2_imdecode : list Byte.byte -> pyexn + option Image8;
  (** [np.array(Image.open(io.BytesIO(data)).convert('RGB'))] *)
  pil_decode_rgb : list Byte.byte -> pyexn + Image8;
  (** [Image.fromarray(a, mode='RGB').save(buf, format=fmt)], then
      [buf.getvalue()] *)
  pil_encode : Image8 -> string -> pyexn + list Byte.byte;
  (** [cv2.imencode('.jpg', bgr)]: the flag and the buffer *)
  cv2_imencode_jpg : Image8 -> pyexn + (bool * list Byte.byte);
  (** [base64.b64encode(b).decode('ascii')] *)
  b64encode : list Byte.byte -> string;
  (** what [astype(np.uint8)] leaves in an element whose conversion C does
      not define (NaN, an infinity, a number outside the 8-bit range) *)
  uint8_undefined : spec_float -> Byte.byte
}.

(** [cv2.cvtColor] with [COLOR_BGR2RGB] or [COLOR_RGB2BGR]: the first and
    the third channel change places. *)
Definition cvtColor_swap (img : Image8) : Image8 :=
  map (map (fun '(c0, c1, c2) => (c2, c1, c0))) img.

(** [astype(np.float32)] of an 8-bit value: the same integer, exactly. *)
Definition uint8_to_f32 (b : Byte.byte) : f32 :=
  F32 (B32.of_Z (Z.of_N (Byte.to_N b))).

(** One element of [img.astype(np.float32) / 255.0]; the Python float
    [255.0] enters the [float32] expression as a binary32 number. *)
Definition normalize (b : Byte.byte) : f32 :=
  (uint8_to_f32 b / cast (lit 255 1 : f64))%num.

Definition normalize_pixel (px : Byte.byte * Byte.byte * Byte.byte) : Pixel f32 :=
  let '(c0, c1, c2) := px in (normalize c0, normalize c1, normalize c2).

Definition _to_rgb_array_from_bytes (c : Codecs) (data : list Byte.byte)
  : pyexn + Raster f32 :=
  let decoded :=
    if HAS_CV2 c then
      match cv2_imdecode c data with
      | inl e => inl e
      | inr None => inl (PyValueError "Failed to decode image bytes with OpenCV")
      | inr (Some img) => inr (cvtColor_swap img)
      end
    else if HAS_PIL c then pil_decode_rgb c data
    else inl (PyRuntimeError "Neither OpenCV nor Pillow is available for image decoding") in
  match decoded with
  | inl e => inl e
  | inr img => inr (map2d normalize_pixel img)
  end.

(** [astype(np.uint8)] of a binary32 number: C's conversion drops the
    fraction; it is defined when what is left fits in 8 bits. *)
Definition astype_uint8 (undef : spec_float -> Byte.byte) (x : f32) : Byte.byte :=
  match f32_val x with
  | S754_zero _ => Byte.x00
  | S754_finite s m e =>
      let z := cond_Zopp s (Z.shiftl (Zpos m) e) in
      match (if (0 <=? z)%Z then Byte.of_N (Z.to_N z) else None) with
      | Some b => b
      | None => undef (f32_val x)
      end
  | _ => undef (f32_val x)
  end.

(** One element of [np.clip(img * 255.0, 0, 255).astype(np.uint8)], the
    array handed to Pillow, and of [(img * 255.0).astype(np.uint8)], the
    array handed to OpenCV. *)
Definition quantize_clipped (undef : spec_float -> Byte.byte) (x : f32) : Byte.byte :=
  astype_uint8 undef
    (clip (x * cast (lit 255 1 : f64))%num (cast (lit 0 1 : f64)) (cast (lit 255 1 : f64))).

Definition quantize (undef : spec_float -> Byte.byte) (x : f32) : Byte.byte :=
  astype_uint8 undef (x * cast (lit 255 1 : f64))%num.

Definition map_pixel {A B} (f : A -> B) (px : A * A * A) : B * B * B :=
  let '(c0, c1, c2) := px in (f c0, f c1, f c2).

(** [str.upper] on the letters of ASCII. *)
Definition upper_ascii (a : Ascii.ascii) : Ascii.ascii :=
  let n := Ascii.nat_of_ascii a in
  if ((97 <=? n) && (n <=? 122))%nat then Ascii.ascii_of_nat (n - 32) else a.

Fixpoint upper (s : string) : string :=
  match s with
  | EmptyString => EmptyString
  | String a rest => String (upper_ascii a) (upper rest)
  end.

(** [_to_data_url(img, fmt)]; the callers leave [fmt] at its default
    ['JPEG']. *)
Definition _to_data_url (c : Codecs) (img : Raster f32) (fmt : string) : pyexn + string :=
  if HAS_PIL c then
    match pil_encode c (map2d (map_pixel (quantize_clipped (uint8_undefined c))) img) fmt with
    | inl e => inl e
    | inr buf =>
        let mime := if String.eqb (upper fmt) "JPEG" then "image/jpeg" else "image/png" in
        inr ("data:" +:+ mime +:+ ";base64," +:+ b64encode c buf)
    end
  else if negb (HAS_CV2 c) then
    inl (PyRuntimeError "Cannot encode image without PIL or OpenCV")
  else
    let bgr := cvtColor_swap (map2d (map_pixel (quantize (uint8_undefined c))) img) in
    match cv2_imencode_jpg c bgr with
    | inl e => inl e
    | inr (ok, buf) =>
        if ok then inr ("data:image/jpeg;base64," +:+ b64encode c buf)
        else inl (PyValueError "Failed to encode image")
    end.

(** A stand-in for the libraries, to run the two functions on concrete
    bytes: Pillow only, an image file being its pixels in one row, three
    bytes each. *)
Fixpoint pixels_of_bytes (l : list Byte.byte) : list (Byte.byte * Byte.byte * Byte.byte) :=
  match l with
  | c0 :: c1 :: c2 :: rest => (c0, c1, c2) :: pixels_of_bytes rest
  | _ => []
  end.

Definition bytes_of_pixels (img : Image8) : list Byte.byte :=
  flat_map (fun '(c0, c1, c2) => [c0; c1; c2]) (concat img).

Definition raw_codecs : Codecs := {|
  HAS_CV2 := false;
  HAS_PIL := true;
  cv2_imdecode _ := inr None;
  pil_decode_rgb data := inr [pixels_of_bytes data];
  pil_encode img _ := inr (bytes_of_pixels img);
  cv2_imencode_jpg _ := inr (false, []);
  b64encode := String.string_of_list_byte;
  uint8_undefined _ := Byte.x00
|}.

(** A zero of either sign. *)
Definition is_zero32 (x : f32) : bool :=
  match f32_val x with S754_zero _ => true | _ => false end.

(** Zero, a negative finite float, or minus infinity. *)
Definition is_nonpos_or_inf (x : spec_float) : bool :=
  match x with
  | S754_zero _ | S754_finite true _ _ | S754_infinity true => true
  | _ => false
  end.

(** A valid binary64 number that is finite and of magnitude below
    [2 ^ 1000]. *)
Definition moderate64 (x : f64) : bool :=
  valid_binary B64.prec B64.emax (f64_val x)
  && fin_leb B64.prec B64.emax 1000 (f64_val x).

(** A summary all of whose entries are such numbers. *)
Definition moderate_summary (m : gmap string f64) : Prop :=
  map_Forall (fun _ v => moderate64 v = true) m.

(** A pixel whose three channels hold the same value. *)
Definition grey {F} (px : Pixel F) : Prop := exists x, px = (x, x, x).

(** The index rasters by name, each with its range. *)
Definition index_ranges {S} `{Arith S} : list (string * (S * S)) :=
  [ ("ndvi", (neg (lit 1 1), lit 1 1)); ("evi", (neg (lit 1 1), lit 1 1));
    ("ndwi", (neg (lit 1 1), lit 1 1)); ("savi", (neg (lit 1 1), lit 1 1));
    ("fvc", (lit 0 1, lit 1 1)); ("lai", (lit 0 1, lit 6 1)) ].

(** Two rasters of one shape, related position by position. *)
Definition pointwise {A B} (P : A -> B -> Prop)
    (a : list (list A)) (b : list (list B)) : Prop :=
  Forall2 (Forall2 P) a b.

(** A pixel of exact channel values in [0, 1]. *)
Definition unit_pixel_exact (px : Pixel Q) : Prop :=
  let '(R, G, B) := px in
  (0 <= R <= 1 /\ 0 <= G <= 1 /\ 0 <= B <= 1)%Q.

(** What an index value [v] says about the two channels [a] and [b] it
    compares: in binary32 it is in [0, 1] when [a <= b] and in [-1, 0] when
    [b <= a]; over exact numbers it is strictly inside (-1, 1) and has the
    sign of [b - a]. *)
Definition sign_follows32 (a b v : f32) : Prop :=
  (leb a b = true -> within32 (lit 0 1) (lit 1 1) v = true) /\
  (leb b a = true -> within32 (neg (lit 1 1)) (lit 0 1) v = true).

Definition sign_follows_exact (a b v : Q) : Prop :=
  (- (1) < v < 1 /\ (0 < v <-> a < b) /\ (v == 0 <-> a == b) /\ (v < 0 <-> b < a))%Q.

(* ===================================================================== *)
(** * Part II.  The exact reading: properties of the formulas over [Q]    *)
(* ===================================================================== *)

Ltac qred :=
  cbn [lit add sub mul div neg fabs ltb leb isnan Q_arith
       cast widen Q_dtype Z.to_pos EPS module_globals] in *.

Section Exact.
Local Open Scope Q_scope.

(** ** Comparisons and clipping over [Q] *)

Lemma Qltb_lt (x y : Q) : Qltb x y = true <-> x < y.
Proof.
  unfold Qltb. rewrite Qlt_alt. destruct (x ?= y); split; congruence.
Qed.

Lemma Qltb_ge (x y : Q) : Qltb x y = false <-> y <= x.
Proof.
  split; intros H.
  - apply Qnot_lt_le. intros Hlt. apply Qltb_lt in Hlt. congruence.
  - destruct (Qltb x y) eqn:E; [|reflexivity].
    apply Qltb_lt in E. exfalso. eapply Qlt_not_le; eauto.
Qed.

Lemma Qle_bool_false (x y : Q) : Qle_bool x y = false <-> y < x.
Proof.
  split; intros H.
  - apply Qnot_le_lt. intros Hle. apply Qle_bool_iff in Hle. congruence.
  - destruct (Qle_bool x y) eqn:E; [|reflexivity].
    apply Qle_bool_iff in E. exfalso. eapply Qlt_not_le; eauto.
Qed.

Lemma Qclip_cases (x lo hi : Q) :
  lo < hi ->
  (x <= lo /\ clip x lo hi = lo) \/
  (lo < x /\ x < hi /\ clip x lo hi = x) \/
  (hi <= x /\ clip x lo hi = hi).
Proof.
  intros Hlh. unfold clip, npy_max, npy_min. qred.
  destruct (Qltb lo x) eqn:E1.
  - apply Qltb_lt in E1. destruct (Qltb x hi) eqn:E2.
    + apply Qltb_lt in E2. right. left. auto.
    + apply Qltb_ge in E2. right. right. auto.
  - apply Qltb_ge in E1. apply Qltb_lt in Hlh. rewrite Hlh. left. auto.
Qed.





(** ** What a call of [_impact_analysis] returns *)

Lemma impact_analysis_run {S} {AS : Arith S} (before after : gmap string S) (g : Globals S) :
  _impact_analysis before after g =
  (Ok (let eps := EPS g in
       let ndvi_ch := change_pct eps before after "ndvi" in
       let evi_ch := change_pct eps before after "evi" in
       let fvc_ch := change_pct eps before after "fvc" in
       let lai_ch := change_pct eps before after "lai" in
       let w := weighted ndvi_ch evi_ch fvc_ch lai_ch in
       {| impact_score := score_of w;
          confidence := confidence_of (noise_of before after);
          category := category_of (score_of w);
          ndvi_change_percent := ndvi_ch;
          evi_change_percent := evi_ch;
          fvc_change_percent := fvc_ch;
          lai_change_percent := lai_ch;
          weighted_score := w |}), g).
Proof. reflexivity. Qed.

Lemma metrics_summary_run {S F} {AS : Arith S} {AF : Arith F} {D : Dtype S F}
    {L : Libm F} (arr : IndexRaster F) (g : Globals S) :
  _metrics_summary arr g =
  match concat arr with
  | [] => (Raise ValueError, g)
  | x :: rest =>
      (Ok {| mean := widen (nanmean (x :: rest)); std := widen (nanstd (x :: rest));
             max := widen (fold_left fmax rest x);
             min := widen (fold_left fmin rest x) |}, g)
  end.
Proof.
  unfold _metrics_summary. destruct (concat arr) as [|x rest]; reflexivity.
Qed.




(** ** Category bands *)

Lemma category_of_bands (s : Q) :
  (80 <= s -> category_of s = "Excellent") /\
  (65 <= s < 80 -> category_of s = "Good") /\
  (50 <= s < 65 -> category_of s = "Moderate") /\
  (35 <= s < 50 -> category_of s = "Poor") /\
  (s < 35 -> category_of s = "Very Poor").
Proof.
  unfold category_of. qred.
  destruct (Qle_bool 80 s) eqn:E80;
    [apply Qle_bool_iff in E80 | apply Qle_bool_false in E80];
  destruct (Qle_bool 65 s) eqn:E65;
    [apply Qle_bool_iff in E65 | apply Qle_bool_false in E65 | apply Qle_bool_iff in E65 | apply Qle_bool_false in E65];
  destruct (Qle_bool 50 s) eqn:E50;
    try (apply Qle_bool_iff in E50); try (apply Qle_bool_false in E50);
  destruct (Qle_bool 35 s) eqn:E35;
    try (apply Qle_bool_iff in E35); try (apply Qle_bool_false in E35);
  repeat split; intros; try reflexivity; exfalso; lra.
Qed.

(** Over exact numbers: the category of a report is read off its impact
    score from the highest threshold down, each band closed at its lower
    edge. *)
Lemma category_exact (before after : gmap string Q) :
  exists r, returns (_impact_analysis before after) r /\
    let s := impact_score r in
    (80 <= s -> category r = "Excellent") /\
    (65 <= s < 80 -> category r = "Good") /\
    (50 <= s < 65 -> category r = "Moderate") /\
    (35 <= s < 50 -> category r = "Poor") /\
    (s < 35 -> category r = "Very Poor").
Proof.
  eexists. unfold returns.
  rewrite impact_analysis_run. cbn [fst]. split; [reflexivity|].
  cbn zeta. cbn [impact_score category]. apply category_of_bands.
Qed.

(** ** Confidence *)






(** ** Incomplete summaries *)

Lemma get_insert_zero {S} {AS : Arith S} (d : gmap string S) (k k' : string) :
  d !! k = None -> get (<[k := lit 0 1]> d) k' = get d k'.
Proof.
  intros Hk. unfold get. destruct (decide (k = k')) as [<-|Hne].
  - rewrite lookup_insert_eq, Hk. reflexivity.
  - rewrite lookup_insert_ne by assumption. reflexivity.
Qed.

Lemma impact_analysis_ext {S} {AS : Arith S} (b b' a a' : gmap string S) (g : Globals S) :
  (forall k, get b' k = get b k) -> (forall k, get a' k = get a k) ->
  _impact_analysis b' a' g = _impact_analysis b a g.
Proof.
  intros Hb Ha. rewrite !impact_analysis_run.
  unfold change_pct, noise_of. cbn [map]. rewrite !Hb, !Ha. reflexivity.
Qed.

Lemma change_pct_absent (eps : Q) (before after : gmap string Q) (m : string) :
  before !! (m +:+ "_mean") = None -> after !! (m +:+ "_mean") = None ->
  change_pct eps before after m == 0.
Proof.
  intros Hb Ha. unfold change_pct, get. rewrite Hb, Ha. cbn [default]. qred.
  unfold Qdiv. ring.
Qed.

(** In either reading, putting the default under an absent key of either
    summary leaves the report unchanged. *)
Lemma absent_key_reads_as_default {S} {AS : Arith S} (before after : gmap string S) :
  exists r,
    returns (_impact_analysis before after) r /\
    (forall k, before !! k = None ->
       returns (_impact_analysis (<[k := lit 0 1]> before) after) r) /\
    (forall k, after !! k = None ->
       returns (_impact_analysis before (<[k := lit 0 1]> after)) r).
Proof.
  eexists. unfold returns. split; [rewrite impact_analysis_run; reflexivity|].
  split.
  - intros k Hk.
    rewrite (impact_analysis_ext before (<[k := lit 0 1]> before) after after).
    + rewrite impact_analysis_run. reflexivity.
    + intros k'. exact (get_insert_zero before k k' Hk).
    + reflexivity.
  - intros k Hk.
    rewrite (impact_analysis_ext before before after (<[k := lit 0 1]> after)).
    + rewrite impact_analysis_run. reflexivity.
    + reflexivity.
    + intros k'. exact (get_insert_zero after k k' Hk).
Qed.
End Exact.

(** ** Fractional vegetation cover as a function of NDVI *)

Section ExactIndices.
Local Open Scope Q_scope.

Lemma fvc_unfold (v : Q) :
  exists q, q * (660001 # 1000000) == v - (2 # 10) /\
    fvc (EPS module_globals) v = clip q 0 1 * clip q 0 1.
Proof.
  exists ((v - (2 # 10)) / ((86 # 100) - (2 # 10) + (1 # 1000000))). split.
  - assert (Hd : (86 # 100) - (2 # 10) + (1 # 1000000) == 660001 # 1000000) by reflexivity.
    rewrite Hd. field.
  - reflexivity.
Qed.

End ExactIndices.

(** ** Order independence of the reductions *)

Section ExactReductions.
Local Open Scope Q_scope.
Context {L : Libm Q}.

Lemma Qplus_swap_L (a x y : Q) : a + x + y = a + y + x.
Proof.
  destruct a as [na da], x as [nx dx], y as [ny dy]. unfold Qplus. cbn.
  f_equal.
  - rewrite !Pos2Z.inj_mul. ring.
  - rewrite <- !Pos.mul_assoc. f_equal. apply Pos.mul_comm.
Qed.

Lemma fold_Qplus_perm (l l' : list Q) :
  Permutation l l' -> forall a, fold_left Qplus l a = fold_left Qplus l' a.
Proof.
  induction 1 as [|x l l' _ IH|x y l|l l' l'' _ IH1 _ IH2]; intros a; cbn.
  - reflexivity.
  - apply IH.
  - f_equal. apply Qplus_swap_L.
  - rewrite IH1. apply IH2.
Qed.

Lemma nonnan_Q (l : list Q) : nonnan l = l.
Proof.
  unfold nonnan. induction l as [|x l IH]; cbn; [reflexivity|]. f_equal. exact IH.
Qed.

Lemma fsum_perm (l l' : list Q) : Permutation l l' -> fsum l = fsum l'.
Proof. intros H. unfold fsum. apply fold_Qplus_perm, H. Qed.

Lemma count_perm (l l' : list Q) : Permutation l l' -> count l = count l'.
Proof. intros H. unfold count. rewrite (Permutation_length H). reflexivity. Qed.

Lemma nanmean_perm (l l' : list Q) : Permutation l l' -> nanmean l = nanmean l'.
Proof.
  intros H. unfold nanmean. rewrite !nonnan_Q.
  rewrite (fsum_perm _ _ H), (count_perm _ _ H). reflexivity.
Qed.

Lemma nanstd_perm (l l' : list Q) : Permutation l l' -> nanstd l = nanstd l'.
Proof.
  intros H. unfold nanstd, nanvar. rewrite !nonnan_Q.
  rewrite (fsum_perm _ _ H), (count_perm _ _ H). f_equal. f_equal.
  apply fsum_perm. apply Permutation_map, H.
Qed.

(** The result of the [fmax] fold is an element of the list that bounds
    every element. *)
Lemma fold_fmax_greatest (rest : list Q) (x : Q) :
  In (fold_left fmax rest x) (x :: rest) /\
  forall y, In y (x :: rest) -> y <= fold_left fmax rest x.
Proof.
  revert x. induction rest as [|z rest IH]; intros x; cbn [fold_left].
  - split; [left; reflexivity|]. intros y [<-|[]]. apply Qle_refl.
  - destruct (IH (fmax x z)) as [Hin Hge].
    assert (Hm : (fmax x z = x /\ z <= x) \/ (fmax x z = z /\ x <= z)).
    { unfold fmax. qred. destruct (Qltb x z) eqn:E.
      - right. split; [reflexivity|]. apply Qltb_lt in E. lra.
      - left. split; [reflexivity|]. apply Qltb_ge in E. exact E. }
    split.
    + destruct Hin as [Hin|Hin]; [|right; right; exact Hin].
      destruct Hm as [[Hm _]|[Hm _]]; [left|right; left];
        rewrite <- Hin; symmetry; exact Hm.
    + intros y [<-|[<-|Hy]].
      * eapply Qle_trans; [|apply Hge; left; reflexivity].
        destruct Hm as [[-> ?]|[-> ?]]; lra.
      * eapply Qle_trans; [|apply Hge; left; reflexivity].
        destruct Hm as [[-> ?]|[-> ?]]; lra.
      * apply Hge. right. exact Hy.
Qed.

Lemma fold_fmin_least (rest : list Q) (x : Q) :
  In (fold_left fmin rest x) (x :: rest) /\
  forall y, In y (x :: rest) -> fold_left fmin rest x <= y.
Proof.
  revert x. induction rest as [|z rest IH]; intros x; cbn [fold_left].
  - split; [left; reflexivity|]. intros y [<-|[]]. apply Qle_refl.
  - destruct (IH (fmin x z)) as [Hin Hge].
    assert (Hm : (fmin x z = x /\ x <= z) \/ (fmin x z = z /\ z <= x)).
    { unfold fmin. qred. destruct (Qltb z x) eqn:E.
      - right. split; [reflexivity|]. apply Qltb_lt in E. lra.
      - left. split; [reflexivity|]. apply Qltb_ge in E. exact E. }
    split.
    + destruct Hin as [Hin|Hin]; [|right; right; exact Hin].
      destruct Hm as [[Hm _]|[Hm _]]; [left|right; left];
        rewrite <- Hin; symmetry; exact Hm.
    + intros y [<-|[<-|Hy]].
      * eapply Qle_trans; [apply Hge; left; reflexivity|].
        destruct Hm as [[-> ?]|[-> ?]]; lra.
      * eapply Qle_trans; [apply Hge; left; reflexivity|].
        destruct Hm as [[-> ?]|[-> ?]]; lra.
      * apply Hge. right. exact Hy.
Qed.

(** Over exact numbers a summary does not depend on the order of the
    elements, nor on their partition into rows. *)
Lemma summary_exact_order_independent (arr arr' : IndexRaster Q) (g : Globals Q) :
  Permutation (concat arr) (concat arr') ->
  match fst (_metrics_summary arr g), fst (_metrics_summary arr' g) with
  | Ok s, Ok s' =>
      mean s = mean s' /\ std s = std s' /\ max s == max s' /\ min s == min s'
  | Raise e, Raise e' => e = e'
  | _, _ => False
  end.
Proof.
  intros Hp. rewrite !metrics_summary_run.
  destruct (concat arr) as [|x rest] eqn:E, (concat arr') as [|x' rest'] eqn:E'; cbn [fst].
  - reflexivity.
  - apply Permutation_nil in Hp. discriminate.
  - apply Permutation_sym, Permutation_nil in Hp. discriminate.
  - cbn [mean std max min widen Q_dtype]. split; [apply nanmean_perm, Hp|].
    split; [apply nanstd_perm, Hp|].
    destruct (fold_fmax_greatest rest x) as [Hi1 Hg1].
    destruct (fold_fmax_greatest rest' x') as [Hi2 Hg2].
    destruct (fold_fmin_least rest x) as [Hj1 Hl1].
    destruct (fold_fmin_least rest' x') as [Hj2 Hl2].
    split; apply Qle_antisym.
    + apply Hg2. eapply Permutation_in; eassumption.
    + apply Hg1. eapply Permutation_in; [apply Permutation_sym|]; eassumption.
    + apply Hl1. eapply Permutation_in; [apply Permutation_sym|]; eassumption.
    + apply Hl2. eapply Permutation_in; eassumption.
Qed.
End ExactReductions.

Lemma sample_index_shuffled_perm :
  Permutation (concat sample_index) (concat sample_index_shuffled).
Proof.
  cbn [concat sample_index sample_index_shuffled app].
  apply (Permutation_cons_app [(3 # 4)%Q] [(1 # 2)%Q; (- (1 # 4))%Q]).
  apply (Permutation_cons_app [(3 # 4)%Q; (1 # 2)%Q] []).
  apply Permutation_refl.
Defined.


(* ===================================================================== *)
(** * Part III.  Purity: what holds whatever the arithmetic               *)
(* ===================================================================== *)

Section Purity.
Context {S F : Type} {AS : Arith S} {AF : Arith F} {D : Dtype S F} {L : Libm F}.

Lemma for_each_cons {A B} (x : A) (rest : list A) (body : B -> A -> Py S B)
    (acc : B) (g : Globals S) :
  for_each (x :: rest) body acc g =
  match body acc x g with
  | (Ok acc', g') => for_each rest body acc' g'
  | (Raise e, g') => (Raise e, g')
  end.
Proof. reflexivity. Qed.

Lemma metrics_summary_state (arr : IndexRaster F) (g : Globals S) :
  snd (_metrics_summary arr g) = g.
Proof.
  unfold _metrics_summary. destruct (concat arr) as [|x rest]; reflexivity.
Qed.

Lemma record_stats_spec (out : gmap string S) (item : string * IndexRaster F)
    (g : Globals S) :
  snd (record_stats out item g) = g /\
  forall out', fst (record_stats out item g) = Ok out' ->
    dom out' = dom out ∪ keys_of (fst item).
Proof.
  destruct item as [key data]. unfold record_stats.
  pose proof (metrics_summary_state data g) as Hs.
  unfold mbind, Py_bind, bind. destruct (_metrics_summary data g) as [[s|e] g']; cbn in Hs; subst g'.
  - split; [reflexivity|]. cbn. intros out' [= <-].
    rewrite !dom_insert_L. unfold keys_of. apply set_eq. intros x.
    rewrite !elem_of_union, !elem_of_singleton. tauto.
  - split; [reflexivity|]. cbn. discriminate.
Qed.

Lemma for_each_record_stats (idx : list (string * IndexRaster F))
    (out : gmap string S) (g : Globals S) :
  snd (for_each idx record_stats out g) = g /\
  forall out', fst (for_each idx record_stats out g) = Ok out' ->
    dom out' = dom out ∪ ⋃ (map (fun item => keys_of (fst item)) idx).
Proof.
  revert out. induction idx as [|item idx IH]; intros out.
  - split; [reflexivity|]. cbn. intros out' [= <-].
    symmetry. apply union_empty_r_L.
  - rewrite for_each_cons.
    destruct (record_stats_spec out item g) as [Hs Hd].
    destruct (record_stats out item g) as [[acc|e] g']; cbn in Hs; subst g'.
    + destruct (IH acc) as [IHs IHd]. split; [exact IHs|].
      intros out' Hout. rewrite (IHd out' Hout).
      rewrite (Hd acc eq_refl). cbn [map union_list foldr].
      symmetry. apply union_assoc_L.
    + split; [reflexivity|]. cbn. discriminate.
Qed.

Lemma compute_metrics_run (rgb : Raster F) (g : Globals S) :
  exists idx,
    map fst idx = index_names /\
    _compute_metrics rgb g = for_each idx record_stats ∅ g.
Proof.
  eexists. split; [|reflexivity]. reflexivity.
Qed.

(** C8.  Computing the metrics of a raster twice in a row gives the same
    outcome both times, whatever the arithmetic (so also bit for bit in
    binary32 / binary64): a call reads the raster and the module constant
    [EPS], leaves the module state as it found it, and when it returns, it
    returns the summary with exactly the 24 keys [{index}_{stat}]. *)
Theorem compute_metrics_deterministic (rgb : Raster F) (g : Globals S) :
  let '(r1, g1) := _compute_metrics rgb g in
  let '(r2, g2) := _compute_metrics rgb g1 in
  r1 = r2 /\ g1 = g /\ g2 = g /\
  forall m, r1 = Ok m ->
    dom m = list_to_set summary_keys /\ size m = 24%nat.
Proof.
  destruct (compute_metrics_run rgb g) as (idx & Hidx & Hrun).
  destruct (for_each_record_stats idx ∅ g) as [Hs Hd].
  rewrite <- Hrun in Hs, Hd.
  destruct (_compute_metrics rgb g) as [r1 g1] eqn:E1. cbn in Hs. subst g1.
  rewrite E1. split; [reflexivity|]. split; [reflexivity|]. split; [reflexivity|].
  intros m ->. cbn in Hd. specialize (Hd m eq_refl).
  assert (Hdom : dom m = list_to_set summary_keys).
  { rewrite Hd. rewrite <- (map_map fst keys_of), Hidx. vm_compute. reflexivity. }
  split; [exact Hdom|].
  rewrite <- size_dom, Hdom. vm_compute. reflexivity.
Qed.
End Purity.

(* ===================================================================== *)
(** * Part IV.  The IEEE reading: binary32 rasters, binary64 scalars      *)
(* ===================================================================== *)

(** Over exact numbers the denominator of EVI, [G + 6 R - 7.5 B + 1 + EPS],
    vanishes on a plane that cuts the unit cube, so finiteness of the indices
    is a fact about binary32 rounding and is proved on [SpecFloat]'s
    operations.  The part opens with a small theory of [binary_round_aux],
    follows the six formulas in binary32, orders the floats to compare
    maxima and minima, and closes with the binary64 arithmetic of the
    impact analysis. *)

Section IEEE.
Local Open Scope Z_scope.

(** ** Counting binary digits *)


Lemma digits2_log2 (p : positive) : Zpos (digits2_pos p) = Z.log2 (Zpos p) + 1.
Proof.
  induction p as [p IH|p IH|]; cbn [digits2_pos].
  - rewrite Pos2Z.inj_succ, IH.
    change (Zpos p~1) with (2 * Zpos p + 1). rewrite Z.log2_succ_double by lia. lia.
  - rewrite Pos2Z.inj_succ, IH.
    change (Zpos p~0) with (2 * Zpos p). rewrite Z.log2_double by lia. lia.
  - reflexivity.
Qed.

Lemma Zdigits2_log2 (m : Z) : 0 < m -> Zdigits2 m = Z.log2 m + 1.
Proof. destruct m as [|p|p]; intros H; try lia. cbn. apply digits2_log2. Qed.

Lemma Zdigits2_nonneg (m : Z) : 0 <= Zdigits2 m.
Proof. destruct m; cbn; lia. Qed.

Lemma Zdigits2_0 : Zdigits2 0 = 0.
Proof. reflexivity. Qed.

Lemma Zdigits2_pos (m : Z) : 0 < m -> 0 < Zdigits2 m.
Proof. destruct m; cbn; lia. Qed.

Lemma Zdigits2_le (a b : Z) : 0 <= a <= b -> Zdigits2 a <= Zdigits2 b.
Proof.
  intros [Ha Hab]. destruct (Z.eq_dec a 0) as [->|Hn].
  - apply Zdigits2_nonneg.
  - rewrite !Zdigits2_log2 by lia. pose proof (Z.log2_le_mono a b Hab). lia.
Qed.

Lemma Zdigits2_succ (a : Z) : 0 <= a -> Zdigits2 (a + 1) <= Zdigits2 a + 1.
Proof.
  intros Ha. destruct (Z.eq_dec a 0) as [->|Hn]; [apply Z.leb_le; reflexivity|].
  rewrite !Zdigits2_log2 by lia.
  pose proof (Z.log2_succ_le a). unfold Z.succ in *. lia.
Qed.

Lemma Zdigits2_shiftr (a n : Z) :
  0 < a -> 0 <= n -> n < Zdigits2 a -> Zdigits2 (Z.shiftr a n) = Zdigits2 a - n.
Proof.
  intros Ha Hn Hlt. rewrite Zdigits2_log2 in Hlt by lia.
  assert (Hpos : 0 < Z.shiftr a n).
  { rewrite Z.shiftr_div_pow2 by lia.
    apply Z.div_str_pos. split; [apply Z.pow_pos_nonneg; lia|].
    pose proof (Z.log2_spec a Ha) as [H1 _].
    eapply Z.le_trans; [|exact H1]. apply Z.pow_le_mono_r; lia. }
  rewrite !Zdigits2_log2 by lia.
  rewrite Z.log2_shiftr by lia. lia.
Qed.

Lemma Zdigits2_shiftr_0 (a n : Z) :
  0 <= a -> 0 <= n -> Zdigits2 a <= n -> Z.shiftr a n = 0.
Proof.
  intros Ha Hn Hle. destruct (Z.eq_dec a 0) as [->|Hne]; [apply Z.shiftr_0_l|].
  rewrite Zdigits2_log2 in Hle by lia.
  apply Z.shiftr_eq_0; lia.
Qed.

Lemma Zdigits2_shiftl (a n : Z) :
  0 < a -> 0 <= n -> Zdigits2 (Z.shiftl a n) = Zdigits2 a + n.
Proof.
  intros Ha Hn.
  assert (0 < Z.shiftl a n).
  { rewrite Z.shiftl_mul_pow2 by lia. apply Z.mul_pos_pos; [lia|apply Z.pow_pos_nonneg; lia]. }
  rewrite !Zdigits2_log2 by lia. rewrite Z.log2_shiftl by lia. lia.
Qed.

Lemma Zdigits2_add (a b : Z) :
  0 <= a -> 0 <= b -> Zdigits2 (a + b) <= Z.max (Zdigits2 a) (Zdigits2 b) + 1.
Proof.
  intros Ha Hb.
  destruct (Z.eq_dec (Z.max a b) 0) as [H0|Hn].
  { assert (a = 0) by lia. assert (b = 0) by lia. subst. apply Z.leb_le. reflexivity. }
  assert (Hle : a + b <= 2 * Z.max a b) by lia.
  pose proof (Zdigits2_le (a + b) (2 * Z.max a b) ltac:(lia)) as H.
  eapply Z.le_trans; [exact H|].
  rewrite (Zdigits2_log2 (2 * _)) by lia. rewrite Z.log2_double by lia.
  destruct (Z.max_spec a b) as [[? Hm]|[? Hm]]; rewrite Hm in *.
  - pose proof (Zdigits2_log2 b ltac:(lia)). lia.
  - pose proof (Zdigits2_log2 a ltac:(lia)). lia.
Qed.

Lemma Zdigits2_mul (a b : Z) :
  0 < a -> 0 < b -> Zdigits2 (a * b) <= Zdigits2 a + Zdigits2 b.
Proof.
  intros Ha Hb. rewrite !Zdigits2_log2 by nia.
  pose proof (Z.log2_mul_above a b ltac:(lia) ltac:(lia)). lia.
Qed.

Lemma Zdigits2_lt_pow2 (a k : Z) : 0 <= a -> 0 <= k -> Zdigits2 a <= k -> a < 2 ^ k.
Proof.
  intros Ha Hk H. destruct (Z.eq_dec a 0) as [->|Hn]; [apply Z.pow_pos_nonneg; lia|].
  rewrite Zdigits2_log2 in H by lia.
  apply Z.log2_lt_pow2; lia.
Qed.

Lemma Zdigits2_ge_pow2 (a k : Z) : 0 <= k -> 2 ^ k <= a -> k < Zdigits2 a.
Proof.
  intros Hk H. assert (0 < a). { pose proof (Z.pow_pos_nonneg 2 k); lia. }
  rewrite Zdigits2_log2 by lia.
  pose proof (Z.log2_le_pow2 a k ltac:(lia)). lia.
Qed.

(** ** Right shifts *)

Lemma shr_1_m (mrs : shr_record) :
  0 <= shr_m mrs -> shr_m (shr_1 mrs) = Z.div2 (shr_m mrs).
Proof.
  destruct mrs as [m r s]. cbn [shr_m]. intros Hm.
  destruct m as [|p|p]; [reflexivity| |lia].
  destruct p; reflexivity.
Qed.

Lemma iter_shr_1_m (p : positive) (mrs : shr_record) :
  0 <= shr_m mrs ->
  shr_m (SpecFloat.iter_pos shr_1 p mrs) = Z.shiftr (shr_m mrs) (Zpos p).
Proof.
  revert mrs. induction p as [p IH|p IH|]; intros mrs Hm; cbn [SpecFloat.iter_pos].
  - assert (H1 : 0 <= shr_m (shr_1 mrs)).
    { rewrite shr_1_m by assumption. apply Z.div2_nonneg, Hm. }
    assert (H2 : 0 <= shr_m (SpecFloat.iter_pos shr_1 p (shr_1 mrs))).
    { rewrite IH by assumption. apply Z.shiftr_nonneg, H1. }
    rewrite IH, IH, shr_1_m by assumption.
    rewrite Z.div2_spec, !Z.shiftr_shiftr by lia. f_equal. lia.
  - assert (H2 : 0 <= shr_m (SpecFloat.iter_pos shr_1 p mrs)).
    { rewrite IH by assumption. apply Z.shiftr_nonneg, Hm. }
    rewrite IH, IH by assumption.
    rewrite Z.shiftr_shiftr by lia. f_equal. lia.
  - rewrite shr_1_m by assumption. apply Z.div2_spec.
Qed.

Lemma shr_spec (mrs : shr_record) (e n : Z) :
  0 <= shr_m mrs ->
  shr_m (fst (shr mrs e n)) = Z.shiftr (shr_m mrs) (Z.max n 0) /\
  snd (shr mrs e n) = e + Z.max n 0.
Proof.
  intros Hm. unfold shr. destruct n as [|p|p]; cbn [fst snd].
  - split; [symmetry; apply Z.shiftr_0_r | lia].
  - rewrite iter_shr_1_m by assumption. split; [f_equal; lia | lia].
  - split; [symmetry; apply Z.shiftr_0_r | lia].
Qed.

Lemma shr_record_of_loc_m (m : Z) (l : location) : shr_m (shr_record_of_loc m l) = m.
Proof. destruct l as [|[]]; reflexivity. Qed.

Lemma round_nearest_even_cases (m : Z) (l : location) :
  round_nearest_even m l = m \/ round_nearest_even m l = m + 1.
Proof.
  destruct l as [|[]]; cbn; auto. destruct (Z.even m); auto.
Qed.

Section Rounding.
Variables prec emax : Z.
Hypothesis Hprec : 0 < prec.
Hypothesis Hemax : 2 <= emax.

Local Abbreviation emin := (SpecFloat.emin prec emax).
Local Abbreviation fexp := (SpecFloat.fexp prec emax).
Local Abbreviation outc := (outcome prec emax).
Local Abbreviation finb := (fin_leb prec emax).
Local Abbreviation wf := (wfb prec emax).

Lemma fexp_eq (e : Z) : fexp e = Z.max (e - prec) emin.
Proof. reflexivity. Qed.

Lemma emin_eq : emin = 3 - emax - prec.
Proof. reflexivity. Qed.

Lemma fexp_ge_emin (e : Z) : emin <= fexp e.
Proof. rewrite fexp_eq. lia. Qed.

(** What the first shift of [binary_round_aux] leaves. *)
Lemma shr_fexp_spec (m e : Z) (l : location) :
  0 <= m ->
  let m' := shr_m (fst (shr_fexp prec emax m e l)) in
  let e' := snd (shr_fexp prec emax m e l) in
  0 <= m' /\ e <= e' /\ emin <= e' /\ e' = Z.max e (fexp (Zdigits2 m + e)) /\
  Zdigits2 m' <= prec /\
  Zdigits2 m' + e' <= Z.max (Zdigits2 m + e) emin /\
  (0 < m -> emin <= e -> 0 < m') /\
  (fexp (Zdigits2 m + e) <= e -> fst (shr_fexp prec emax m e l) = shr_record_of_loc m l).
Proof.
  intros Hm. unfold shr_fexp.
  set (n := fexp (Zdigits2 m + e) - e).
  destruct (shr_spec (shr_record_of_loc m l) e n) as [H1 H2].
  { rewrite shr_record_of_loc_m. exact Hm. }
  rewrite shr_record_of_loc_m in H1. cbn zeta. rewrite H1, H2.
  pose proof (Zdigits2_nonneg m) as Hd.
  pose proof (fexp_eq (Zdigits2 m + e)) as Hf.
  split; [apply Z.shiftr_nonneg, Hm|].
  split; [lia|]. split; [unfold n; lia|]. split; [unfold n; lia|].
  assert (Hcase : Z.max n 0 = 0 \/ (0 < n /\ Z.max n 0 = n)) by lia.
  destruct Hcase as [H0|[Hpos Hn]].
  - rewrite H0, Z.shiftr_0_r. split; [unfold n in H0; lia|].
    split; [lia|]. split; [lia|].
    intros _. unfold shr. destruct n; [reflexivity|lia|reflexivity].
  - rewrite Hn.
    destruct (Z_lt_le_dec n (Zdigits2 m)) as [Hlt|Hge].
    + assert (0 < m). { destruct m; cbn in *; lia. }
      rewrite Zdigits2_shiftr by lia.
      split; [unfold n; lia|]. split; [unfold n; lia|].
      split; [|unfold n in Hpos; lia].
      intros _ _.
      assert (Hdd : 0 < Zdigits2 (Z.shiftr m n)) by (rewrite Zdigits2_shiftr; lia).
      pose proof (proj2 (Z.shiftr_nonneg m n) Hm) as Hnn.
      destruct (Z.shiftr m n); [cbn in Hdd; lia | lia | lia].
    + rewrite Zdigits2_shiftr_0 by lia. cbn [Zdigits2].
      split; [lia|]. split; [unfold n in *; lia|].
      split; [|unfold n in Hpos; lia].
      intros Hmpos He. exfalso.
      pose proof (Zdigits2_pos m Hmpos). unfold n in *. lia.
Qed.


Lemma binary_round_aux_spec (s : bool) (mx ex : Z) (lx : location) :
  0 <= mx ->
  exists m e,
    binary_round_aux prec emax s mx ex lx = outc s m e /\
    0 <= m /\ Zdigits2 m <= prec /\ emin <= e /\ ex <= e /\
    Zdigits2 m + e <= Z.max (Zdigits2 mx + ex) emin + 1 /\
    (ex <= emax - prec -> Z.max (Zdigits2 mx + ex) emin + 1 <= emax ->
     e <= emax - prec) /\
    (0 < mx -> emin <= ex -> 0 < m) /\
    (lx = loc_Exact -> fexp (Zdigits2 mx + ex) = ex -> m = mx /\ e = ex).
Proof.
  intros Hmx. unfold binary_round_aux.
  pose proof (shr_fexp_spec mx ex lx Hmx) as H1. cbn zeta in H1.
  destruct (shr_fexp prec emax mx ex lx) as [mrs' e'] eqn:E1. cbn [fst snd] in H1.
  destruct H1 as (Hm' & Hee' & Hemin' & He' & Hd' & Hmag' & Hpos' & Hex').
  set (m1 := round_nearest_even (shr_m mrs') (loc_of_shr_record mrs')).
  assert (Hm1 : m1 = shr_m mrs' \/ m1 = shr_m mrs' + 1)
    by apply round_nearest_even_cases.
  assert (Hm1pos : 0 <= m1) by lia.
  pose proof (shr_fexp_spec m1 e' loc_Exact Hm1pos) as H2. cbn zeta in H2.
  destruct (shr_fexp prec emax m1 e' loc_Exact) as [mrs'' e''] eqn:E2.
  cbn [fst snd] in H2.
  destruct H2 as (Hm'' & Hee'' & Hemin'' & He'' & Hd'' & Hmag'' & Hpos'' & Hex'').
  exists (shr_m mrs''), e''.
  assert (Hd1 : Zdigits2 m1 <= Zdigits2 (shr_m mrs') + 1).
  { destruct Hm1 as [->| ->]; [lia|]. apply Zdigits2_succ, Hm'. }
  pose proof (fexp_eq (Zdigits2 m1 + e')) as Hf1.
  pose proof (fexp_eq (Zdigits2 mx + ex)) as Hf0.
  pose proof emin_eq as Hemin.
  split.
  { unfold outcome. destruct (shr_m mrs''); reflexivity. }
  split; [exact Hm''|]. split; [exact Hd''|]. split; [exact Hemin''|].
  split; [lia|]. split; [lia|]. split; [|split].
  - intros Hex Hk. lia.
  - intros Hmxpos Hemin0. apply Hpos''; [|exact Hemin'].
    specialize (Hpos' Hmxpos Hemin0). lia.
  - intros -> Hcan.
    assert (Hmrs : mrs' = shr_record_of_loc mx loc_Exact) by (apply Hex'; lia).
    assert (Hm1eq : m1 = mx) by (unfold m1; rewrite Hmrs; reflexivity).
    assert (Hee : e' = ex) by lia.
    assert (Hmrs'' : mrs'' = shr_record_of_loc m1 loc_Exact).
    { apply Hex''. rewrite Hm1eq, Hee. lia. }
    rewrite Hmrs''. cbn [shr_record_of_loc shr_m].
    split; [exact Hm1eq|]. rewrite Hm1eq, Hee in He''. lia.
Qed.

Lemma shl_align_spec (mx : positive) (ex ex' : Z) :
  Zpos (fst (shl_align mx ex ex')) = Zpos mx * 2 ^ (ex - Z.min ex ex') /\
  snd (shl_align mx ex ex') = Z.min ex ex'.
Proof.
  unfold shl_align. destruct (ex' - ex) as [|d|d] eqn:E; cbn [fst snd].
  - replace (Z.min ex ex') with ex by lia. rewrite Z.sub_diag, Z.pow_0_r. split; lia.
  - replace (Z.min ex ex') with ex by lia. rewrite Z.sub_diag, Z.pow_0_r. split; lia.
  - replace (Z.min ex ex') with ex' by lia. split; [|reflexivity].
    change (Pos.iter xO mx d) with (shift_pos d mx).
    rewrite shift_pos_correct. change (Z.pow_pos 2 d) with (2 ^ Zpos d).
    replace (ex - ex') with (Zpos d) by lia. ring.
Qed.

Lemma Zdigits2_mul_pow2 (a n : Z) :
  0 < a -> 0 <= n -> Zdigits2 (a * 2 ^ n) = Zdigits2 a + n.
Proof.
  intros Ha Hn. rewrite <- Z.shiftl_mul_pow2 by lia. apply Zdigits2_shiftl; lia.
Qed.

(** The outcome of [binary_round] on a positive mantissa: the value is kept
    when it fits ([shifted]), and the exponent is raised otherwise. *)
Lemma binary_round_spec (s : bool) (mx : positive) (ex : Z) :
  exists m e,
    binary_round prec emax s mx ex = outc s m e /\
    0 <= m /\ Zdigits2 m <= prec /\ emin <= e /\
    Zdigits2 m + e <= Z.max (Zdigits2 (Zpos mx) + ex) emin + 1 /\
    (ex <= emax - prec -> Z.max (Zdigits2 (Zpos mx) + ex) emin + 1 <= emax ->
     e <= emax - prec) /\
    (emin <= ex -> 0 < m) /\
    (ex <= e \/ (e < ex /\ m = Zpos mx * 2 ^ (ex - e))).
Proof.
  unfold binary_round.
  set (E := fexp (Zdigits2 (Zpos mx) + ex)).
  change (Zpos (digits2_pos mx)) with (Zdigits2 (Zpos mx)). fold E.
  destruct (shl_align_spec mx ex E) as [Hmz Hez].
  destruct (shl_align mx ex E) as [mz ez]. cbn [fst snd] in Hmz, Hez.
  pose proof (fexp_ge_emin (Zdigits2 (Zpos mx) + ex)) as HE. fold E in HE.
  assert (Hdz : Zdigits2 (Zpos mz) + ez = Zdigits2 (Zpos mx) + ex).
  { rewrite Hmz, Zdigits2_mul_pow2 by lia. lia. }
  destruct (binary_round_aux_spec s (Zpos mz) ez loc_Exact ltac:(lia))
    as (m & e & Hr & Hm & Hd & Hemin & Hle & Hmag & Hfin & Hpos & Hexact).
  exists m, e. rewrite Hdz in *.
  split; [exact Hr|]. split; [exact Hm|]. split; [exact Hd|].
  split; [exact Hemin|]. split; [exact Hmag|]. split; [|split].
  - intros Hex Hk. apply Hfin; lia.
  - intros Hex. apply Hpos; lia.
  - destruct (Z_lt_le_dec E ex) as [Hlt|Hge].
    + right. destruct Hexact as [-> ->]; [reflexivity|fold E; lia|].
      split; [lia|]. rewrite Hmz. f_equal. f_equal. lia.
    + left. lia.
Qed.

Lemma binary_normalize_spec (M ex : Z) :
  exists m e,
    binary_normalize prec emax M ex false = outc (M <? 0) m e /\
    0 <= m /\ Zdigits2 m <= prec /\ emin <= e /\
    (M = 0 -> m = 0) /\
    Zdigits2 m + e <= Z.max (Zdigits2 M + ex) emin + 1 /\
    (ex <= emax - prec -> Z.max (Zdigits2 M + ex) emin + 1 <= emax ->
     e <= emax - prec) /\
    (M <> 0 -> emin <= ex -> 0 < m) /\
    (ex <= e \/ (e < ex /\ m = Z.abs M * 2 ^ (ex - e))).
Proof.
  destruct M as [|p|p]; cbn [binary_normalize].
  - exists 0, (Z.max ex emin). cbn [outcome Zdigits2 Z.ltb Z.compare].
    pose proof emin_eq.
    split; [reflexivity|]. repeat split; lia.
  - destruct (binary_round_spec false p ex)
      as (m & e & Hr & Hm & Hd & Hemin & Hmag & Hfin & Hpos & Hsh).
    exists m, e. cbn [Z.ltb Z.compare Z.abs Zdigits2] in *.
    split; [exact Hr|]. repeat split; try assumption; lia.
  - destruct (binary_round_spec true p ex)
      as (m & e & Hr & Hm & Hd & Hemin & Hmag & Hfin & Hpos & Hsh).
    exists m, e. cbn [Z.ltb Z.compare Z.abs Zdigits2] in *.
    split; [exact Hr|]. repeat split; try assumption; lia.
Qed.

(** ** Shapes of floats *)


Lemma fin_leb_finite (k : Z) (s : bool) (m : positive) (e : Z) :
  finb k (S754_finite s m e) = true <->
  Zdigits2 (Zpos m) <= prec /\ emin <= e /\ e <= emax - prec /\ Zdigits2 (Zpos m) + e <= k.
Proof. cbn [fin_leb]. rewrite !andb_true_iff, !Z.leb_le. tauto. Qed.

Lemma fin_leb_mono (k k' : Z) (x : spec_float) :
  k <= k' -> finb k x = true -> finb k' x = true.
Proof.
  intros Hk. destruct x as [s|s| |s m e]; try (intros; assumption).
  rewrite !fin_leb_finite. lia.
Qed.

Lemma outcome_fin (k : Z) (s : bool) (m e : Z) :
  0 <= m -> Zdigits2 m <= prec -> emin <= e -> e <= emax - prec ->
  Zdigits2 m + e <= k ->
  finb k (outc s m e) = true /\
  (0 < m -> outc s m e = S754_finite s (Z.to_pos m) e).
Proof.
  intros Hm Hd He Hfin Hk. unfold outcome. destruct m as [|p|p]; [|  |lia].
  - split; [reflexivity|lia].
  - assert (Hle : (e <=? emax - prec) = true) by (apply Z.leb_le; assumption).
    rewrite Hle. split; [apply fin_leb_finite; cbn [Zdigits2] in *; lia|].
    intros _. reflexivity.
Qed.

Lemma outcome_not_nan (s : bool) (m e : Z) : 0 <= m -> outc s m e <> S754_nan.
Proof.
  intros Hm. unfold outcome. destruct m as [|p|p]; [discriminate| |lia].
  destruct (e <=? emax - prec); discriminate.
Qed.

Lemma Zdigits2_abs (M : Z) : Zdigits2 (Z.abs M) = Zdigits2 M.
Proof. destruct M; reflexivity. Qed.

(** ** Addition and subtraction of finite floats *)


Lemma SFadd_finite (sx : bool) (mx : positive) (ex : Z) (sy : bool) (my : positive) (ey : Z) :
  SFadd prec emax (S754_finite sx mx ex) (S754_finite sy my ey) =
  binary_normalize prec emax
    (aligned sx mx ex (Z.min ex ey) + aligned sy my ey (Z.min ex ey)) (Z.min ex ey) false.
Proof.
  cbn [SFadd]. unfold aligned.
  destruct (shl_align_spec mx ex (Z.min ex ey)) as [-> _].
  destruct (shl_align_spec my ey (Z.min ex ey)) as [-> _].
  replace (Z.min ex (Z.min ex ey)) with (Z.min ex ey) by lia.
  replace (Z.min ey (Z.min ex ey)) with (Z.min ex ey) by lia.
  reflexivity.
Qed.

Lemma SFsub_finite (sx : bool) (mx : positive) (ex : Z) (sy : bool) (my : positive) (ey : Z) :
  SFsub prec emax (S754_finite sx mx ex) (S754_finite sy my ey) =
  binary_normalize prec emax
    (aligned sx mx ex (Z.min ex ey) - aligned sy my ey (Z.min ex ey)) (Z.min ex ey) false.
Proof.
  cbn [SFsub]. unfold aligned.
  destruct (shl_align_spec mx ex (Z.min ex ey)) as [-> _].
  destruct (shl_align_spec my ey (Z.min ex ey)) as [-> _].
  replace (Z.min ex (Z.min ex ey)) with (Z.min ex ey) by lia.
  replace (Z.min ey (Z.min ex ey)) with (Z.min ex ey) by lia.
  reflexivity.
Qed.

Lemma aligned_digits (s : bool) (m : positive) (e ez : Z) :
  ez <= e -> Zdigits2 (aligned s m e ez) + ez = Zdigits2 (Zpos m) + e.
Proof.
  intros H. unfold aligned.
  assert (Hd : Zdigits2 (Zpos m * 2 ^ (e - ez)) = Zdigits2 (Zpos m) + (e - ez))
    by (apply Zdigits2_mul_pow2; lia).
  destruct s; cbn [cond_Zopp].
  - rewrite <- Zdigits2_abs, Z.abs_opp, Zdigits2_abs. lia.
  - lia.
Qed.

Lemma aligned_abs (s : bool) (m : positive) (e ez : Z) :
  Z.abs (aligned s m e ez) = Zpos m * 2 ^ (e - ez).
Proof.
  unfold aligned.
  assert (0 <= 2 ^ (e - ez)) by (apply Z.pow_nonneg; lia).
  destruct s; cbn [cond_Zopp]; [rewrite Z.abs_opp|]; apply Z.abs_eq; nia.
Qed.

Lemma Zdigits2_sum (a b : Z) :
  Zdigits2 (a + b) <= Z.max (Zdigits2 a) (Zdigits2 b) + 1 /\
  Zdigits2 (a - b) <= Z.max (Zdigits2 a) (Zdigits2 b) + 1.
Proof.
  pose proof (Zdigits2_add (Z.abs a) (Z.abs b) ltac:(lia) ltac:(lia)) as H.
  rewrite !Zdigits2_abs in H.
  split.
  - rewrite <- (Zdigits2_abs (a + b)).
    eapply Z.le_trans; [|exact H]. apply Zdigits2_le. lia.
  - rewrite <- (Zdigits2_abs (a - b)).
    eapply Z.le_trans; [|exact H]. apply Zdigits2_le. lia.
Qed.

Lemma binary_normalize_not_nan (M e : Z) :
  binary_normalize prec emax M e false <> S754_nan.
Proof.
  destruct (binary_normalize_spec M e) as (m & e' & -> & Hm & _).
  apply outcome_not_nan, Hm.
Qed.

Lemma binary_normalize_fin (k : Z) (M ez : Z) :
  emin <= ez -> ez <= emax - prec -> emin <= k -> k + 1 <= emax ->
  Zdigits2 M + ez <= k ->
  finb (k + 1) (binary_normalize prec emax M ez false) = true /\
  (0 < M -> is_pos (binary_normalize prec emax M ez false) = true).
Proof.
  intros He1 He2 Hk1 Hk2 Hmag.
  destruct (binary_normalize_spec M ez)
    as (m & e & -> & Hm & Hd & Hemin & H0 & Hmag' & Hfin & Hpos & _).
  assert (Hefin : e <= emax - prec) by (apply Hfin; lia).
  destruct (outcome_fin (k + 1) (M <? 0) m e Hm Hd Hemin Hefin ltac:(lia)) as [Hfl Hout].
  split; [exact Hfl|].
  intros HM. rewrite Hout by (apply Hpos; lia).
  assert (HMn : (M <? 0) = false) by (apply Z.ltb_ge; lia).
  rewrite HMn. reflexivity.
Qed.

Lemma fin_leb_emin_le (k : Z) (s : bool) (m : positive) (e : Z) :
  finb k (S754_finite s m e) = true -> emin < k.
Proof.
  rewrite fin_leb_finite. intros (Hd & He & _ & Hk).
  pose proof (Zdigits2_pos (Zpos m) ltac:(lia)). lia.
Qed.

Lemma SFadd_fin (kx ky : Z) (x y : spec_float) :
  finb kx x = true -> finb ky y = true -> Z.max kx ky + 2 <= emax ->
  finb (Z.max kx ky + 2) (SFadd prec emax x y) = true.
Proof.
  intros Hx Hy Hk.
  destruct x as [sx|sx| |sx mx ex]; try discriminate;
    destruct y as [sy|sy| |sy my ey]; try discriminate.
  - cbn. destruct sx, sy; reflexivity.
  - cbn [SFadd]. eapply fin_leb_mono; [|exact Hy]. lia.
  - cbn [SFadd]. eapply fin_leb_mono; [|exact Hx]. lia.
  - rewrite SFadd_finite.
    pose proof (fin_leb_emin_le _ _ _ _ Hx). pose proof (fin_leb_emin_le _ _ _ _ Hy).
    apply fin_leb_finite in Hx, Hy.
    destruct Hx as (Hdx & Hex1 & Hex2 & Hkx), Hy as (Hdy & Hey1 & Hey2 & Hky).
    pose proof (aligned_digits sx mx ex (Z.min ex ey) ltac:(lia)) as Hax.
    pose proof (aligned_digits sy my ey (Z.min ex ey) ltac:(lia)) as Hay.
    pose proof (Zdigits2_sum (aligned sx mx ex (Z.min ex ey))
                             (aligned sy my ey (Z.min ex ey))) as [Hs _].
    replace (Z.max kx ky + 2) with ((Z.max kx ky + 1) + 1) by lia.
    apply binary_normalize_fin; lia.
Qed.

Lemma SFsub_fin (kx ky : Z) (x y : spec_float) :
  finb kx x = true -> finb ky y = true -> Z.max kx ky + 2 <= emax ->
  finb (Z.max kx ky + 2) (SFsub prec emax x y) = true.
Proof.
  intros Hx Hy Hk.
  destruct x as [sx|sx| |sx mx ex]; try discriminate;
    destruct y as [sy|sy| |sy my ey]; try discriminate.
  - cbn. destruct sx, sy; reflexivity.
  - cbn [SFsub]. eapply fin_leb_mono; [|exact Hy]. lia.
  - cbn [SFsub]. eapply fin_leb_mono; [|exact Hx]. lia.
  - rewrite SFsub_finite.
    pose proof (fin_leb_emin_le _ _ _ _ Hx). pose proof (fin_leb_emin_le _ _ _ _ Hy).
    apply fin_leb_finite in Hx, Hy.
    destruct Hx as (Hdx & Hex1 & Hex2 & Hkx), Hy as (Hdy & Hey1 & Hey2 & Hky).
    pose proof (aligned_digits sx mx ex (Z.min ex ey) ltac:(lia)) as Hax.
    pose proof (aligned_digits sy my ey (Z.min ex ey) ltac:(lia)) as Hay.
    pose proof (Zdigits2_sum (aligned sx mx ex (Z.min ex ey))
                             (aligned sy my ey (Z.min ex ey))) as [_ Hs].
    replace (Z.max kx ky + 2) with ((Z.max kx ky + 1) + 1) by lia.
    apply binary_normalize_fin; lia.
Qed.

Lemma aligned_pos (m : positive) (e ez : Z) : ez <= e -> 0 < aligned false m e ez.
Proof.
  intros H. unfold aligned. cbn [cond_Zopp].
  apply Z.mul_pos_pos; [lia|]. apply Z.pow_pos_nonneg; lia.
Qed.

(** A sum of a float that is not negative and a positive one is positive. *)
Lemma SFadd_pos (kx ky : Z) (x y : spec_float) :
  finb kx x = true -> finb ky y = true -> Z.max kx ky + 2 <= emax ->
  is_nonneg x = true -> is_pos y = true ->
  is_pos (SFadd prec emax x y) = true.
Proof.
  intros Hx Hy Hk Hnx Hpy.
  destruct y as [sy|sy| |[] my ey]; try discriminate.
  destruct x as [sx|sx| |[] mx ex]; try discriminate.
  - reflexivity.
  - rewrite SFadd_finite.
    pose proof (fin_leb_emin_le _ _ _ _ Hx). pose proof (fin_leb_emin_le _ _ _ _ Hy).
    apply fin_leb_finite in Hx, Hy.
    destruct Hx as (Hdx & Hex1 & Hex2 & Hkx), Hy as (Hdy & Hey1 & Hey2 & Hky).
    pose proof (aligned_digits false mx ex (Z.min ex ey) ltac:(lia)) as Hax.
    pose proof (aligned_digits false my ey (Z.min ex ey) ltac:(lia)) as Hay.
    pose proof (Zdigits2_sum (aligned false mx ex (Z.min ex ey))
                             (aligned false my ey (Z.min ex ey))) as [Hs _].
    pose proof (aligned_pos mx ex (Z.min ex ey) ltac:(lia)).
    pose proof (aligned_pos my ey (Z.min ex ey) ltac:(lia)).
    apply (binary_normalize_fin (Z.max kx ky + 1)); lia.
Qed.

Lemma SFadd_nonneg (x y : spec_float) :
  is_nonneg x = true -> is_nonneg y = true ->
  SFadd prec emax x y <> S754_nan /\
  (forall m e, SFadd prec emax x y <> S754_finite true m e).
Proof.
  intros Hx Hy.
  destruct x as [sx|sx| |[] mx ex]; try discriminate;
    destruct y as [sy|sy| |[] my ey]; try discriminate.
  - cbn. destruct sx, sy; split; discriminate.
  - cbn. split; discriminate.
  - cbn. split; discriminate.
  - rewrite SFadd_finite.
    destruct (binary_normalize_spec
                (aligned false mx ex (Z.min ex ey) + aligned false my ey (Z.min ex ey))
                (Z.min ex ey)) as (m & e & -> & Hm & _).
    pose proof (aligned_pos mx ex (Z.min ex ey) ltac:(lia)).
    pose proof (aligned_pos my ey (Z.min ex ey) ltac:(lia)).
    match goal with |- context [?a <? 0] =>
      assert (HMn : (a <? 0) = false) by (apply Z.ltb_ge; lia); rewrite HMn end.
    split; [apply outcome_not_nan, Hm|].
    intros m' e'. unfold outcome. destruct m; try discriminate.
    destruct (e <=? emax - prec); discriminate.
Qed.

(** ** Multiplication *)

Lemma SFmul_fin (kx ky : Z) (x y : spec_float) :
  finb kx x = true -> finb ky y = true ->
  kx + ky - 2 <= emax - prec -> kx + ky + 1 <= emax ->
  finb (Z.max (kx + ky) emin + 1) (SFmul prec emax x y) = true.
Proof.
  intros Hx Hy Hk1 Hk2.
  destruct x as [sx|sx| |sx mx ex]; try discriminate;
    destruct y as [sy|sy| |sy my ey]; try discriminate; try reflexivity.
  cbn [SFmul].
  pose proof (fin_leb_emin_le _ _ _ _ Hx). pose proof (fin_leb_emin_le _ _ _ _ Hy).
  apply fin_leb_finite in Hx, Hy.
  destruct Hx as (Hdx & Hex1 & Hex2 & Hkx), Hy as (Hdy & Hey1 & Hey2 & Hky).
  destruct (binary_round_aux_spec (xorb sx sy) (Zpos (mx * my)) (ex + ey) loc_Exact
              ltac:(lia))
    as (m & e & -> & Hm & Hd & Hemin & Hle & Hmag & Hfin & _).
  pose proof (Zdigits2_mul (Zpos mx) (Zpos my) ltac:(lia) ltac:(lia)) as Hdm.
  rewrite <- Pos2Z.inj_mul in Hdm.
  pose proof (Zdigits2_pos (Zpos mx) ltac:(lia)).
  pose proof (Zdigits2_pos (Zpos my) ltac:(lia)).
  pose proof emin_eq.
  apply outcome_fin; try assumption; lia.
Qed.

(** ** What cannot be NaN *)

Lemma binary_round_aux_not_nan (s : bool) (m e : Z) (l : location) :
  0 <= m -> binary_round_aux prec emax s m e l <> S754_nan.
Proof.
  intros Hm.
  destruct (binary_round_aux_spec s m e l Hm) as (m' & e' & -> & Hm' & _).
  apply outcome_not_nan, Hm'.
Qed.

Lemma SFdiv_core_nonneg (m1 : positive) (e1 : Z) (m2 : positive) (e2 : Z) :
  0 <= fst (fst (SFdiv_core_binary prec emax (Zpos m1) e1 (Zpos m2) e2)).
Proof.
  unfold SFdiv_core_binary.
  set (s := _ - _ - _).
  set (m' := match s with Zpos _ => Z.shiftl (Zpos m1) s | Z0 => Zpos m1 | Zneg _ => 0 end).
  assert (Hm' : 0 <= m').
  { unfold m'. destruct s; [lia| |lia]. apply Z.shiftl_nonneg. lia. }
  pose proof (Z_div_mod m' (Zpos m2) ltac:(lia)) as Hdm.
  destruct (Z.div_eucl m' (Zpos m2)) as [q r]. cbn [fst].
  destruct Hdm as [Heq Hr]. nia.
Qed.

(** Dividing by a finite float that is not zero gives NaN only from NaN. *)
Lemma SFdiv_finite_r_not_nan (x : spec_float) (sy : bool) (my : positive) (ey : Z) :
  x <> S754_nan -> SFdiv prec emax x (S754_finite sy my ey) <> S754_nan.
Proof.
  intros Hx. destruct x as [sx|sx| |sx mx ex]; try discriminate; [congruence|].
  cbn [SFdiv].
  pose proof (SFdiv_core_nonneg mx ex my ey) as Hq.
  destruct (SFdiv_core_binary prec emax (Zpos mx) ex (Zpos my) ey) as [[mz ez] lz].
  cbn [fst] in Hq. apply binary_round_aux_not_nan, Hq.
Qed.

Lemma SFsub_finite_r_not_nan (x : spec_float) (sy : bool) (my : positive) (ey : Z) :
  x <> S754_nan -> SFsub prec emax x (S754_finite sy my ey) <> S754_nan.
Proof.
  intros Hx. destruct x as [sx|sx| |sx mx ex]; try discriminate; [congruence|].
  rewrite SFsub_finite. apply binary_normalize_not_nan.
Qed.

Lemma SFmul_fin_not_nan (kx ky : Z) (x y : spec_float) :
  finb kx x = true -> finb ky y = true -> SFmul prec emax x y <> S754_nan.
Proof.
  intros Hx Hy.
  destruct x as [sx|sx| |sx mx ex]; try discriminate;
    destruct y as [sy|sy| |sy my ey]; try discriminate.
  cbn [SFmul]. apply binary_round_aux_not_nan. lia.
Qed.

Lemma fin_leb_not_nan (k : Z) (x : spec_float) : finb k x = true -> x <> S754_nan.
Proof. destruct x; discriminate. Qed.

(** ** Results are well formed *)


Lemma wfb_finite (s : bool) (m : positive) (e : Z) :
  wf (S754_finite s m e) = true <->
  Zdigits2 (Zpos m) <= prec /\ emin <= e /\ e <= emax - prec.
Proof. cbn [wfb]. rewrite !andb_true_iff, !Z.leb_le. tauto. Qed.

Lemma outcome_wf (s : bool) (m e : Z) :
  0 <= m -> Zdigits2 m <= prec -> emin <= e -> wf (outc s m e) = true.
Proof.
  intros Hm Hd He. unfold outcome. destruct m as [|p|p]; [reflexivity| |lia].
  destruct (e <=? emax - prec) eqn:E; [|reflexivity].
  apply wfb_finite. apply Z.leb_le in E. lia.
Qed.

Lemma binary_round_aux_wf (s : bool) (m e : Z) (l : location) :
  0 <= m -> wf (binary_round_aux prec emax s m e l) = true.
Proof.
  intros Hm.
  destruct (binary_round_aux_spec s m e l Hm) as (m' & e' & -> & Hm' & Hd & He & _).
  apply outcome_wf; assumption.
Qed.

Lemma SFmul_wf (x y : spec_float) : wf (SFmul prec emax x y) = true.
Proof.
  destruct x as [sx|sx| |sx mx ex], y as [sy|sy| |sy my ey]; try reflexivity.
  cbn [SFmul]. apply binary_round_aux_wf. lia.
Qed.

Lemma SFdiv_wf (x y : spec_float) : wf (SFdiv prec emax x y) = true.
Proof.
  destruct x as [sx|sx| |sx mx ex], y as [sy|sy| |sy my ey]; try reflexivity.
  cbn [SFdiv].
  pose proof (SFdiv_core_nonneg mx ex my ey) as Hq.
  destruct (SFdiv_core_binary prec emax (Zpos mx) ex (Zpos my) ey) as [[mz ez] lz].
  cbn [fst] in Hq. apply binary_round_aux_wf, Hq.
Qed.

Lemma SFmul_finite_not_nan (x y : spec_float) :
  is_nonneg x = true -> is_nonneg y = true -> SFmul prec emax x y <> S754_nan.
Proof.
  intros Hx Hy.
  destruct x as [sx|sx| |sx mx ex]; try discriminate;
    destruct y as [sy|sy| |sy my ey]; try discriminate; try (cbn; discriminate).
  cbn [SFmul]. apply binary_round_aux_not_nan. lia.
Qed.
End Rounding.

(** ** binary32 *)

Lemma p32_pos : 0 < 24. Proof. lia. Qed.
Lemma e32_ge : 2 <= 128. Proof. lia. Qed.

Lemma SFltb_leb (a b : spec_float) : SFltb a b = true -> SFleb a b = true.
Proof. unfold SFltb, SFleb. destruct (SFcompare a b) as [[]|]; congruence. Qed.

Lemma SFleb_not_nan_l (a b : spec_float) : SFleb a b = true -> SFisnan a = false.
Proof. destruct a; try reflexivity. discriminate. Qed.

(** A channel value in [0, 1] is well formed, not negative, and below 2. *)
Lemma unit32_shape (x : f32) :
  unit32 x = true ->
  fin_leb 24 128 1 (f32_val x) = true /\ is_nonneg (f32_val x) = true.
Proof.
  unfold unit32. rewrite !andb_true_iff. intros [[Hv H0] H1].
  destruct x as [x]. cbn [f32_val] in *.
  change (SFleb (S754_zero false) x = true) in H0.
  change (SFleb x one32 = true) in H1.
  destruct x as [s|s| |s m e].
  - split; reflexivity.
  - destruct s; discriminate.
  - discriminate.
  - destruct s; [discriminate|]. split; [|reflexivity].
    cbn [valid_binary] in Hv. unfold bounded, canonical_mantissa in Hv.
    apply andb_true_iff in Hv. destruct Hv as [Hc He].
    apply Z.eqb_eq in Hc. apply Z.leb_le in He.
    change (Zpos (digits2_pos m)) with (Zdigits2 (Zpos m)) in Hc.
    rewrite fexp_eq, emin_eq in Hc.
    unfold SFleb, one32 in H1. cbn [SFcompare] in H1.
    apply fin_leb_finite. rewrite emin_eq.
    unfold B32.prec, B32.emax in *.
    destruct (Z.compare_spec e (-23)) as [Heq|Hlt|Hgt]; [| |discriminate]; lia.
Qed.

Lemma pow2_ge_2 (n : Z) : 1 <= n -> exists q, 0 < q /\ 2 ^ n = 2 * q.
Proof.
  intros Hn. exists (2 ^ (n - 1)). split; [apply Z.pow_pos_nonneg; lia|].
  rewrite <- Z.pow_succ_r by lia. f_equal. lia.
Qed.

Lemma outcome_finite_inv (prec emax : Z) (s : bool) (m e : Z) (s' : bool)
    (m' : positive) (e' : Z) :
  outcome prec emax s m e = S754_finite s' m' e' -> s = s' /\ m = Zpos m' /\ e = e'.
Proof.
  unfold outcome. destruct m as [|p|p]; try discriminate.
  destruct (e <=? emax - prec); [|discriminate].
  intros [= -> -> ->]. auto.
Qed.

(** [t + 1.0] is never [- EPS]: the sum is a multiple of [2 ^ -23] when
    [t] is coarse, and positive when [t] is fine. *)
Lemma add_one_ne_neg_eps (k : Z) (t : spec_float) :
  fin_leb 24 128 k t = true ->
  SFadd 24 128 t one32 <> S754_finite true 8796093 (-43).
Proof.
  intros Ht. destruct t as [s|s| |s m e]; try discriminate.
  unfold one32. rewrite SFadd_finite.
  apply fin_leb_finite in Ht. destruct Ht as (Hd & He1 & He2 & _).
  set (ez := Z.min e (-23)).
  set (M := aligned s m e ez + aligned false 8388608 (-23) ez).
  destruct (binary_normalize_spec 24 128 p32_pos e32_ge M ez)
    as (m' & e' & -> & Hm' & _ & _ & _ & _ & _ & _ & Hsh).
  intros Hout. apply outcome_finite_inv in Hout. destruct Hout as (Hs & -> & ->).
  apply Z.ltb_lt in Hs.
  destruct (Z_lt_le_dec e (-23)) as [Hlt|Hge].
  + (* fine [t]: the sum is positive *)
    assert (Hez : ez = e) by (unfold ez; lia).
    pose proof (Zdigits2_lt_pow2 (Zpos m) 24 ltac:(lia) ltac:(lia) Hd) as Hm.
    change (2 ^ 24) with 16777216 in Hm.
    destruct (pow2_ge_2 (-23 - e) ltac:(lia)) as (q & Hq & Hpow).
    unfold M, aligned in Hs. rewrite Hez, Z.sub_diag, Z.pow_0_r, Hpow in Hs.
    destruct s; cbn [cond_Zopp] in Hs; lia.
  + (* coarse [t]: the sum is a multiple of 2 ^ -23 *)
    assert (Hez : ez = -23) by (unfold ez; lia).
    destruct Hsh as [Hle|[_ Hm]]; [lia|].
    rewrite Hez in Hm. change (2 ^ (-23 - -43)) with 1048576 in Hm. lia.
Qed.

(** Adding [EPS] to a finite float other than [- EPS] gives a finite float
    that is not zero. *)
Lemma add_eps_finite (k : Z) (t : spec_float) :
  fin_leb 24 128 k t = true -> k <= 100 ->
  t <> S754_finite true 8796093 (-43) ->
  exists s m e, SFadd 24 128 t eps32 = S754_finite s m e.
Proof.
  intros Ht Hk Hne. destruct t as [s|s| |s m e]; try discriminate.
  - unfold eps32. cbn [SFadd]. eauto.
  - unfold eps32. rewrite SFadd_finite.
    apply fin_leb_finite in Ht. rewrite emin_eq in Ht.
    destruct Ht as (Hd & He1 & He2 & Hmag).
    set (ez := Z.min e (-43)).
    set (M := aligned s m e ez + aligned false 8796093 (-43) ez).
    pose proof (aligned_digits s m e ez ltac:(unfold ez; lia)) as Ha1.
    pose proof (aligned_digits false 8796093 (-43) ez ltac:(unfold ez; lia)) as Ha2.
    change (Zdigits2 (Zpos 8796093)) with 24 in Ha2.
    pose proof (Zdigits2_sum (aligned s m e ez) (aligned false 8796093 (-43) ez)) as [Hs _].
    fold M in Hs.
    destruct (binary_normalize_spec 24 128 p32_pos e32_ge M ez)
      as (m' & e' & -> & Hm' & Hd' & Hemin' & _ & Hmag' & Hfin & Hpos & _).
    rewrite emin_eq in *.
    assert (HM : M <> 0).
    { intros HM0. apply Hne.
      pose proof (Zdigits2_lt_pow2 (Zpos m) 24 ltac:(lia) ltac:(lia) Hd) as Hm.
      change (2 ^ 24) with 16777216 in Hm.
      unfold M, aligned in HM0.
      destruct (Z.lt_trichotomy e (-43)) as [Hlt|[Heq|Hgt]].
      - exfalso. assert (Hez : ez = e) by (unfold ez; lia).
        rewrite Hez, Z.sub_diag, Z.pow_0_r in HM0.
        destruct (pow2_ge_2 (-43 - e) ltac:(lia)) as (q & Hq & Hpow).
        rewrite Hpow in HM0. destruct s; cbn [cond_Zopp] in HM0; lia.
      - subst e. assert (Hez : ez = -43) by (unfold ez; lia).
        rewrite Hez, Z.sub_diag, Z.pow_0_r in HM0.
        destruct s; cbn [cond_Zopp] in HM0; [|lia].
        f_equal. lia.
      - exfalso. assert (Hez : ez = -43) by (unfold ez; lia).
        rewrite Hez, Z.sub_diag, Z.pow_0_r in HM0.
        destruct (pow2_ge_2 (e - -43) ltac:(lia)) as (q & Hq & Hpow).
        rewrite Hpow in HM0. destruct s; cbn [cond_Zopp] in HM0; lia. }
    assert (Hm0 : 0 < m') by (apply Hpos; [exact HM|unfold ez; lia]).
    assert (Hefin : e' <= 128 - 24) by (apply Hfin; unfold ez; lia).
    destruct (outcome_fin 24 128 128 (M <? 0) m' e' Hm' Hd' ltac:(rewrite emin_eq; lia)
                Hefin ltac:(lia)) as [_ Hout].
    rewrite (Hout Hm0). eauto.
Qed.

(** [1.0 - c] is positive when [0 <= c <= 0.99]. *)
Lemma one_minus_pos (c : spec_float) :
  wfb 24 128 c = true -> SFleb (S754_zero false) c = true -> SFleb c c99_32 = true ->
  fin_leb 24 128 3 (SFsub 24 128 one32 c) = true /\
  is_pos (SFsub 24 128 one32 c) = true.
Proof.
  intros Hw H0 H1. destruct c as [s|s| |s m e].
  - split; reflexivity.
  - destruct s; discriminate.
  - discriminate.
  - destruct s; [discriminate|].
    apply wfb_finite in Hw. rewrite emin_eq in Hw. destruct Hw as (Hd & He1 & He2).
    unfold SFleb, c99_32 in H1. cbn [SFcompare] in H1.
    assert (He : e <= -24).
    { destruct (Z.compare_spec e (-24)); [lia|lia|discriminate]. }
    unfold one32. rewrite SFsub_finite.
    set (ez := Z.min (-23) e). assert (Hez : ez = e) by (unfold ez; lia).
    set (M := aligned false 8388608 (-23) ez - aligned false m e ez).
    pose proof (aligned_digits false 8388608 (-23) ez ltac:(lia)) as Ha1.
    pose proof (aligned_digits false m e ez ltac:(lia)) as Ha2.
    change (Zdigits2 (Zpos 8388608)) with 24 in Ha1.
    pose proof (Zdigits2_sum (aligned false 8388608 (-23) ez) (aligned false m e ez)) as [_ Hs].
    fold M in Hs.
    assert (HM : 0 < M).
    { pose proof (Zdigits2_lt_pow2 (Zpos m) 24 ltac:(lia) ltac:(lia) Hd) as Hm.
      change (2 ^ 24) with 16777216 in Hm.
      unfold M, aligned. rewrite Hez, Z.sub_diag, Z.pow_0_r. cbn [cond_Zopp].
      destruct (pow2_ge_2 (-23 - e) ltac:(lia)) as (q & Hq & Hpow).
      rewrite Hpow. lia. }
    destruct (binary_normalize_fin 24 128 p32_pos e32_ge 2 M ez) as [Hf Hp];
      try (rewrite ?emin_eq; lia).
    split; [exact Hf|]. apply Hp, HM.
Qed.

(** ** Clipping in binary32 *)

Lemma SFisnan_false (x : spec_float) : x <> S754_nan -> SFisnan x = false.
Proof. destruct x; try reflexivity. congruence. Qed.

Lemma clip32_cases (x lo hi : f32) :
  isnan x = false -> isnan lo = false -> ltb lo hi = true ->
  (clip x lo hi = x /\ ltb lo x = true /\ ltb x hi = true) \/
  clip x lo hi = lo \/ clip x lo hi = hi.
Proof.
  intros Hx Hlo Hlh. unfold clip, npy_max, npy_min. rewrite Hx.
  destruct (ltb lo x) eqn:E1.
  - rewrite Hx. destruct (ltb x hi) eqn:E2; auto.
  - rewrite Hlo, Hlh. auto.
Qed.

Lemma between_finite32 (x lo hi : f32) :
  ltb lo x = true -> ltb x hi = true -> finite32 x = true.
Proof.
  destruct x as [x], lo as [lo], hi as [hi]. cbn [ltb f32_arith f32_val].
  unfold finite32, SFltb. cbn [f32_val].
  intros H1 H2. destruct x as [s|[]| |s m e]; try reflexivity.
  - destruct lo as [?|[]| |[]]; discriminate.
  - destruct hi as [?|[]| |[]]; discriminate.
  - destruct lo; discriminate.
Qed.

Lemma ltb32_leb (a b : f32) : ltb a b = true -> leb a b = true.
Proof. apply SFltb_leb. Qed.

Lemma within32_clip (lo hi : f64) (x : f32) :
  isnan x = false ->
  within32 lo hi (cast lo) = true -> within32 lo hi (cast hi) = true ->
  ltb (cast lo : f32) (cast hi) = true ->
  within32 lo hi (clip x (cast lo) (cast hi)) = true.
Proof.
  intros Hx Hlo Hhi Hlh.
  assert (Hnl : isnan (cast lo : f32) = false).
  { unfold within32 in Hlo. rewrite !andb_true_iff in Hlo.
    destruct Hlo as [[_ H] _]. apply SFleb_not_nan_l in H. exact H. }
  destruct (clip32_cases x (cast lo) (cast hi) Hx Hnl Hlh) as [(-> & H1 & H2)|[->| ->]];
    [|assumption|assumption].
  unfold within32. rewrite (between_finite32 _ _ _ H1 H2).
  rewrite (ltb32_leb _ _ H1), (ltb32_leb _ _ H2). reflexivity.
Qed.

Lemma within32_shape (lo hi : f64) (x : f32) :
  within32 lo hi x = true ->
  finite32 x = true /\ leb (cast lo) x = true /\ leb x (cast hi) = true.
Proof. unfold within32. rewrite !andb_true_iff. tauto. Qed.

(** ** The six indices of one pixel *)


Lemma unit_pixel_shape (R G B : f32) :
  unit_pixel (R, G, B) = true ->
  (fin_leb 24 128 1 (f32_val R) = true /\ is_nonneg (f32_val R) = true) /\
  (fin_leb 24 128 1 (f32_val G) = true /\ is_nonneg (f32_val G) = true) /\
  (fin_leb 24 128 1 (f32_val B) = true /\ is_nonneg (f32_val B) = true).
Proof.
  unfold unit_pixel. rewrite !andb_true_iff. intros [[HR HG] HB].
  auto using unit32_shape.
Qed.

Lemma is_nonneg_of_sum (k : Z) (x : spec_float) :
  fin_leb 24 128 k x = true -> (forall m e, x <> S754_finite true m e) ->
  is_nonneg x = true.
Proof.
  destruct x as [s|s| |[] m e]; try discriminate; try reflexivity.
  intros _ H. exfalso. apply (H m e). reflexivity.
Qed.

(** [x + y + EPS] is a positive finite float when [x], [y] are channel
    values. *)
Lemma sum_plus_eps_pos (x y : spec_float) :
  fin_leb 24 128 1 x = true -> is_nonneg x = true ->
  fin_leb 24 128 1 y = true -> is_nonneg y = true ->
  fin_leb 24 128 5 (SFadd 24 128 (SFadd 24 128 x y) eps32) = true /\
  is_pos (SFadd 24 128 (SFadd 24 128 x y) eps32) = true.
Proof.
  intros Hx Hnx Hy Hny.
  pose proof (SFadd_fin 24 128 p32_pos e32_ge 1 1 x y Hx Hy ltac:(lia)) as Hs.
  pose proof (SFadd_nonneg 24 128 p32_pos e32_ge x y Hnx Hny) as [_ Hnn].
  pose proof (is_nonneg_of_sum _ _ Hs Hnn) as Hsn.
  assert (He : fin_leb 24 128 (-19) eps32 = true) by reflexivity.
  split.
  - exact (SFadd_fin 24 128 p32_pos e32_ge _ _ _ _ Hs He ltac:(lia)).
  - exact (SFadd_pos 24 128 p32_pos e32_ge _ _ _ _ Hs He ltac:(lia) Hsn eq_refl).
Qed.

Lemma div_by_pos_not_nan (x y : spec_float) :
  x <> S754_nan -> is_pos y = true -> SFdiv 24 128 x y <> S754_nan.
Proof.
  intros Hx Hy. destruct y as [s|s| |[] m e]; try discriminate.
  apply SFdiv_finite_r_not_nan; [exact p32_pos|exact e32_ge|exact Hx].
Qed.

Lemma vndvi32_not_nan (R G B : f32) :
  unit_pixel (R, G, B) = true -> isnan (vndvi E64 (R, G, B)) = false.
Proof.
  intros Hpx. destruct (unit_pixel_shape R G B Hpx) as ((HR & HnR) & (HG & HnG) & _).
  unfold vndvi. cbn [isnan add sub div f32_arith f32_val].
  apply SFisnan_false.
  change (f32_val (cast E64)) with eps32.
  destruct (sum_plus_eps_pos _ _ HG HnG HR HnR) as [_ Hp].
  apply div_by_pos_not_nan; [|exact Hp].
  apply (fin_leb_not_nan 24 128 3).
  exact (SFsub_fin 24 128 p32_pos e32_ge 1 1 _ _ HG HR ltac:(lia)).
Qed.

Lemma ndwi32_not_nan (R G B : f32) :
  unit_pixel (R, G, B) = true -> isnan (ndwi E64 (R, G, B)) = false.
Proof.
  intros Hpx. destruct (unit_pixel_shape R G B Hpx) as (_ & (HG & HnG) & (HB & HnB)).
  unfold ndwi. cbn [isnan add sub div f32_arith f32_val].
  apply SFisnan_false.
  change (f32_val (cast E64)) with eps32.
  destruct (sum_plus_eps_pos _ _ HG HnG HB HnB) as [_ Hp].
  apply div_by_pos_not_nan; [|exact Hp].
  apply (fin_leb_not_nan 24 128 3).
  exact (SFsub_fin 24 128 p32_pos e32_ge 1 1 _ _ HG HB ltac:(lia)).
Qed.

Lemma is_pos_nonneg (x : spec_float) : is_pos x = true -> is_nonneg x = true.
Proof. destruct x as [?|?| |[] ? ?]; intros H; try discriminate; reflexivity. Qed.

Lemma savi32_not_nan (R G B : f32) :
  unit_pixel (R, G, B) = true -> isnan (savi E64 (R, G, B)) = false.
Proof.
  intros Hpx. destruct (unit_pixel_shape R G B Hpx) as ((HR & HnR) & (HG & HnG) & _).
  unfold savi. cbn [isnan add sub mul div f32_arith f32_val].
  apply SFisnan_false.
  change B32.prec with 24. change B32.emax with 128.
  change (f32_val (cast E64)) with eps32.
  set (c15 := f32_val (cast (lit 15 10))).
  set (c05 := f32_val (cast (lit 5 10))).
  assert (H15 : fin_leb 24 128 1 c15 = true) by reflexivity.
  assert (H05 : fin_leb 24 128 0 c05 = true) by reflexivity.
  assert (He : fin_leb 24 128 (-19) eps32 = true) by reflexivity.
  pose proof (SFadd_fin 24 128 p32_pos e32_ge 1 1 _ _ HG HR ltac:(lia)) as Hs.
  pose proof (SFadd_nonneg 24 128 p32_pos e32_ge _ _ HnG HnR) as [_ Hnn].
  pose proof (is_nonneg_of_sum _ _ Hs Hnn) as Hsn.
  pose proof (SFadd_fin 24 128 p32_pos e32_ge _ _ _ _ Hs H05 ltac:(lia)) as Hs2.
  pose proof (SFadd_pos 24 128 p32_pos e32_ge _ _ _ _ Hs H05 ltac:(lia) Hsn eq_refl) as Hp2.
  pose proof (is_pos_nonneg _ Hp2) as Hn2.
  pose proof (SFadd_pos 24 128 p32_pos e32_ge _ _ _ _ Hs2 He ltac:(lia) Hn2 eq_refl) as Hp3.
  apply div_by_pos_not_nan; [|exact Hp3].
  pose proof (SFsub_fin 24 128 p32_pos e32_ge 1 1 _ _ HG HR ltac:(lia)) as Hd.
  apply (fin_leb_not_nan 24 128 _ _
           (SFmul_fin 24 128 p32_pos e32_ge _ _ _ _ H15 Hd ltac:(lia) ltac:(lia))).
Qed.

Lemma evi32_not_nan (R G B : f32) :
  unit_pixel (R, G, B) = true -> isnan (evi E64 (R, G, B)) = false.
Proof.
  intros Hpx.
  destruct (unit_pixel_shape R G B Hpx) as ((HR & HnR) & (HG & HnG) & (HB & HnB)).
  unfold evi. cbn [isnan add sub mul div f32_arith f32_val].
  apply SFisnan_false.
  change (f32_val (cast E64)) with eps32.
  change (f32_val (cast (lit 1 1))) with one32.
  set (c25 := f32_val (cast (lit 25 10))).
  set (c6 := f32_val (cast (lit 6 1))).
  set (c75 := f32_val (cast (lit 75 10))).
  assert (H25 : fin_leb 24 128 2 c25 = true) by reflexivity.
  assert (H6 : fin_leb 24 128 3 c6 = true) by reflexivity.
  assert (H75 : fin_leb 24 128 3 c75 = true) by reflexivity.
  assert (H1 : fin_leb 24 128 1 one32 = true) by reflexivity.
  change B32.prec with 24. change B32.emax with 128.
  pose proof (SFmul_fin 24 128 p32_pos e32_ge _ _ _ _ H6 HR ltac:(lia) ltac:(lia)) as Ht1.
  pose proof (SFadd_fin 24 128 p32_pos e32_ge _ _ _ _ HG Ht1 ltac:(rewrite emin_eq; lia)) as Ht2.
  pose proof (SFmul_fin 24 128 p32_pos e32_ge _ _ _ _ H75 HB ltac:(lia) ltac:(lia)) as Ht3.
  pose proof (SFsub_fin 24 128 p32_pos e32_ge _ _ _ _ Ht2 Ht3 ltac:(rewrite emin_eq; lia)) as Ht4.
  pose proof (SFadd_fin 24 128 p32_pos e32_ge _ _ _ _ Ht4 H1 ltac:(rewrite emin_eq; lia)) as Ht5.
  pose proof (add_one_ne_neg_eps _ _ Ht4) as Hne.
  destruct (add_eps_finite _ _ Ht5 ltac:(rewrite emin_eq; lia) Hne) as (s & m & e & Hden).
  rewrite Hden.
  apply SFdiv_finite_r_not_nan; [exact p32_pos|exact e32_ge|].
  pose proof (SFsub_fin 24 128 p32_pos e32_ge 1 1 _ _ HG HR ltac:(lia)) as Hd.
  apply (fin_leb_not_nan 24 128 _ _
           (SFmul_fin 24 128 p32_pos e32_ge _ _ _ _ H25 Hd ltac:(lia) ltac:(lia))).
Qed.

Lemma finite32_nonneg (x : f32) :
  finite32 x = true -> leb (cast (lit 0 1 : f64)) x = true -> is_nonneg (f32_val x) = true.
Proof.
  destruct x as [x]. unfold finite32. cbn [f32_val leb f32_arith].
  change (f32_val (cast (lit 0 1))) with (S754_zero false).
  destruct x as [?|?| |[] ? ?]; intros H1 H2; try discriminate; reflexivity.
Qed.

Lemma clip32_wf (x lo hi : f32) :
  isnan x = false -> isnan lo = false -> ltb lo hi = true ->
  wfb 24 128 (f32_val x) = true -> wfb 24 128 (f32_val lo) = true ->
  wfb 24 128 (f32_val hi) = true ->
  wfb 24 128 (f32_val (clip x lo hi)) = true.
Proof.
  intros Hx Hlo Hlh Hwx Hwl Hwh.
  destruct (clip32_cases x lo hi Hx Hlo Hlh) as [(-> & _)|[->| ->]]; assumption.
Qed.

(** FVC of a number is a number, and a well-formed one. *)
Lemma fvc32_shape (v : f32) :
  isnan v = false ->
  isnan (fvc E64 v) = false /\ wfb 24 128 (f32_val (fvc E64 v)) = true.
Proof.
  intros Hv. unfold fvc.
  set (q := ((v - cast ndvi_soil) / cast (ndvi_veg - ndvi_soil + E64))%num).
  assert (Hq : isnan q = false).
  { unfold q. cbn [isnan add sub div f32_arith f32_val].
    apply SFisnan_false.
    change (f32_val (cast (ndvi_veg - ndvi_soil + E64)%num))
      with (S754_finite false 11072979 (-24)).
    change (f32_val (cast ndvi_soil)) with (S754_finite false 13421773 (-26)).
    apply SFdiv_finite_r_not_nan; [exact p32_pos|exact e32_ge|].
    apply SFsub_finite_r_not_nan; [exact p32_pos|exact e32_ge|].
    destruct v as [[]]; cbn in *; congruence. }
  assert (Hwq : wfb 24 128 (f32_val q) = true).
  { unfold q. cbn [div f32_arith f32_val]. apply SFdiv_wf; [exact p32_pos|exact e32_ge]. }
  set (c := clip q (cast (lit 0 1)) (cast (lit 1 1))).
  assert (Hc : within32 (lit 0 1) (lit 1 1) c = true).
  { apply within32_clip; [exact Hq|reflexivity|reflexivity|reflexivity]. }
  apply within32_shape in Hc. destruct Hc as (Hcf & Hc0 & _).
  pose proof (finite32_nonneg c Hcf Hc0) as Hcn.
  cbn [isnan mul f32_arith f32_val]. split.
  - apply SFisnan_false.
    apply SFmul_finite_not_nan; [exact p32_pos|exact e32_ge|exact Hcn|exact Hcn].
  - apply SFmul_wf; [exact p32_pos|exact e32_ge].
Qed.

Section Lai.
Variable logf : spec_float -> spec_float.
Hypothesis logf_defined : forall x, is_pos x = true -> SFisnan (logf x) = false.

(** LAI of a well-formed number is a number: the argument of the logarithm
    is a positive finite float. *)
Lemma lai32_not_nan (f : f32) :
  isnan f = false -> wfb 24 128 (f32_val f) = true ->
  isnan (lai (L:=f32_libm logf) E64 f) = false.
Proof.
  intros Hf Hw. unfold lai.
  set (c := clip f (cast (lit 0 1)) (cast (lit 99 100))).
  assert (Hc : within32 (lit 0 1) (lit 99 100) c = true).
  { apply within32_clip; [exact Hf|reflexivity|reflexivity|reflexivity]. }
  assert (Hwc : wfb 24 128 (f32_val c) = true).
  { apply clip32_wf; [exact Hf|reflexivity|reflexivity|exact Hw|reflexivity|reflexivity]. }
  apply within32_shape in Hc. destruct Hc as (_ & Hc0 & Hc1).
  cbn [isnan neg add sub flog f32_libm f32_arith f32_val].
  change B32.prec with 24. change B32.emax with 128.
  change (f32_val (cast E64)) with eps32.
  change (f32_val (cast (lit 1 1))) with one32.
  destruct (one_minus_pos (f32_val c) Hwc Hc0 Hc1) as [H1 H2].
  assert (He : fin_leb 24 128 (-19) eps32 = true) by reflexivity.
  pose proof (SFadd_pos 24 128 p32_pos e32_ge _ _ _ _ H1 He ltac:(lia)
                (is_pos_nonneg _ H2) eq_refl) as Hp.
  pose proof (logf_defined _ Hp) as Hl.
  destruct (logf (SFadd 24 128 (SFsub 24 128 one32 (f32_val c)) eps32));
    try reflexivity. discriminate.
Qed.
End Lai.

(** ** The six rasters *)

Lemma all2d_map2d {A B} (P : A -> Prop) (Q : B -> Prop) (f : A -> B) (a : list (list A)) :
  (forall x, P x -> Q (f x)) -> all2d P a -> all2d Q (map2d f a).
Proof.
  intros Hf Ha. unfold all2d, map2d in *.
  apply Forall_map. eapply Forall_impl; [exact Ha|].
  intros row Hrow. apply Forall_map. eapply Forall_impl; [exact Hrow|]. exact Hf.
Qed.

Lemma compute_indices_run {S F} {AS : Arith S} {AF : Arith F} {D : Dtype S F}
    {L : Libm F} (rgb : Raster F) (g : Globals S) :
  _compute_indices rgb g =
  (Ok [ ("ndvi", clip2d (map2d (vndvi (EPS g)) rgb) (neg (lit 1 1)) (lit 1 1));
        ("evi", clip2d (map2d (evi (EPS g)) rgb) (neg (lit 1 1)) (lit 1 1));
        ("ndwi", clip2d (map2d (ndwi (EPS g)) rgb) (neg (lit 1 1)) (lit 1 1));
        ("savi", clip2d (map2d (savi (EPS g)) rgb) (neg (lit 1 1)) (lit 1 1));
        ("fvc", clip2d (map2d (fvc (EPS g)) (map2d (vndvi (EPS g)) rgb)) (lit 0 1) (lit 1 1));
        ("lai", clip2d (map2d (lai (EPS g)) (map2d (fvc (EPS g)) (map2d (vndvi (EPS g)) rgb)))
                  (lit 0 1) (lit 6 1)) ], g).
Proof. reflexivity. Qed.

(** C1.  In binary32, on a raster whose channel values are well-formed
    floats in [0, 1], every value of the six index rasters is finite (neither
    NaN nor an infinity) and lies in its range: NDVI, EVI, NDWI and SAVI in
    [-1, 1], FVC in [0, 1], LAI in [0, 6].  The logarithm is the platform's;
    all that is asked of it is a number on every positive finite float. *)
Theorem indices_finite_and_within_range
    (logf : spec_float -> spec_float) (rgb : Raster f32) :
  (forall x, is_pos x = true -> SFisnan (logf x) = false) ->
  all2d (fun px => unit_pixel px = true) rgb ->
  exists ndvi_a evi_a ndwi_a savi_a fvc_a lai_a,
    returns (_compute_indices (L:=f32_libm logf) rgb)
      [ ("ndvi", ndvi_a); ("evi", evi_a); ("ndwi", ndwi_a);
        ("savi", savi_a); ("fvc", fvc_a); ("lai", lai_a) ] /\
    all2d (fun v => within32 (neg (lit 1 1)) (lit 1 1) v = true) ndvi_a /\
    all2d (fun v => within32 (neg (lit 1 1)) (lit 1 1) v = true) evi_a /\
    all2d (fun v => within32 (neg (lit 1 1)) (lit 1 1) v = true) ndwi_a /\
    all2d (fun v => within32 (neg (lit 1 1)) (lit 1 1) v = true) savi_a /\
    all2d (fun v => within32 (lit 0 1) (lit 1 1) v = true) fvc_a /\
    all2d (fun v => within32 (lit 0 1) (lit 6 1) v = true) lai_a.
Proof.
  intros Hlog Hrgb. do 6 eexists. unfold returns.
  rewrite compute_indices_run. cbn [fst]. split; [reflexivity|].
  unfold clip2d.
  assert (Hndvi : all2d (fun v : f32 => isnan v = false) (map2d (vndvi E64) rgb)).
  { eapply all2d_map2d; [|exact Hrgb]. intros [[R G] B]. apply vndvi32_not_nan. }
  assert (Hfvc : all2d (fun f : f32 => isnan f = false /\ wfb 24 128 (f32_val f) = true)
                   (map2d (fvc E64) (map2d (vndvi E64) rgb))).
  { eapply all2d_map2d; [|exact Hndvi]. intros v. apply fvc32_shape. }
  repeat split.
  - eapply all2d_map2d; [|exact Hndvi]. intros v Hv.
    apply within32_clip; [exact Hv|reflexivity|reflexivity|reflexivity].
  - eapply all2d_map2d; [|eapply all2d_map2d; [|exact Hrgb]].
    + intros v Hv. apply within32_clip; [exact Hv|reflexivity|reflexivity|reflexivity].
    + intros [[R G] B]. apply evi32_not_nan.
  - eapply all2d_map2d; [|eapply all2d_map2d; [|exact Hrgb]].
    + intros v Hv. apply within32_clip; [exact Hv|reflexivity|reflexivity|reflexivity].
    + intros [[R G] B]. apply ndwi32_not_nan.
  - eapply all2d_map2d; [|eapply all2d_map2d; [|exact Hrgb]].
    + intros v Hv. apply within32_clip; [exact Hv|reflexivity|reflexivity|reflexivity].
    + intros [[R G] B]. apply savi32_not_nan.
  - eapply all2d_map2d; [|exact Hfvc]. intros v [Hv _].
    apply within32_clip; [exact Hv|reflexivity|reflexivity|reflexivity].
  - eapply all2d_map2d; [|eapply all2d_map2d; [|exact Hfvc]].
    + intros v Hv. apply within32_clip; [exact Hv|reflexivity|reflexivity|reflexivity].
    + intros f [Hf Hw]. apply lai32_not_nan; assumption.
Qed.

Lemma log2_floor_defined (x : spec_float) :
  is_pos x = true -> SFisnan (log2_floor x) = false.
Proof.
  destruct x as [?|?| |[] m e]; try discriminate. intros _.
  apply SFisnan_false. unfold log2_floor, B32.of_Z.
  apply binary_normalize_not_nan; [exact p32_pos|exact e32_ge].
Qed.

Lemma degenerate_raster_unit : all2d (fun px => unit_pixel px = true) degenerate_raster.
Proof. repeat constructor. Defined.

Lemma indices_finite_and_within_range_witness :
  exists ndvi_a evi_a ndwi_a savi_a fvc_a lai_a,
    returns (_compute_indices (L:=f32_libm log2_floor) degenerate_raster)
      [ ("ndvi", ndvi_a); ("evi", evi_a); ("ndwi", ndwi_a);
        ("savi", savi_a); ("fvc", fvc_a); ("lai", lai_a) ] /\
    all2d (fun v => within32 (neg (lit 1 1)) (lit 1 1) v = true) ndvi_a /\
    all2d (fun v => within32 (neg (lit 1 1)) (lit 1 1) v = true) evi_a /\
    all2d (fun v => within32 (neg (lit 1 1)) (lit 1 1) v = true) ndwi_a /\
    all2d (fun v => within32 (neg (lit 1 1)) (lit 1 1) v = true) savi_a /\
    all2d (fun v => within32 (lit 0 1) (lit 1 1) v = true) fvc_a /\
    all2d (fun v => within32 (lit 0 1) (lit 6 1) v = true) lai_a.
Proof.
  exact (indices_finite_and_within_range log2_floor degenerate_raster
           log2_floor_defined degenerate_raster_unit).
Defined.

(** ** The order of binary32 numbers *)

Lemma SFcompare_key (a b : spec_float) :
  a <> S754_nan -> b <> S754_nan -> SFcompare a b = Some (lexcmp (key a) (key b)).
Proof.
  intros Ha Hb.
  destruct a as [sa|[]| |[] ma ea]; try congruence;
    destruct b as [sb|[]| |[] mb eb]; try congruence; try reflexivity;
    unfold SFcompare, key, lexcmp.
  change (-1 ?= -1) with Eq. rewrite Z.compare_opp.
  rewrite (Z.compare_antisym ea eb).
  destruct (ea ?= eb); reflexivity.
Qed.

Lemma lexcmp_refl (k : Z * Z * Z) : lexcmp k k = Eq.
Proof. destruct k as [[a b] c]. unfold lexcmp. rewrite !Z.compare_refl. reflexivity. Qed.

Ltac lex_cases :=
  repeat match goal with
         | H : context [(?x ?= ?y)%Z] |- _ => destruct (Z.compare_spec x y)
         | |- context [(?x ?= ?y)%Z] => destruct (Z.compare_spec x y)
         end;
  try congruence; try lia.

Lemma lexcmp_antisym (k1 k2 : Z * Z * Z) : lexcmp k2 k1 = CompOpp (lexcmp k1 k2).
Proof.
  destruct k1 as [[a1 b1] c1], k2 as [[a2 b2] c2]. unfold lexcmp.
  rewrite (Z.compare_antisym a1 a2), (Z.compare_antisym b1 b2), (Z.compare_antisym c1 c2).
  destruct (a1 ?= a2), (b1 ?= b2), (c1 ?= c2); reflexivity.
Qed.

Lemma lexcmp_le_trans (k1 k2 k3 : Z * Z * Z) :
  lexcmp k1 k2 <> Gt -> lexcmp k2 k3 <> Gt -> lexcmp k1 k3 <> Gt.
Proof.
  destruct k1 as [[a1 b1] c1], k2 as [[a2 b2] c2], k3 as [[a3 b3] c3].
  unfold lexcmp. intros H12 H23. lex_cases.
Qed.

Lemma SFleb_key (a b : spec_float) :
  a <> S754_nan -> b <> S754_nan ->
  (SFleb a b = true <-> lexcmp (key a) (key b) <> Gt).
Proof.
  intros Ha Hb. unfold SFleb. rewrite (SFcompare_key a b Ha Hb).
  destruct (lexcmp (key a) (key b)); split; congruence.
Qed.

Lemma SFltb_key (a b : spec_float) :
  a <> S754_nan -> b <> S754_nan ->
  (SFltb a b = true <-> lexcmp (key a) (key b) = Lt).
Proof.
  intros Ha Hb. unfold SFltb. rewrite (SFcompare_key a b Ha Hb).
  destruct (lexcmp (key a) (key b)); split; congruence.
Qed.

Lemma SFleb_refl (a : spec_float) : a <> S754_nan -> SFleb a a = true.
Proof. intros Ha. apply SFleb_key; try assumption. rewrite lexcmp_refl. discriminate. Qed.

Lemma SFleb_trans (a b c : spec_float) :
  a <> S754_nan -> b <> S754_nan -> c <> S754_nan ->
  SFleb a b = true -> SFleb b c = true -> SFleb a c = true.
Proof.
  intros Ha Hb Hc H1 H2.
  apply SFleb_key in H1, H2; try assumption.
  apply SFleb_key; try assumption.
  eapply lexcmp_le_trans; eassumption.
Qed.

Lemma SFltb_false_leb (a b : spec_float) :
  a <> S754_nan -> b <> S754_nan -> SFltb a b = false -> SFleb b a = true.
Proof.
  intros Ha Hb H. apply SFleb_key; try assumption.
  rewrite lexcmp_antisym. intros Hgt.
  assert (Hlt : lexcmp (key a) (key b) = Lt).
  { destruct (lexcmp (key a) (key b)); cbn in Hgt; congruence. }
  apply SFltb_key in Hlt; try assumption. congruence.
Qed.

Lemma SFleb_antisym (a b : spec_float) :
  a <> S754_nan -> b <> S754_nan ->
  SFleb a b = true -> SFleb b a = true -> SFcompare a b = Some Eq.
Proof.
  intros Ha Hb H1 H2.
  apply SFleb_key in H1, H2; try assumption.
  rewrite (SFcompare_key a b Ha Hb). rewrite lexcmp_antisym in H2.
  destruct (lexcmp (key a) (key b)); cbn in *; congruence.
Qed.

Lemma lexcmp_eq (k1 k2 : Z * Z * Z) : lexcmp k1 k2 = Eq -> k1 = k2.
Proof.
  destruct k1 as [[a1 b1] c1], k2 as [[a2 b2] c2]. unfold lexcmp. intros H.
  lex_cases.
Qed.

(** Two numbers that compare equal are the same float, or two zeros. *)
Lemma SFcompare_eq_inv (a b : spec_float) :
  SFcompare a b = Some Eq ->
  a = b \/ (exists sa sb, a = S754_zero sa /\ b = S754_zero sb).
Proof.
  intros H.
  assert (Ha : a <> S754_nan) by (intros ->; discriminate).
  assert (Hb : b <> S754_nan) by (intros ->; destruct a; discriminate).
  rewrite (SFcompare_key a b Ha Hb) in H. injection H as H. apply lexcmp_eq in H.
  destruct a as [sa|[]| |[] ma ea]; try congruence;
    destruct b as [sb|[]| |[] mb eb]; try congruence; cbn [key] in H;
    try discriminate; try (left; reflexivity); try (right; eauto; fail).
  - left. injection H as H1 H2. f_equal; lia.
  - left. injection H as H1 H2. f_equal; lia.
Qed.

Lemma binary_round_not_nan (prec emax : Z) (s : bool) (m : positive) (e : Z) :
  0 < prec -> 2 <= emax -> binary_round prec emax s m e <> S754_nan.
Proof.
  intros Hp He.
  destruct (binary_round_spec prec emax Hp He s m e) as (m' & e' & -> & Hm & _).
  apply outcome_not_nan, Hm.
Qed.

(** Widening keeps equal numbers equal. *)
Lemma widen_eqb (a b : f32) :
  isnan a = false -> SFcompare (f32_val a) (f32_val b) = Some Eq ->
  SFeqb (f64_val (widen a)) (f64_val (widen b)) = true.
Proof.
  intros Ha H. destruct a as [a], b as [b]. cbn [f32_val isnan f32_arith] in *.
  cbn [widen f64_f32 f64_val f32_val].
  destruct (SFcompare_eq_inv a b H) as [<-|(sa & sb & -> & ->)]; [|reflexivity].
  assert (Hn : B64.round a <> S754_nan).
  { destruct a; try discriminate. cbn [B64.round].
    apply binary_round_not_nan; unfold B64.prec, B64.emax; lia. }
  unfold SFeqb. rewrite (SFcompare_key _ _ Hn Hn), lexcmp_refl. reflexivity.
Qed.

(** ** Maximum and minimum of a raster without NaN *)

Lemma f32_not_nan (x : f32) : isnan x = false -> f32_val x <> S754_nan.
Proof. destruct x as [[]]; cbn; congruence. Qed.

Lemma fmax32_cases (a b : f32) :
  isnan a = false -> isnan b = false ->
  (fmax a b = a \/ fmax a b = b) /\ leb a (fmax a b) = true /\ leb b (fmax a b) = true.
Proof.
  intros Ha Hb. unfold fmax. rewrite Ha, Hb.
  pose proof (f32_not_nan a Ha) as Na. pose proof (f32_not_nan b Hb) as Nb.
  destruct (ltb a b) eqn:E.
  - split; [right; reflexivity|]. split; [apply SFltb_leb, E|apply SFleb_refl, Nb].
  - split; [left; reflexivity|]. split; [apply SFleb_refl, Na|].
    apply SFltb_false_leb; assumption.
Qed.

Lemma fmin32_cases (a b : f32) :
  isnan a = false -> isnan b = false ->
  (fmin a b = a \/ fmin a b = b) /\ leb (fmin a b) a = true /\ leb (fmin a b) b = true.
Proof.
  intros Ha Hb. unfold fmin. rewrite Ha, Hb.
  pose proof (f32_not_nan a Ha) as Na. pose proof (f32_not_nan b Hb) as Nb.
  destruct (ltb b a) eqn:E.
  - split; [right; reflexivity|]. split; [apply SFltb_leb, E|apply SFleb_refl, Nb].
  - split; [left; reflexivity|]. split; [apply SFleb_refl, Na|].
    apply SFltb_false_leb; assumption.
Qed.

Lemma fold_fmax32_greatest (rest : list f32) (x : f32) :
  Forall (fun v => isnan v = false) (x :: rest) ->
  isnan (fold_left fmax rest x) = false /\
  In (fold_left fmax rest x) (x :: rest) /\
  forall y, In y (x :: rest) -> leb y (fold_left fmax rest x) = true.
Proof.
  revert x. induction rest as [|z rest IH]; intros x Hall; cbn [fold_left].
  - apply Forall_inv in Hall. split; [exact Hall|]. split; [left; reflexivity|].
    intros y [<-|[]]. apply SFleb_refl, f32_not_nan, Hall.
  - pose proof (Forall_inv Hall) as Hx.
    pose proof (Forall_inv (Forall_inv_tail Hall)) as Hz.
    pose proof (Forall_inv_tail (Forall_inv_tail Hall)) as Hrest.
    destruct (fmax32_cases x z Hx Hz) as (Hsel & Hlx & Hlz).
    assert (Hm : isnan (fmax x z) = false) by (destruct Hsel as [-> | ->]; assumption).
    destruct (IH (fmax x z) ltac:(constructor; assumption)) as (Hn & Hin & Hge).
    split; [exact Hn|]. split.
    + destruct Hin as [Hin|Hin]; [|right; right; exact Hin].
      rewrite <- Hin. destruct Hsel as [-> | ->]; [left|right; left]; reflexivity.
    + assert (Hmr : leb (fmax x z) (fold_left fmax rest (fmax x z)) = true)
        by (apply Hge; left; reflexivity).
      cbn beta in Hx, Hz.
      intros y [<-|[<-|Hy]].
      * apply (SFleb_trans _ (f32_val (fmax x z)) _);
          [apply f32_not_nan, Hx|apply f32_not_nan, Hm|apply f32_not_nan, Hn
          |exact Hlx|exact Hmr].
      * apply (SFleb_trans _ (f32_val (fmax x z)) _);
          [apply f32_not_nan, Hz|apply f32_not_nan, Hm|apply f32_not_nan, Hn
          |exact Hlz|exact Hmr].
      * apply Hge. right. exact Hy.
Qed.

Lemma fold_fmin32_least (rest : list f32) (x : f32) :
  Forall (fun v => isnan v = false) (x :: rest) ->
  isnan (fold_left fmin rest x) = false /\
  In (fold_left fmin rest x) (x :: rest) /\
  forall y, In y (x :: rest) -> leb (fold_left fmin rest x) y = true.
Proof.
  revert x. induction rest as [|z rest IH]; intros x Hall; cbn [fold_left].
  - apply Forall_inv in Hall. split; [exact Hall|]. split; [left; reflexivity|].
    intros y [<-|[]]. apply SFleb_refl, f32_not_nan, Hall.
  - pose proof (Forall_inv Hall) as Hx.
    pose proof (Forall_inv (Forall_inv_tail Hall)) as Hz.
    pose proof (Forall_inv_tail (Forall_inv_tail Hall)) as Hrest.
    destruct (fmin32_cases x z Hx Hz) as (Hsel & Hlx & Hlz).
    assert (Hm : isnan (fmin x z) = false) by (destruct Hsel as [-> | ->]; assumption).
    destruct (IH (fmin x z) ltac:(constructor; assumption)) as (Hn & Hin & Hge).
    split; [exact Hn|]. split.
    + destruct Hin as [Hin|Hin]; [|right; right; exact Hin].
      rewrite <- Hin. destruct Hsel as [-> | ->]; [left|right; left]; reflexivity.
    + assert (Hmr : leb (fold_left fmin rest (fmin x z)) (fmin x z) = true)
        by (apply Hge; left; reflexivity).
      cbn beta in Hx, Hz.
      intros y [<-|[<-|Hy]].
      * apply (SFleb_trans _ (f32_val (fmin x z)) _);
          [apply f32_not_nan, Hn|apply f32_not_nan, Hm|apply f32_not_nan, Hx
          |exact Hmr|exact Hlx].
      * apply (SFleb_trans _ (f32_val (fmin x z)) _);
          [apply f32_not_nan, Hn|apply f32_not_nan, Hm|apply f32_not_nan, Hz
          |exact Hmr|exact Hlz].
      * apply Hge. right. exact Hy.
Qed.

(** C7 (as the code has it).  Reordering or repartitioning the elements of
    an index raster leaves its summary unchanged as far as the arithmetic is
    associative: over exact numbers all four statistics are the same; in
    binary32, on a raster without NaN, the maximum and the minimum are the
    same numbers.  The binary32 mean and standard deviation are sums of
    rounded terms and are not covered. *)
Theorem metrics_summary_order_independent :
  (forall (L : Libm Q) (arr arr' : IndexRaster Q) (g : Globals Q),
     Permutation (concat arr) (concat arr') ->
     match fst (_metrics_summary arr g), fst (_metrics_summary arr' g) with
     | Ok s, Ok s' =>
         mean s = mean s' /\ std s = std s' /\
         (max s == max s')%Q /\ (min s == min s')%Q
     | Raise e, Raise e' => e = e'
     | _, _ => False
     end) /\
  (forall (logf : spec_float -> spec_float) (arr arr' : IndexRaster f32)
          (g : Globals f64),
     all2d (fun v : f32 => isnan v = false) arr ->
     Permutation (concat arr) (concat arr') ->
     match fst (_metrics_summary (L:=f32_libm logf) arr g),
           fst (_metrics_summary (L:=f32_libm logf) arr' g) with
     | Ok s, Ok s' =>
         SFeqb (f64_val (max s)) (f64_val (max s')) = true /\
         SFeqb (f64_val (min s)) (f64_val (min s')) = true
     | Raise e, Raise e' => e = e'
     | _, _ => False
     end).
Proof.
  split.
  - intros L arr arr' g. apply summary_exact_order_independent.
  - intros logf arr arr' g Hall Hp.
    assert (Hflat : Forall (fun v : f32 => isnan v = false) (concat arr))
      by (apply Forall_concat, Hall).
    assert (Hflat' : Forall (fun v : f32 => isnan v = false) (concat arr'))
      by (eapply Permutation_Forall; eassumption).
    rewrite !metrics_summary_run.
    destruct (concat arr) as [|x rest] eqn:E, (concat arr') as [|x' rest'] eqn:E';
      cbn [fst].
    + reflexivity.
    + apply Permutation_nil in Hp. discriminate.
    + apply Permutation_sym, Permutation_nil in Hp. discriminate.
    + cbn [max min].
      destruct (fold_fmax32_greatest rest x Hflat) as (Hn1 & Hi1 & Hg1).
      destruct (fold_fmax32_greatest rest' x' Hflat') as (Hn2 & Hi2 & Hg2).
      destruct (fold_fmin32_least rest x Hflat) as (Hm1 & Hj1 & Hl1).
      destruct (fold_fmin32_least rest' x' Hflat') as (Hm2 & Hj2 & Hl2).
      split; apply widen_eqb; try assumption;
        apply SFleb_antisym; try (apply f32_not_nan; assumption).
      * apply Hg2. eapply Permutation_in; eassumption.
      * apply Hg1. eapply Permutation_in; [apply Permutation_sym|]; eassumption.
      * apply Hl1. eapply Permutation_in; [apply Permutation_sym|]; eassumption.
      * apply Hl2. eapply Permutation_in; eassumption.
Qed.

Lemma ulp_raster_perm : Permutation (concat ulp_raster_a) (concat ulp_raster_b).
Proof.
  cbn [concat ulp_raster_a ulp_raster_b app].
  apply (Permutation_cons_app
           [cast (lit 1 16777216 : f64); cast (lit 1 16777216 : f64)] []).
  apply Permutation_refl.
Defined.

Lemma ulp_raster_no_nan : all2d (fun v : f32 => isnan v = false) ulp_raster_a.
Proof. repeat constructor. Defined.

Lemma metrics_summary_order_independent_witness :
  match fst (_metrics_summary (L:=Q_libm_approx) sample_index module_globals),
        fst (_metrics_summary (L:=Q_libm_approx) sample_index_shuffled module_globals) with
  | Ok s, Ok s' =>
      mean s = mean s' /\ std s = std s' /\ (max s == max s')%Q /\ (min s == min s')%Q
  | Raise e, Raise e' => e = e'
  | _, _ => False
  end /\
  match fst (_metrics_summary (L:=f32_libm log2_floor) ulp_raster_a module_globals),
        fst (_metrics_summary (L:=f32_libm log2_floor) ulp_raster_b module_globals) with
  | Ok s, Ok s' =>
      SFeqb (f64_val (max s)) (f64_val (max s')) = true /\
      SFeqb (f64_val (min s)) (f64_val (min s')) = true
  | Raise e, Raise e' => e = e'
  | _, _ => False
  end.
Proof.
  split.
  - exact (proj1 metrics_summary_order_independent Q_libm_approx
             sample_index sample_index_shuffled module_globals
             sample_index_shuffled_perm).
  - exact (proj2 metrics_summary_order_independent log2_floor
             ulp_raster_a ulp_raster_b module_globals
             ulp_raster_no_nan ulp_raster_perm).
Defined.

(** C7 fails as stated: in binary32 the rasters [[1, u, u]] and [[u, u, 1]],
    with [u = 2 ^ -24], hold the same elements and have different means and
    different standard deviations.  Summed in the first order the two small
    terms are rounded away one after the other; summed in the second they
    add up to one unit in the last place. *)
Lemma binary32_mean_depends_on_order :
  Permutation (concat ulp_raster_a) (concat ulp_raster_b) /\
  exists s s',
    fst (_metrics_summary (L:=f32_libm log2_floor) ulp_raster_a module_globals) = Ok s /\
    fst (_metrics_summary (L:=f32_libm log2_floor) ulp_raster_b module_globals) = Ok s' /\
    ltb (mean s) (mean s') = true /\
    ltb (std s) (std s') = true.
Proof.
  split; [exact ulp_raster_perm|].
  eexists. eexists. split; [vm_compute; reflexivity|].
  split; [vm_compute; reflexivity|]. split; vm_compute; reflexivity.
Qed.

(** ** Rounding does not cross a representable bound *)

Section Monotone.
Variables prec emax : Z.
Hypothesis Hprec : 0 < prec.
Hypothesis Hemax : 2 <= emax.

Local Abbreviation emin := (SpecFloat.emin prec emax).
Local Abbreviation fexp := (SpecFloat.fexp prec emax).
Local Abbreviation outc := (outcome prec emax).

Lemma fexp_mono (a b : Z) : a <= b -> fexp a <= fexp b.
Proof. intros H. rewrite !(fexp_eq prec emax). lia. Qed.

Lemma shr_fexp_m (m e : Z) (l : location) :
  0 <= m ->
  shr_m (fst (shr_fexp prec emax m e l)) =
  Z.shiftr m (snd (shr_fexp prec emax m e l) - e) /\
  e <= snd (shr_fexp prec emax m e l).
Proof.
  intros Hm. unfold shr_fexp.
  destruct (shr_spec (shr_record_of_loc m l) e (fexp (Zdigits2 m + e) - e)) as [H1 H2].
  { rewrite shr_record_of_loc_m. exact Hm. }
  rewrite shr_record_of_loc_m in H1. rewrite H1, H2. split; [f_equal; lia|lia].
Qed.

Lemma shiftr_lt_bound (a K n : Z) :
  0 <= a -> 0 <= n -> a < K * 2 ^ n -> Z.shiftr a n < K.
Proof.
  intros Ha Hn H. rewrite Z.shiftr_div_pow2 by lia.
  apply Z.div_lt_upper_bound; [apply Z.pow_pos_nonneg; lia|lia].
Qed.

Lemma shiftr_le_bound (a K n : Z) :
  0 <= a -> 0 <= n -> a <= K * 2 ^ n -> Z.shiftr a n <= K.
Proof.
  intros Ha Hn H. rewrite Z.shiftr_div_pow2 by lia.
  assert (Hp : 0 < 2 ^ n) by (apply Z.pow_pos_nonneg; lia).
  apply Z.lt_succ_r. apply Z.div_lt_upper_bound; [exact Hp|]. nia.
Qed.

(** The bound is the float [mc * 2 ^ ec], in canonical form; the number
    being rounded is strictly below it. *)
Lemma binary_round_aux_below (s : bool) (mx ex : Z) (lx : location) (mc ec : Z) :
  0 <= mx -> 0 < mc -> ec = fexp (Zdigits2 mc + ec) ->
  ex <= ec -> mx < mc * 2 ^ (ec - ex) ->
  exists m e,
    binary_round_aux prec emax s mx ex lx = outc s m e /\
    0 <= m /\ (e < ec \/ (e = ec /\ m <= mc)).
Proof.
  intros Hmx Hmc Hcan Hex Hlt. unfold binary_round_aux.
  destruct (shr_fexp_m mx ex lx Hmx) as [Hm1 He1].
  pose proof (shr_fexp_spec prec emax Hprec mx ex lx Hmx) as S1. cbn zeta in S1.
  destruct (shr_fexp prec emax mx ex lx) as [mrs' e'] eqn:E1. cbn [fst snd] in *.
  destruct S1 as (Hm' & _ & _ & He' & _).
  set (m2 := round_nearest_even (shr_m mrs') (loc_of_shr_record mrs')).
  assert (Hm2 : m2 = shr_m mrs' \/ m2 = shr_m mrs' + 1) by apply round_nearest_even_cases.
  assert (Hm2pos : 0 <= m2) by lia.
  (* the first shift stays at or below the exponent of the bound *)
  assert (Hdx : Zdigits2 mx + ex <= Zdigits2 mc + ec).
  { assert (Hle : 0 <= mx <= mc * 2 ^ (ec - ex)) by lia.
    apply Zdigits2_le in Hle. rewrite Zdigits2_mul_pow2 in Hle by lia. lia. }
  assert (He'c : e' <= ec).
  { pose proof (fexp_mono _ _ Hdx). lia. }
  set (K := mc * 2 ^ (ec - e')).
  assert (HK : mx < K * 2 ^ (e' - ex)).
  { unfold K. rewrite <- Z.mul_assoc, <- Z.pow_add_r by lia.
    replace (ec - e' + (e' - ex)) with (ec - ex) by lia. exact Hlt. }
  assert (Hm2K : m2 <= K).
  { pose proof (shiftr_lt_bound mx K (e' - ex) Hmx ltac:(lia) HK). lia. }
  destruct (shr_fexp_m m2 e' loc_Exact Hm2pos) as [Hm3 He3].
  pose proof (shr_fexp_spec prec emax Hprec m2 e' loc_Exact Hm2pos) as S2.
  cbn zeta in S2.
  destruct (shr_fexp prec emax m2 e' loc_Exact) as [mrs'' e''] eqn:E2. cbn [fst snd] in *.
  destruct S2 as (Hm'' & _ & _ & He'' & _).
  exists (shr_m mrs''), e''.
  split; [unfold outcome; destruct (shr_m mrs''); reflexivity|].
  split; [exact Hm''|].
  assert (Hd2 : Zdigits2 m2 + e' <= Zdigits2 mc + ec).
  { assert (Hle : 0 <= m2 <= K) by lia.
    apply Zdigits2_le in Hle. unfold K in Hle.
    rewrite Zdigits2_mul_pow2 in Hle by lia. lia. }
  assert (He''c : e'' <= ec).
  { pose proof (fexp_mono _ _ Hd2). lia. }
  destruct (Z_lt_le_dec e'' ec) as [Hltc|Hgec]; [left; exact Hltc|right].
  split; [lia|]. rewrite Hm3. apply shiftr_le_bound; [lia|lia|].
  replace (e'' - e') with (ec - e') by lia. exact Hm2K.
Qed.

Lemma binary_round_below (s : bool) (mx : positive) (ex : Z) (mc ec : Z) :
  0 < mc -> ec = fexp (Zdigits2 mc + ec) ->
  ex <= ec -> Zpos mx < mc * 2 ^ (ec - ex) ->
  exists m e,
    binary_round prec emax s mx ex = outc s m e /\
    0 <= m /\ (e < ec \/ (e = ec /\ m <= mc)).
Proof.
  intros Hmc Hcan Hex Hlt. unfold binary_round.
  set (E := fexp (Zdigits2 (Zpos mx) + ex)).
  change (Zpos (digits2_pos mx)) with (Zdigits2 (Zpos mx)). fold E.
  destruct (shl_align_spec mx ex E) as [Hmz Hez].
  destruct (shl_align mx ex E) as [mz ez]. cbn [fst snd] in Hmz, Hez.
  apply binary_round_aux_below; try assumption; try lia.
  rewrite Hmz, Hez.
  replace (ec - Z.min ex E) with ((ec - ex) + (ex - Z.min ex E)) by lia.
  rewrite Z.pow_add_r by lia.
  assert (Hp : 0 < 2 ^ (ex - Z.min ex E)) by (apply Z.pow_pos_nonneg; lia).
  nia.
Qed.

Lemma outcome_leb_pos (s : bool) (m e : Z) (mc : positive) (ec : Z) :
  0 <= m -> ec <= emax - prec ->
  s = true \/ e < ec \/ (e = ec /\ m <= Zpos mc) ->
  SFleb (outc s m e) (S754_finite false mc ec) = true.
Proof.
  intros Hm Hec H. unfold outcome. destruct m as [|p|p]; [reflexivity| |lia].
  destruct H as [->|H].
  - destruct (e <=? emax - prec); reflexivity.
  - destruct s; [destruct (e <=? emax - prec); reflexivity|].
    assert (Hle : (e <=? emax - prec) = true) by (apply Z.leb_le; lia).
    rewrite Hle. unfold SFleb. cbn [SFcompare].
    destruct H as [Hlt|[-> Hmle]].
    + apply Z.compare_lt_iff in Hlt. rewrite Hlt. reflexivity.
    + rewrite Z.compare_refl.
      change (Pos.compare_cont Eq p mc) with (Pos.compare p mc).
      destruct (Pos.compare_spec p mc); try reflexivity. lia.
Qed.

(** [c - t <= c] for a positive float [c] in canonical form and [t] zero,
    positive or plus infinity: the rounded difference does not rise
    above [c]. *)
Lemma SFsub_le_self (mc : positive) (ec : Z) (t : spec_float) :
  ec = fexp (Zdigits2 (Zpos mc) + ec) -> ec <= emax - prec ->
  is_nonneg_or_inf t = true ->
  SFleb (SFsub prec emax (S754_finite false mc ec) t) (S754_finite false mc ec) = true.
Proof.
  intros Hcan Hec Ht.
  assert (Hrefl : SFleb (S754_finite false mc ec) (S754_finite false mc ec) = true).
  { apply SFleb_refl. discriminate. }
  destruct t as [st|st| |st mt et]; try discriminate.
  - exact Hrefl.
  - destruct st; [discriminate|]. reflexivity.
  - destruct st; [discriminate|]. rewrite (SFsub_finite prec emax).
    set (ez := Z.min ec et).
    set (M := aligned false mc ec ez - aligned false mt et ez).
    pose proof (aligned_pos mt et ez ltac:(lia)) as Hpt.
    assert (HM : M < Zpos mc * 2 ^ (ec - ez)).
    { unfold M. unfold aligned at 1. cbn [cond_Zopp]. lia. }
    destruct M as [|p|p] eqn:EM; cbn [binary_normalize].
    + reflexivity.
    + destruct (binary_round_below false p ez (Zpos mc) ec) as (m & e & -> & Hm & Hb);
        try assumption; try lia.
      apply outcome_leb_pos; auto.
    + destruct (binary_round_spec prec emax Hprec Hemax true p ez)
        as (m & e & -> & Hm & _).
      apply outcome_leb_pos; auto.
Qed.

(** ** Zero, positive or plus infinity is closed under sum and product *)

Lemma outcome_nonneg_or_inf (m e : Z) :
  0 <= m -> is_nonneg_or_inf (outc false m e) = true.
Proof.
  intros Hm. unfold outcome. destruct m; [reflexivity| |lia].
  destruct (e <=? emax - prec); reflexivity.
Qed.

Lemma SFadd_nonneg_or_inf (x y : spec_float) :
  is_nonneg_or_inf x = true -> is_nonneg_or_inf y = true ->
  is_nonneg_or_inf (SFadd prec emax x y) = true.
Proof.
  intros Hx Hy.
  destruct x as [sx|[]| |[] mx ex]; try discriminate;
    destruct y as [sy|[]| |[] my ey]; try discriminate; try reflexivity.
  - cbn. destruct sx, sy; reflexivity.
  - rewrite (SFadd_finite prec emax).
    destruct (binary_normalize_spec prec emax Hprec Hemax
                (aligned false mx ex (Z.min ex ey) + aligned false my ey (Z.min ex ey))
                (Z.min ex ey)) as (m & e & -> & Hm & _).
    pose proof (aligned_pos mx ex (Z.min ex ey) ltac:(lia)).
    pose proof (aligned_pos my ey (Z.min ex ey) ltac:(lia)).
    match goal with |- context [?a <? 0] =>
      assert (HMn : (a <? 0) = false) by (apply Z.ltb_ge; lia); rewrite HMn end.
    apply outcome_nonneg_or_inf, Hm.
Qed.

Lemma SFmul_nonneg_or_inf (x : spec_float) (my : positive) (ey : Z) :
  is_nonneg_or_inf x = true ->
  is_nonneg_or_inf (SFmul prec emax x (S754_finite false my ey)) = true.
Proof.
  intros Hx. destruct x as [sx|[]| |[] mx ex]; try discriminate; try reflexivity.
  cbn [SFmul xorb].
  destruct (binary_round_aux_spec prec emax Hprec Hemax false (Zpos (mx * my)) (ex + ey)
              loc_Exact ltac:(lia)) as (m & e & -> & Hm & _).
  apply outcome_nonneg_or_inf, Hm.
Qed.


(** ** A difference of equals, and a positive sum *)

Lemma SFsub_diag (x : spec_float) :
  SFfinite x = true -> SFsub prec emax x x = S754_zero false.
Proof.
  destruct x as [s|s| |s m e]; try discriminate; intros _.
  - cbn. destruct s; reflexivity.
  - rewrite (SFsub_finite prec emax), Z.sub_diag. reflexivity.
Qed.


Lemma SFdiv_zero_pos (r : spec_float) :
  is_pos r = true \/ r = S754_infinity false ->
  SFdiv prec emax (S754_zero false) r = S754_zero false.
Proof.
  intros [H| ->]; [|reflexivity].
  destruct r as [s|s| |[] m e]; try discriminate. reflexivity.
Qed.
End Monotone.

(** ** binary64: the impact analysis on Python floats *)

Lemma p64_pos : 0 < 53. Proof. lia. Qed.
Lemma e64_ge : 2 <= 1024. Proof. lia. Qed.

Lemma clip_cases {T} {A : Arith T} (x lo hi : T) :
  isnan x = false -> isnan lo = false -> ltb lo hi = true ->
  (clip x lo hi = x /\ ltb lo x = true /\ ltb x hi = true) \/
  (clip x lo hi = lo /\ ltb lo x = false) \/
  (clip x lo hi = hi /\ ltb lo x = true /\ ltb x hi = false).
Proof.
  intros Hx Hlo Hlh. unfold clip, npy_max, npy_min. rewrite Hx.
  destruct (ltb lo x) eqn:E1.
  - rewrite Hx. destruct (ltb x hi) eqn:E2; auto.
  - rewrite Hlo, Hlh. auto.
Qed.

Lemma SFltb_not_nan (a b : spec_float) :
  SFltb a b = true -> a <> S754_nan /\ b <> S754_nan.
Proof.
  unfold SFltb. destruct a, b; cbn; try discriminate; split; discriminate.
Qed.

Lemma SFleb_not_nan (a b : spec_float) :
  SFleb a b = true -> a <> S754_nan /\ b <> S754_nan.
Proof.
  unfold SFleb. destruct a, b; cbn; try discriminate; split; discriminate.
Qed.

Lemma SFltb_not_leb (a b : spec_float) : SFltb a b = true -> SFleb b a = false.
Proof.
  intros H. destruct (SFltb_not_nan a b H) as [Ha Hb].
  apply (SFltb_key a b Ha Hb) in H.
  destruct (SFleb b a) eqn:E; [|reflexivity].
  apply (SFleb_key b a Hb Ha) in E. rewrite lexcmp_antisym, H in E.
  exfalso. apply E. reflexivity.
Qed.

(** Below a threshold is below every higher threshold. *)
Lemma SFltb_leb_trans (s lo hi : spec_float) :
  SFltb s lo = true -> SFleb lo hi = true -> SFleb hi s = false.
Proof.
  intros H1 H2. destruct (SFltb_not_nan s lo H1) as [Hs Hlo].
  destruct (SFleb_not_nan lo hi H2) as [_ Hhi].
  destruct (SFleb hi s) eqn:E; [|reflexivity].
  pose proof (SFleb_trans lo hi s Hlo Hhi Hs H2 E) as H3.
  rewrite (SFltb_not_leb s lo H1) in H3. discriminate.
Qed.

Lemma category_of_bands64 (s : f64) :
  (leb (lit 80 1) s = true -> category_of s = "Excellent") /\
  (leb (lit 65 1) s = true -> ltb s (lit 80 1) = true -> category_of s = "Good") /\
  (leb (lit 50 1) s = true -> ltb s (lit 65 1) = true -> category_of s = "Moderate") /\
  (leb (lit 35 1) s = true -> ltb s (lit 50 1) = true -> category_of s = "Poor") /\
  (ltb s (lit 35 1) = true -> category_of s = "Very Poor") /\
  (isnan s = true -> category_of s = "Very Poor").
Proof.
  destruct s as [s]. unfold category_of. cbn [leb ltb isnan f64_arith f64_val].
  set (c80 := f64_val (lit 80 1)). set (c65 := f64_val (lit 65 1)).
  set (c50 := f64_val (lit 50 1)). set (c35 := f64_val (lit 35 1)).
  assert (H1 : SFleb c65 c80 = true) by (vm_compute; reflexivity).
  assert (H2 : SFleb c50 c65 = true) by (vm_compute; reflexivity).
  assert (H3 : SFleb c35 c50 = true) by (vm_compute; reflexivity).
  assert (H4 : SFleb c50 c80 = true) by (vm_compute; reflexivity).
  assert (H5 : SFleb c35 c65 = true) by (vm_compute; reflexivity).
  assert (H6 : SFleb c35 c80 = true) by (vm_compute; reflexivity).
  split; [intros ->; reflexivity|].
  split; [intros -> Hlt; rewrite (SFltb_not_leb _ _ Hlt); reflexivity|].
  split; [intros -> Hlt;
          rewrite (SFltb_leb_trans _ _ _ Hlt H1), (SFltb_not_leb _ _ Hlt); reflexivity|].
  split; [intros -> Hlt;
          rewrite (SFltb_leb_trans _ _ _ Hlt H4), (SFltb_leb_trans _ _ _ Hlt H2),
            (SFltb_not_leb _ _ Hlt); reflexivity|].
  split.
  - intros Hlt.
    rewrite (SFltb_leb_trans _ _ _ Hlt H6), (SFltb_leb_trans _ _ _ Hlt H5),
      (SFltb_leb_trans _ _ _ Hlt H3), (SFltb_not_leb _ _ Hlt). reflexivity.
  - destruct s; try discriminate. intros _. reflexivity.
Qed.

(** *** Entries of a finite summary *)

Lemma get_finite64 (m : gmap string f64) (k : string) :
  finite_summary m -> finite64 (get m k) = true.
Proof.
  intros Hm. unfold get. destruct (m !! k) as [v|] eqn:E; cbn [default].
  - exact (Hm k v E).
  - reflexivity.
Qed.

Lemma finite64_shape (x : f64) :
  finite64 x = true ->
  valid_binary 53 1024 (f64_val x) = true /\ SFfinite (f64_val x) = true.
Proof. unfold finite64. rewrite andb_true_iff. tauto. Qed.

(** *** Identical summaries *)



(** *** The confidence *)





(** *** Absent entries *)

Lemma change_pct_absent64 (before after : gmap string f64) (m : string) :
  before !! (m +:+ "_mean") = None -> after !! (m +:+ "_mean") = None ->
  change_pct E64 before after m = F64 (S754_zero false).
Proof.
  intros Hb Ha. unfold change_pct, get. rewrite Hb, Ha. cbn [default].
  vm_compute. reflexivity.
Qed.


Lemma finite_summary_list (l : list (string * f64)) :
  Forall (fun kv => finite64 (snd kv) = true) l -> finite_summary (list_to_map l).
Proof.
  induction 1 as [|[k v] l Hv _ IH]; cbn [list_to_map foldr].
  - apply map_Forall_empty.
  - apply map_Forall_insert_2; [exact Hv|exact IH].
Qed.


Lemma after_doubling_finite : finite_summary after_doubling.
Proof. apply finite_summary_list. repeat constructor. Qed.

(** ** Rounding does not fall below a representable bound *)

Section Above.
Variables prec emax : Z.
Hypothesis Hprec : 0 < prec.
Hypothesis Hemax : 2 <= emax.

Local Abbreviation emin := (SpecFloat.emin prec emax).
Local Abbreviation fexp := (SpecFloat.fexp prec emax).
Local Abbreviation outc := (outcome prec emax).

Lemma Zdigits2_full (m : Z) : 0 <= m -> Zdigits2 m = prec -> 2 ^ (prec - 1) <= m.
Proof.
  intros Hm0 Hd. assert (Hm : 0 < m).
  { destruct m as [|p|p]; [cbn in Hd; lia|lia|lia]. }
  rewrite Zdigits2_log2 in Hd by exact Hm.
  replace (prec - 1) with (Z.log2 m) by lia. apply Z.log2_spec, Hm.
Qed.

(** A shift that happened above [emin] leaves a full mantissa. *)
Lemma shr_fexp_full (m e : Z) (l : location) :
  0 < m ->
  e < snd (shr_fexp prec emax m e l) -> emin < snd (shr_fexp prec emax m e l) ->
  Zdigits2 (shr_m (fst (shr_fexp prec emax m e l))) = prec.
Proof.
  intros Hm He Hemin.
  destruct (shr_fexp_m prec emax m e l ltac:(lia)) as [Hsh _].
  pose proof (shr_fexp_spec prec emax Hprec m e l ltac:(lia)) as S. cbn zeta in S.
  destruct S as (_ & _ & _ & He' & _).
  pose proof (fexp_eq prec emax (Zdigits2 m + e)) as Hf.
  rewrite Hsh. set (e' := snd (shr_fexp prec emax m e l)) in *.
  rewrite Zdigits2_shiftr; lia.
Qed.

Lemma binary_round_aux_above (s : bool) (mx ex : Z) (lx : location) (mc ec : Z) :
  0 < mx -> 0 < mc -> Zdigits2 mc <= prec -> ec = fexp (Zdigits2 mc + ec) ->
  ex <= ec -> mc * 2 ^ (ec - ex) <= mx ->
  exists m e,
    binary_round_aux prec emax s mx ex lx = outc s m e /\
    0 < m /\ ec <= e /\ mc <= m * 2 ^ (e - ec) /\
    Zdigits2 m <= prec /\
    Zdigits2 m + e <= Z.max (Zdigits2 mx + ex) emin + 1.
Proof.
  intros Hmx Hmc Hdc Hcan Hex Hle. unfold binary_round_aux.
  pose proof (fexp_ge_emin prec emax (Zdigits2 mc + ec)) as Hecmin.
  rewrite <- Hcan in Hecmin.
  assert (Hmclt : mc < 2 ^ prec) by (apply Zdigits2_lt_pow2; lia).
  assert (Hpp : 2 ^ prec = 2 * 2 ^ (prec - 1)).
  { rewrite <- Z.pow_succ_r by lia. f_equal. lia. }
  destruct (shr_fexp_m prec emax mx ex lx ltac:(lia)) as [Hm1 He1].
  pose proof (shr_fexp_spec prec emax Hprec mx ex lx ltac:(lia)) as S1. cbn zeta in S1.
  pose proof (shr_fexp_full mx ex lx Hmx) as F1.
  destruct (shr_fexp prec emax mx ex lx) as [mrs' e'] eqn:E1. cbn [fst snd] in *.
  destruct S1 as (Hm' & _ & Hemin' & He' & Hd' & Hmag' & _).
  set (m1 := shr_m mrs') in *.
  set (m2 := round_nearest_even m1 (loc_of_shr_record mrs')).
  assert (Hm2 : m2 = m1 \/ m2 = m1 + 1) by apply round_nearest_even_cases.
  assert (Hdx : Zdigits2 mc + ec <= Zdigits2 mx + ex).
  { assert (Hb : 0 <= mc * 2 ^ (ec - ex) <= mx).
    { split; [|exact Hle]. apply Z.mul_nonneg_nonneg; [lia|]. apply Z.pow_nonneg. lia. }
    apply Zdigits2_le in Hb. rewrite Zdigits2_mul_pow2 in Hb by lia. lia. }
  assert (He'c : ec <= e').
  { pose proof (fexp_mono prec emax _ _ Hdx). lia. }
  (* the mantissa once shifted is at or above the bound *)
  assert (HA : 0 < m1 /\ mc <= m1 * 2 ^ (e' - ec)).
  { destruct (Z.eq_dec e' ec) as [Heq|Hne].
    - rewrite Heq, Z.sub_diag, Z.pow_0_r, Z.mul_1_r.
      assert (mc <= m1); [|lia].
      rewrite Hm1, Heq, Z.shiftr_div_pow2 by lia.
      apply Z.div_le_lower_bound; [apply Z.pow_pos_nonneg; lia|lia].
    - specialize (F1 ltac:(lia) ltac:(lia)). apply Zdigits2_full in F1; [|lia].
      assert (Hp1 : 0 < 2 ^ (prec - 1)) by (apply Z.pow_pos_nonneg; lia).
      destruct (pow2_ge_2 (e' - ec) ltac:(lia)) as (q & Hq & ->).
      split; [lia|]. nia. }
  destruct HA as [Hm1pos HA].
  assert (Hm2pos : 0 < m2) by lia.
  assert (Hd2 : Zdigits2 m2 <= Zdigits2 m1 + 1).
  { destruct Hm2 as [->| ->]; [lia|]. apply Zdigits2_succ. lia. }
  destruct (shr_fexp_m prec emax m2 e' loc_Exact ltac:(lia)) as [Hm3 He3].
  pose proof (shr_fexp_spec prec emax Hprec m2 e' loc_Exact ltac:(lia)) as S2.
  cbn zeta in S2.
  pose proof (shr_fexp_full m2 e' loc_Exact Hm2pos) as F2.
  destruct (shr_fexp prec emax m2 e' loc_Exact) as [mrs'' e''] eqn:E2. cbn [fst snd] in *.
  destruct S2 as (Hm'' & _ & _ & He'' & Hd'' & Hmag'' & _).
  exists (shr_m mrs''), e''.
  split; [unfold outcome; destruct (shr_m mrs''); reflexivity|].
  assert (Hmain : 0 < shr_m mrs'' /\ mc <= shr_m mrs'' * 2 ^ (e'' - ec)).
  { destruct (Z.eq_dec e'' e') as [Heq|Hne].
    - rewrite Hm3, Heq, Z.sub_diag, Z.shiftr_0_r. split; [lia|].
      assert (Hp : 0 < 2 ^ (e' - ec)) by (apply Z.pow_pos_nonneg; lia). nia.
    - specialize (F2 ltac:(lia) ltac:(lia)). apply Zdigits2_full in F2; [|lia].
      assert (Hp1 : 0 < 2 ^ (prec - 1)) by (apply Z.pow_pos_nonneg; lia).
      destruct (pow2_ge_2 (e'' - ec) ltac:(lia)) as (q & Hq & ->).
      split; [lia|]. nia. }
  destruct Hmain as [H1 H2].
  split; [exact H1|]. split; [lia|]. split; [exact H2|]. split; [exact Hd''|]. lia.
Qed.

Lemma binary_round_above (s : bool) (mx : positive) (ex : Z) (mc ec : Z) :
  0 < mc -> Zdigits2 mc <= prec -> ec = fexp (Zdigits2 mc + ec) ->
  ex <= ec -> mc * 2 ^ (ec - ex) <= Zpos mx ->
  exists m e,
    binary_round prec emax s mx ex = outc s m e /\
    0 < m /\ ec <= e /\ mc <= m * 2 ^ (e - ec) /\
    Zdigits2 m <= prec /\
    Zdigits2 m + e <= Z.max (Zdigits2 (Zpos mx) + ex) emin + 1.
Proof.
  intros Hmc Hdc Hcan Hex Hle. unfold binary_round.
  set (E := fexp (Zdigits2 (Zpos mx) + ex)).
  change (Zpos (digits2_pos mx)) with (Zdigits2 (Zpos mx)). fold E.
  destruct (shl_align_spec mx ex E) as [Hmz Hez].
  destruct (shl_align mx ex E) as [mz ez]. cbn [fst snd] in Hmz, Hez.
  assert (Hdz : Zdigits2 (Zpos mz) + ez = Zdigits2 (Zpos mx) + ex).
  { rewrite Hmz, Zdigits2_mul_pow2 by lia. lia. }
  rewrite <- Hdz.
  apply binary_round_aux_above; try assumption; try lia.
  rewrite Hmz, Hez.
  replace (ec - Z.min ex E) with ((ec - ex) + (ex - Z.min ex E)) by lia.
  rewrite Z.pow_add_r by lia.
  assert (Hp : 0 < 2 ^ (ex - Z.min ex E)) by (apply Z.pow_pos_nonneg; lia).
  nia.
Qed.

Lemma outcome_geb_pos (m e : Z) (mc : positive) (ec : Z) :
  0 < m -> ec <= e -> Zpos mc <= m * 2 ^ (e - ec) ->
  SFleb (S754_finite false mc ec) (outc false m e) = true.
Proof.
  intros Hm He Hle. unfold outcome. destruct m as [|p|p]; [lia| |lia].
  destruct (e <=? emax - prec); [|reflexivity].
  unfold SFleb. cbn [SFcompare].
  destruct (Z.compare_spec ec e) as [Heq|Hlt|Hgt]; [|reflexivity|lia].
  subst e. rewrite Z.sub_diag, Z.pow_0_r, Z.mul_1_r in Hle.
  change (Pos.compare_cont Eq mc p) with (Pos.compare mc p).
  destruct (Pos.compare_spec mc p); try reflexivity. lia.
Qed.
End Above.

(** ** FVC in binary32: saturation *)


Lemma SFleb_finite_pos (m : positive) (e : Z) (m' : positive) (e' : Z) :
  SFleb (S754_finite false m e) (S754_finite false m' e') = true <->
  e < e' \/ (e = e' /\ Zpos m <= Zpos m').
Proof.
  unfold SFleb. cbn [SFcompare].
  change (Pos.compare_cont Eq m m') with (Pos.compare m m').
  destruct (Z.compare_spec e e') as [He|He|He].
  - destruct (Pos.compare_spec m m') as [Hm|Hm|Hm]; split; intros H;
      try reflexivity; try discriminate; try lia.
  - split; intros; [lia|reflexivity].
  - split; intros H; [discriminate|lia].
Qed.







End IEEE.

(* ===================================================================== *)
(** * Part V.  The impact analysis in both readings                       *)
(* ===================================================================== *)

Section ImpactAnalysis.
Local Open Scope Z_scope.



(** C4.  The category of a report is read off its impact score from the
    highest threshold down, each band closed at its lower edge: 80 and above
    is "Excellent", [65, 80) is "Good", [50, 65) is "Moderate", [35, 50) is
    "Poor", below 35 is "Very Poor" (as is a score that is not a number).
    At 80.0, 79.999, 50.0, 49.999 and 0.0 the labels are "Excellent", "Good",
    "Moderate", "Poor", "Very Poor".  Over exact numbers and in binary64
    alike. *)
Theorem category_follows_thresholds :
  (forall before after : gmap string Q,
     exists r, returns (_impact_analysis before after) r /\
       let s := impact_score r in
       (80 <= s -> category r = "Excellent")%Q /\
       (65 <= s < 80 -> category r = "Good")%Q /\
       (50 <= s < 65 -> category r = "Moderate")%Q /\
       (35 <= s < 50 -> category r = "Poor")%Q /\
       (s < 35 -> category r = "Very Poor")%Q) /\
  (forall before after : gmap string f64,
     exists r, returns (_impact_analysis before after) r /\
       let s := impact_score r in
       (leb (lit 80 1) s = true -> category r = "Excellent") /\
       (leb (lit 65 1) s = true -> ltb s (lit 80 1) = true -> category r = "Good") /\
       (leb (lit 50 1) s = true -> ltb s (lit 65 1) = true -> category r = "Moderate") /\
       (leb (lit 35 1) s = true -> ltb s (lit 50 1) = true -> category r = "Poor") /\
       (ltb s (lit 35 1) = true -> category r = "Very Poor") /\
       (isnan s = true -> category r = "Very Poor")) /\
  (category_of (80 # 1)%Q = "Excellent" /\
   category_of (79999 # 1000)%Q = "Good" /\
   category_of (50 # 1)%Q = "Moderate" /\
   category_of (49999 # 1000)%Q = "Poor" /\
   category_of (0 # 1)%Q = "Very Poor") /\
  (category_of (lit 80 1 : f64) = "Excellent" /\
   category_of (lit 79999 1000 : f64) = "Good" /\
   category_of (lit 50 1 : f64) = "Moderate" /\
   category_of (lit 49999 1000 : f64) = "Poor" /\
   category_of (lit 0 1 : f64) = "Very Poor").
Proof.
  split; [exact category_exact|].
  split; [|split; repeat split; vm_compute; reflexivity].
  intros before after. eexists. unfold returns.
  rewrite impact_analysis_run. cbn [fst]. split; [reflexivity|].
  cbn zeta. cbn [impact_score category]. apply category_of_bands64.
Qed.





(** C6 (as the code has it).  On the doubling scenario the stabiliser sits
    in every denominator, so each percent change falls short of 100:
    the NDVI change is [0.2 / 0.200001 * 100], the three others are
    [0.1 / 0.100001 * 100]; the weighted score is
    [0.4 * (20000000 / 200001) + 0.6 * (10000000 / 100001)], between 99.999
    and 100, the impact score is [50 + weighted_score / 2], between 99.9995
    and 100, the category is "Excellent" and the confidence is 70.  In
    binary64 the weighted score is the float 99.99920000699993, the impact
    score the float 99.99960000349996, the category "Excellent" and the
    confidence the float 70.0. *)
Theorem doubling_scenario_report :
  (exists r,
     returns (_impact_analysis (S:=Q) before_doubling after_doubling) r /\
     (ndvi_change_percent r == 20000000 # 200001)%Q /\
     (evi_change_percent r == 10000000 # 100001)%Q /\
     (fvc_change_percent r == 10000000 # 100001)%Q /\
     (lai_change_percent r == 10000000 # 100001)%Q /\
     (weighted_score r ==
        (4 # 10) * (20000000 # 200001) + (6 # 10) * (10000000 # 100001))%Q /\
     (99999 # 1000 < weighted_score r < 100)%Q /\
     (impact_score r == 50 + weighted_score r / 2)%Q /\
     (999995 # 10000 < impact_score r < 100)%Q /\
     category r = "Excellent" /\
     (confidence r == 70)%Q) /\
  (exists r,
     returns (_impact_analysis (S:=f64) before_doubling after_doubling) r /\
     weighted_score r = F64 (S754_finite false 7036818123263634 (-46)) /\
     impact_score r = F64 (S754_finite false 7036846270515017 (-46)) /\
     ltb (lit 99999 1000) (weighted_score r) = true /\
     ltb (weighted_score r) (lit 100 1) = true /\
     ltb (lit 999995 10000) (impact_score r) = true /\
     ltb (impact_score r) (lit 100 1) = true /\
     category r = "Excellent" /\
     confidence r = lit 70 1).
Proof.
  split; eexists; unfold returns; rewrite impact_analysis_run; cbn [fst];
    (split; [reflexivity|]); cbn zeta;
    cbn [impact_score confidence category ndvi_change_percent evi_change_percent
         fvc_change_percent lai_change_percent weighted_score];
    repeat split; vm_compute; reflexivity.
Qed.

(** C6 fails as stated: on the doubling scenario the weighted score and the
    impact score are below 100, over exact numbers and in binary64 alike. *)
Lemma doubling_scenario_below_100 :
  (exists r,
     returns (_impact_analysis (S:=Q) before_doubling after_doubling) r /\
     (weighted_score r < 100)%Q /\ (impact_score r < 100)%Q) /\
  (exists r,
     returns (_impact_analysis (S:=f64) before_doubling after_doubling) r /\
     ltb (weighted_score r) (lit 100 1) = true /\
     ltb (impact_score r) (lit 100 1) = true).
Proof.
  split; eexists; unfold returns; rewrite impact_analysis_run; cbn [fst];
    (split; [reflexivity|]); cbn zeta; cbn [impact_score weighted_score];
    split; vm_compute; reflexivity.
Qed.

(** C10.  The analysis returns a report for every pair of mappings, complete
    or not, in either reading.  A key that is absent is read as 0.0: putting
    0.0 under an absent key of either summary leaves the report unchanged;
    and a metric whose mean is absent from both summaries has percent
    change 0, the float [0.0] in binary64. *)
Theorem missing_entries_read_as_zero :
  (forall (S : Type) (AS : Arith S) (before after : gmap string S),
     exists r,
       returns (_impact_analysis before after) r /\
       (forall k, before !! k = None ->
          returns (_impact_analysis (<[k := lit 0 1]> before) after) r) /\
       (forall k, after !! k = None ->
          returns (_impact_analysis before (<[k := lit 0 1]> after)) r)) /\
  (forall before after : gmap string Q,
     exists r,
       returns (_impact_analysis before after) r /\
       forall m field, In (m, field) metrics ->
         before !! (m +:+ "_mean") = None -> after !! (m +:+ "_mean") = None ->
         (field r == 0)%Q) /\
  (forall before after : gmap string f64,
     exists r,
       returns (_impact_analysis before after) r /\
       forall m field, In (m, field) metrics ->
         before !! (m +:+ "_mean") = None -> after !! (m +:+ "_mean") = None ->
         field r = lit 0 1).
Proof.
  split; [intros S AS; apply absent_key_reads_as_default|].
  split; intros before after; eexists; unfold returns;
    (split; [rewrite impact_analysis_run; reflexivity|]);
    intros m field Hin Hb Ha; cbn zeta;
    cbn in Hin; destruct Hin as [H|[H|[H|[H|[]]]]]; inversion H; subst m field;
    cbn [ndvi_change_percent evi_change_percent fvc_change_percent lai_change_percent].
  1-4: apply change_pct_absent; assumption.
  all: apply change_pct_absent64; assumption.
Qed.

Lemma missing_entries_read_as_zero_witness :
  exists r,
    returns (_impact_analysis (S:=f64) ∅ ∅) r /\
    ndvi_change_percent r = lit 0 1 /\ lai_change_percent r = lit 0 1.
Proof.
  destruct (proj2 (proj2 missing_entries_read_as_zero) ∅ ∅) as (r & Hr & Hz).
  exists r. split; [exact Hr|]. split.
  - apply (Hz "ndvi" ndvi_change_percent); [left; reflexivity| |]; apply lookup_empty.
  - apply (Hz "lai" lai_change_percent);
      [right; right; right; left; reflexivity| |]; apply lookup_empty.
Defined.
End ImpactAnalysis.

(* ===================================================================== *)
(** * Part VI.  Images in and out                                         *)
(* ===================================================================== *)

Section Codec.
Local Open Scope Z_scope.

(** ** The 256 levels of a channel *)

Lemma normalize_unit (b : Byte.byte) : unit32 (normalize b) = true.
Proof. destruct b; vm_compute; reflexivity. Qed.

Lemma normalize_pixel_unit (px : Byte.byte * Byte.byte * Byte.byte) :
  unit_pixel (normalize_pixel px) = true.
Proof.
  destruct px as [[c0 c1] c2]. unfold normalize_pixel, unit_pixel.
  rewrite !normalize_unit. reflexivity.
Qed.

Lemma quantize_clipped_normalize (undef : spec_float -> Byte.byte) (b : Byte.byte) :
  quantize_clipped undef (normalize b) = b.
Proof. destruct b; vm_compute; reflexivity. Qed.

Lemma quantize_normalize (undef : spec_float -> Byte.byte) (b : Byte.byte) :
  quantize undef (normalize b) = b.
Proof. destruct b; vm_compute; reflexivity. Qed.
End Codec.

(* ===================================================================== *)
(** * Part VII.  The summary of a raster, whatever the arithmetic         *)
(* ===================================================================== *)

Section Summary.
Context {S F : Type} {AS : Arith S} {AF : Arith F} {D : Dtype S F} {L : Libm F}.

Lemma concat_map2d {A B} (f : A -> B) (a : list (list A)) :
  concat (map2d f a) = map f (concat a).
Proof. unfold map2d. symmetry. apply concat_map. Qed.

Lemma concat_clip2d (a : IndexRaster F) (lo hi : S) :
  concat (clip2d a lo hi) = map (fun x => clip x (cast lo) (cast hi)) (concat a).
Proof. apply concat_map2d. Qed.

Lemma metrics_summary_empty (arr : IndexRaster F) (g : Globals S) :
  concat arr = [] -> _metrics_summary arr g = (Raise ValueError, g).
Proof. intros H. rewrite metrics_summary_run, H. reflexivity. Qed.

Lemma metrics_summary_nonempty (arr : IndexRaster F) (g : Globals S) :
  concat arr <> [] -> exists s, _metrics_summary arr g = (Ok s, g).
Proof.
  intros H. rewrite metrics_summary_run.
  destruct (concat arr) as [|x rest]; [congruence|]. eauto.
Qed.

Lemma record_stats_ok (out : gmap string S) (key : string) (data : IndexRaster F)
    (g : Globals S) (s : Stats S) :
  _metrics_summary data g = (Ok s, g) ->
  record_stats out (key, data) g =
  (Ok (<[key +:+ "_min" := min s]>
         (<[key +:+ "_max" := max s]>
            (<[key +:+ "_std" := std s]>
               (<[key +:+ "_mean" := mean s]> out)))), g).
Proof.
  intros H. unfold record_stats, mbind, Py_bind, bind. rewrite H. reflexivity.
Qed.

Lemma record_stats_raise (out : gmap string S) (key : string) (data : IndexRaster F)
    (g : Globals S) (e : exn) :
  _metrics_summary data g = (Raise e, g) ->
  record_stats out (key, data) g = (Raise e, g).
Proof.
  intros H. unfold record_stats, mbind, Py_bind, bind. rewrite H. reflexivity.
Qed.

(** The six index rasters have one element per pixel. *)
Lemma index_rasters_shape (rgb : Raster F) (g : Globals S) :
  exists idx, fst (_compute_indices rgb g) = Ok idx /\
    map fst idx = index_names /\
    Forall (fun item => map (@length F) (snd item) = map (@length (Pixel F)) rgb) idx.
Proof.
  eexists. rewrite compute_indices_run. cbn [fst]. split; [reflexivity|].
  split; [reflexivity|].
  repeat constructor; cbn [snd]; unfold clip2d, map2d;
    rewrite ?map_map; apply map_ext; intros row; rewrite ?length_map; reflexivity.
Qed.

Lemma index_rasters_empty (rgb : Raster F) (g : Globals S) (idx : list (string * IndexRaster F)) :
  fst (_compute_indices rgb g) = Ok idx ->
  Forall (fun item => concat (snd item) = [] <-> concat rgb = []) idx.
Proof.
  rewrite compute_indices_run. cbn [fst]. intros [= <-].
  repeat constructor; cbn [snd]; rewrite concat_clip2d, ?concat_map2d;
    destruct (concat rgb); cbn; intros; congruence.
Qed.

(** What [_compute_metrics] does, item by item. *)
Lemma compute_metrics_unfold (rgb : Raster F) (g : Globals S) :
  _compute_metrics rgb g =
  match fst (_compute_indices rgb g) with
  | Ok idx => for_each idx record_stats ∅ g
  | Raise e => (Raise e, g)
  end.
Proof. reflexivity. Qed.

Lemma compute_metrics_empty (rgb : Raster F) (g : Globals S) :
  concat rgb = [] -> _compute_metrics rgb g = (Raise ValueError, g).
Proof.
  intros H. rewrite compute_metrics_unfold, compute_indices_run. cbn [fst].
  rewrite for_each_cons.
  rewrite (record_stats_raise _ _ _ _ ValueError); [reflexivity|].
  apply metrics_summary_empty. rewrite concat_clip2d, concat_map2d, H. reflexivity.
Qed.

Lemma compute_metrics_nonempty (rgb : Raster F) (g : Globals S) :
  concat rgb <> [] ->
  exists idx m,
    fst (_compute_indices rgb g) = Ok idx /\
    _compute_metrics rgb g = (Ok m, g) /\
    Forall (fun item =>
      exists s, _metrics_summary (snd item) g = (Ok s, g) /\
        m !! (fst item +:+ "_mean") = Some (mean s) /\
        m !! (fst item +:+ "_std") = Some (std s) /\
        m !! (fst item +:+ "_max") = Some (max s) /\
        m !! (fst item +:+ "_min") = Some (min s)) idx.
Proof.
  intros H. set (eps := EPS g).
  assert (Hne : forall (f : Pixel F -> F) lo hi,
            concat (clip2d (map2d f rgb) lo hi) <> []).
  { intros f lo hi. rewrite concat_clip2d, concat_map2d.
    destruct (concat rgb); [congruence|discriminate]. }
  assert (Hne2 : forall (f : Pixel F -> F) (h : F -> F) lo hi,
            concat (clip2d (map2d h (map2d f rgb)) lo hi) <> []).
  { intros f h lo hi. rewrite concat_clip2d, !concat_map2d.
    destruct (concat rgb); [congruence|discriminate]. }
  assert (Hne3 : forall (f : Pixel F -> F) (h k : F -> F) lo hi,
            concat (clip2d (map2d k (map2d h (map2d f rgb))) lo hi) <> []).
  { intros f h k lo hi. rewrite concat_clip2d, !concat_map2d.
    destruct (concat rgb); [congruence|discriminate]. }
  destruct (metrics_summary_nonempty _ g (Hne (vndvi eps) (neg (lit 1 1)) (lit 1 1))) as [s1 E1].
  destruct (metrics_summary_nonempty _ g (Hne (evi eps) (neg (lit 1 1)) (lit 1 1))) as [s2 E2].
  destruct (metrics_summary_nonempty _ g (Hne (ndwi eps) (neg (lit 1 1)) (lit 1 1))) as [s3 E3].
  destruct (metrics_summary_nonempty _ g (Hne (savi eps) (neg (lit 1 1)) (lit 1 1))) as [s4 E4].
  destruct (metrics_summary_nonempty _ g (Hne2 (vndvi eps) (fvc eps) (lit 0 1) (lit 1 1))) as [s5 E5].
  destruct (metrics_summary_nonempty _ g
              (Hne3 (vndvi eps) (fvc eps) (lai eps) (lit 0 1) (lit 6 1))) as [s6 E6].
  eexists. eexists.
  rewrite compute_metrics_unfold, compute_indices_run. cbn [fst]. fold eps.
  split; [reflexivity|].
  rewrite for_each_cons, (record_stats_ok _ _ _ _ _ E1).
  rewrite for_each_cons, (record_stats_ok _ _ _ _ _ E2).
  rewrite for_each_cons, (record_stats_ok _ _ _ _ _ E3).
  rewrite for_each_cons, (record_stats_ok _ _ _ _ _ E4).
  rewrite for_each_cons, (record_stats_ok _ _ _ _ _ E5).
  rewrite for_each_cons, (record_stats_ok _ _ _ _ _ E6).
  split; [reflexivity|].
  repeat constructor; cbn [fst snd];
    [exists s1|exists s2|exists s3|exists s4|exists s5|exists s6];
    (split; [assumption|]); cbn [String.append];
    repeat split;
    repeat (rewrite lookup_insert_ne by discriminate); apply lookup_insert_eq.
Qed.

(** X1.  [_metrics_summary] and [_compute_metrics] fail exactly on a raster
    without pixels (no row, or rows of no pixel): [nanmax] refuses the empty
    array and the call raises [ValueError], leaving the module state as it
    was; on every raster with a pixel both return.  Whatever the
    arithmetic. *)
Theorem summary_fails_exactly_without_pixels (rgb : Raster F) (arr : IndexRaster F)
    (g : Globals S) :
  match concat arr with
  | [] => _metrics_summary arr g = (Raise ValueError, g)
  | _ :: _ => exists s, _metrics_summary arr g = (Ok s, g)
  end /\
  match concat rgb with
  | [] => _compute_metrics rgb g = (Raise ValueError, g)
  | _ :: _ => exists m, _compute_metrics rgb g = (Ok m, g)
  end.
Proof.
  split.
  - destruct (concat arr) as [|x rest] eqn:E.
    + apply metrics_summary_empty, E.
    + apply metrics_summary_nonempty. rewrite E. discriminate.
  - destruct (concat rgb) as [|x rest] eqn:E.
    + apply compute_metrics_empty, E.
    + destruct (compute_metrics_nonempty rgb g) as (idx & m & _ & Hm & _).
      { rewrite E. discriminate. }
      exists m. exact Hm.
Qed.

(** X2.  [_compute_indices] returns on every raster, six rasters under the
    six names, each with one value per pixel; and when [_compute_metrics]
    returns, every statistic of every index raster is found under its own
    key [{index}_{stat}]: no assignment of the loop overwrites another.
    [_compute_metrics] fails only on a raster without pixels. *)
Theorem compute_metrics_stores_each_statistic (rgb : Raster F) (g : Globals S) :
  match fst (_compute_indices rgb g), fst (_compute_metrics rgb g) with
  | Ok idx, Ok m =>
      map fst idx = index_names /\
      Forall (fun item =>
        map (@length F) (snd item) = map (@length (Pixel F)) rgb /\
        exists s, fst (_metrics_summary (snd item) g) = Ok s /\
          m !! (fst item +:+ "_mean") = Some (mean s) /\
          m !! (fst item +:+ "_std") = Some (std s) /\
          m !! (fst item +:+ "_max") = Some (max s) /\
          m !! (fst item +:+ "_min") = Some (min s)) idx
  | Ok _, Raise _ => concat rgb = []
  | Raise _, _ => False
  end.
Proof.
  destruct (index_rasters_shape rgb g) as (idx & Hidx & Hnames & Hshape).
  rewrite Hidx.
  destruct (concat rgb) as [|x rest] eqn:E.
  - rewrite (compute_metrics_empty rgb g E). reflexivity.
  - destruct (compute_metrics_nonempty rgb g) as (idx' & m & Hidx' & Hm & Hall).
    { rewrite E. discriminate. }
    rewrite Hm. cbn [fst]. rewrite Hidx in Hidx'. injection Hidx' as <-.
    split; [exact Hnames|].
    rewrite Forall_forall in Hshape, Hall. apply Forall_forall. intros item Hin.
    split; [apply Hshape, Hin|].
    destruct (Hall item Hin) as (s & Hs & Hl). exists s.
    split; [exact (f_equal fst Hs)|exact Hl].
Qed.

(** ** NaN entries are left out *)







Section Fold.
Variable op : F -> F -> F.
Hypothesis op_nan_l : forall a b, isnan a = true -> op a b = b.
Hypothesis op_nan_r : forall a b, isnan a = false -> isnan b = true -> op a b = a.
Hypothesis op_not_nan : forall a b, isnan a = false -> isnan b = false -> isnan (op a b) = false.



End Fold.


End Summary.

(* ===================================================================== *)
(** * Part VIII.  From the image file to the summary, in binary32         *)
(* ===================================================================== *)

Section DecodedPipeline.
Local Open Scope Z_scope.

(** ** What the decoder returns *)

Lemma byte_in_range (b : Byte.byte) :
  In b (omap Byte.of_N (map N.of_nat (seq 0 256))).
Proof.
  apply list_elem_of_In, list_elem_of_omap. exists (Byte.to_N b).
  split; [|apply Byte.of_to_N].
  apply list_elem_of_In, in_map_iff. exists (N.to_nat (Byte.to_N b)).
  split; [apply N2Nat.id|]. apply in_seq.
  pose proof (Byte.to_N_bounded b). lia.
Qed.

Lemma normalize_increasing (a b : Byte.byte) :
  (Byte.to_N a < Byte.to_N b)%N -> ltb (normalize a) (normalize b) = true.
Proof.
  intros Hlt.
  assert (H : (let L := map (fun b => (Byte.to_N b, normalize b))
                          (omap Byte.of_N (map N.of_nat (seq 0 256))) in
               forallb (fun p => forallb (fun q =>
                  implb (fst p <? fst q)%N (ltb (snd p) (snd q))) L) L) = true)
    by (vm_compute; reflexivity).
  cbv zeta in H. rewrite forallb_forall in H.
  specialize (H (Byte.to_N a, normalize a) (in_map _ _ _ (byte_in_range a))).
  rewrite forallb_forall in H.
  specialize (H (Byte.to_N b, normalize b) (in_map _ _ _ (byte_in_range b))).
  cbn [fst snd] in H. apply N.ltb_lt in Hlt. rewrite Hlt in H. exact H.
Qed.

Lemma to_rgb_array_cases (c : Codecs) (data : list Byte.byte) (rgb : Raster f32) :
  _to_rgb_array_from_bytes c data = inr rgb ->
  exists img : Image8,
    rgb = map2d normalize_pixel img /\
    ((HAS_CV2 c = true /\ exists bgr, cv2_imdecode c data = inr (Some bgr) /\
                                      img = cvtColor_swap bgr) \/
     (HAS_CV2 c = false /\ HAS_PIL c = true /\ pil_decode_rgb c data = inr img)).
Proof.
  unfold _to_rgb_array_from_bytes.
  destruct (HAS_CV2 c) eqn:Ecv.
  - destruct (cv2_imdecode c data) as [e|[bgr|]] eqn:Ed; try discriminate.
    intros [= <-]. exists (cvtColor_swap bgr). split; [reflexivity|].
    left. split; [reflexivity|]. exists bgr. auto.
  - destruct (HAS_PIL c) eqn:Epil; [|discriminate].
    destruct (pil_decode_rgb c data) as [e|img] eqn:Ed; [discriminate|].
    intros [= <-]. exists img. split; [reflexivity|]. right. auto.
Qed.

Lemma normalized_raster_unit (img : Image8) :
  all2d (fun px => unit_pixel px = true) (map2d normalize_pixel img).
Proof.
  apply (all2d_map2d (fun _ => True)).
  - intros px _. apply normalize_pixel_unit.
  - unfold all2d. apply Forall_forall. intros row _. apply Forall_forall. auto.
Qed.

(** X4.  Whatever the libraries decode, the raster that
    [_to_rgb_array_from_bytes] returns is a valid one: it has the shape of
    the decoded image and each channel value is one of 256 well-formed
    binary32 numbers in [0, 1].  The conversion sends 0 to the float [0.0],
    255 to the float [1.0], and keeps the order of the levels, strictly. *)
Theorem decoded_raster_is_valid :
  (forall (c : Codecs) (data : list Byte.byte) (rgb : Raster f32),
     _to_rgb_array_from_bytes c data = inr rgb ->
     all2d (fun px => unit_pixel px = true) rgb /\
     exists img : Image8,
       rgb = map2d normalize_pixel img /\
       map (@length _) rgb = map (@length _) img) /\
  normalize Byte.x00 = cast (lit 0 1 : f64) /\
  normalize Byte.xff = cast (lit 1 1 : f64) /\
  (forall a b : Byte.byte,
     (Byte.to_N a < Byte.to_N b)%N -> ltb (normalize a) (normalize b) = true).
Proof.
  split; [|split; [vm_compute; reflexivity|split; [vm_compute; reflexivity|]]].
  - intros c data rgb H.
    destruct (to_rgb_array_cases c data rgb H) as (img & -> & _).
    split; [apply normalized_raster_unit|].
    exists img. split; [reflexivity|].
    unfold map2d. rewrite map_map. apply map_ext. intros row. apply length_map.
  - exact normalize_increasing.
Qed.

Lemma decoded_raster_is_valid_witness :
  all2d (fun px => unit_pixel px = true)
    [[(normalize Byte.x00, normalize Byte.x80, normalize Byte.xff)]] /\
  ltb (normalize Byte.x7f) (normalize Byte.x80) = true.
Proof.
  split.
  - apply (proj1 decoded_raster_is_valid raw_codecs [Byte.x00; Byte.x80; Byte.xff]).
    reflexivity.
  - apply (proj2 (proj2 (proj2 decoded_raster_is_valid))). vm_compute. reflexivity.
Defined.

(** ** Back to 8 bits *)

Lemma quantize_normalized_raster (undef : spec_float -> Byte.byte) (img : Image8) :
  map2d (map_pixel (quantize_clipped undef)) (map2d normalize_pixel img) = img /\
  map2d (map_pixel (quantize undef)) (map2d normalize_pixel img) = img.
Proof.
  unfold map2d. rewrite !map_map.
  split; rewrite <- (map_id img) at 2; apply map_ext; intros row;
    rewrite map_map; rewrite <- (map_id row) at 2; apply map_ext;
    intros [[c0 c1] c2]; unfold normalize_pixel, map_pixel;
    rewrite ?quantize_clipped_normalize, ?quantize_normalize; reflexivity.
Qed.

Lemma cvtColor_swap_involutive (img : Image8) : cvtColor_swap (cvtColor_swap img) = img.
Proof.
  unfold cvtColor_swap. rewrite map_map. rewrite <- (map_id img) at 2.
  apply map_ext. intros row. rewrite map_map. rewrite <- (map_id row) at 2.
  apply map_ext. intros [[c0 c1] c2]. reflexivity.
Qed.

(** X5.  Converting a decoded raster back to 8 bits gives the decoded
    image again, level for level: multiplying by 255.0 and dropping the
    fraction undoes the division by 255.0 at each of the 256 levels, in
    binary32.  So the data URL [_to_data_url] builds from a raster that
    [_to_rgb_array_from_bytes] returned holds the encoding of the very
    pixels that were decoded (with OpenCV, in the B, G, R order they were
    decoded in), and the conversion never meets a value it is undefined
    on. *)
Theorem data_url_encodes_decoded_pixels
    (c : Codecs) (data : list Byte.byte) (rgb : Raster f32) (fmt : string) :
  _to_rgb_array_from_bytes c data = inr rgb ->
  exists img : Image8,
    rgb = map2d normalize_pixel img /\
    map2d (map_pixel (quantize_clipped (uint8_undefined c))) rgb = img /\
    map2d (map_pixel (quantize (uint8_undefined c))) rgb = img /\
    _to_data_url c rgb fmt =
      if HAS_PIL c then
        match pil_encode c img fmt with
        | inl e => inl e
        | inr buf =>
            inr ("data:"
                 +:+ (if String.eqb (upper fmt) "JPEG" then "image/jpeg" else "image/png")
                 +:+ ";base64," +:+ b64encode c buf)
        end
      else
        match cv2_imencode_jpg c (cvtColor_swap img) with
        | inl e => inl e
        | inr (ok, buf) =>
            if ok then inr ("data:image/jpeg;base64," +:+ b64encode c buf)
            else inl (PyValueError "Failed to encode image")
        end.
Proof.
  intros H. destruct (to_rgb_array_cases c data rgb H) as (img & -> & Hlib).
  destruct (quantize_normalized_raster (uint8_undefined c) img) as [Hq1 Hq2].
  exists img. split; [reflexivity|]. split; [exact Hq1|]. split; [exact Hq2|].
  unfold _to_data_url. rewrite Hq1, Hq2.
  destruct (HAS_PIL c) eqn:Epil; [reflexivity|].
  destruct Hlib as [(Ecv & _)|(_ & Epil' & _)]; [|congruence].
  rewrite Ecv. reflexivity.
Qed.

Lemma data_url_encodes_decoded_pixels_witness :
  exists img : Image8,
    [[(normalize Byte.x00, normalize Byte.x80, normalize Byte.xff)]]
      = map2d normalize_pixel img /\
    map2d (map_pixel (quantize_clipped (uint8_undefined raw_codecs)))
      [[(normalize Byte.x00, normalize Byte.x80, normalize Byte.xff)]] = img /\
    map2d (map_pixel (quantize (uint8_undefined raw_codecs)))
      [[(normalize Byte.x00, normalize Byte.x80, normalize Byte.xff)]] = img /\
    _to_data_url raw_codecs
      [[(normalize Byte.x00, normalize Byte.x80, normalize Byte.xff)]] "JPEG" =
    inr ("data:image/jpeg;base64," +:+
         b64encode raw_codecs (bytes_of_pixels img)).
Proof.
  exact (data_url_encodes_decoded_pixels raw_codecs [Byte.x00; Byte.x80; Byte.xff]
           _ "JPEG" eq_refl).
Defined.
End DecodedPipeline.

Section Extremes.
Local Open Scope Z_scope.
Variable logf : spec_float -> spec_float.
Hypothesis logf_defined : forall x, is_pos x = true -> SFisnan (logf x) = false.

(** ** The extremes of the six rasters *)

(** The six rasters of a valid raster, each within its range. *)
Lemma index_rasters_within (rgb : Raster f32) :
  all2d (fun px => unit_pixel px = true) rgb ->
  match fst (_compute_indices (L:=f32_libm logf) rgb module_globals) with
  | Ok idx =>
      Forall2 (fun item range =>
                 fst item = fst range /\
                 all2d (fun v => within32 (fst (snd range)) (snd (snd range)) v = true)
                       (snd item))
              idx (index_ranges (S:=f64))
  | Raise _ => False
  end.
Proof.
  intros Hrgb. rewrite compute_indices_run. cbn [fst].
  unfold clip2d.
  assert (Hndvi : all2d (fun v : f32 => isnan v = false) (map2d (vndvi E64) rgb)).
  { eapply all2d_map2d; [|exact Hrgb]. intros [[R G] B]. apply vndvi32_not_nan. }
  assert (Hfvc : all2d (fun f : f32 => isnan f = false /\ wfb 24 128 (f32_val f) = true)
                   (map2d (fvc E64) (map2d (vndvi E64) rgb))).
  { eapply all2d_map2d; [|exact Hndvi]. intros v. apply fvc32_shape. }
  unfold index_ranges.
  repeat constructor; cbn [fst snd].
  - eapply all2d_map2d; [|exact Hndvi]. intros v Hv.
    apply within32_clip; [exact Hv|reflexivity|reflexivity|reflexivity].
  - eapply all2d_map2d; [|eapply all2d_map2d; [|exact Hrgb]].
    + intros v Hv. apply within32_clip; [exact Hv|reflexivity|reflexivity|reflexivity].
    + intros [[R G] B]. apply evi32_not_nan.
  - eapply all2d_map2d; [|eapply all2d_map2d; [|exact Hrgb]].
    + intros v Hv. apply within32_clip; [exact Hv|reflexivity|reflexivity|reflexivity].
    + intros [[R G] B]. apply ndwi32_not_nan.
  - eapply all2d_map2d; [|eapply all2d_map2d; [|exact Hrgb]].
    + intros v Hv. apply within32_clip; [exact Hv|reflexivity|reflexivity|reflexivity].
    + intros [[R G] B]. apply savi32_not_nan.
  - eapply all2d_map2d; [|exact Hfvc]. intros v [Hv _].
    apply within32_clip; [exact Hv|reflexivity|reflexivity|reflexivity].
  - eapply all2d_map2d; [|eapply all2d_map2d; [|exact Hfvc]].
    + intros v Hv. apply within32_clip; [exact Hv|reflexivity|reflexivity|reflexivity].
    + intros f [Hf Hw]. apply lai32_not_nan; assumption.
Qed.

Lemma within32_not_nan (lo hi : f64) (x : f32) :
  within32 lo hi x = true -> isnan x = false.
Proof.
  intros H. apply within32_shape in H. destruct H as (Hf & _).
  destruct x as [x]. unfold finite32 in Hf. cbn [f32_val isnan f32_arith] in *.
  destruct x; try discriminate; reflexivity.
Qed.

(** The maximum and the minimum of a raster whose values lie in a range. *)
Lemma extremes_within (lo hi : f64) (data : IndexRaster f32) (g : Globals f64)
    (s : Stats f64) :
  all2d (fun v => within32 lo hi v = true) data ->
  _metrics_summary (L:=f32_libm logf) data g = (Ok s, g) ->
  exists hi32 lo32 : f32,
    max s = widen hi32 /\ min s = widen lo32 /\
    In hi32 (concat data) /\ In lo32 (concat data) /\
    within32 lo hi hi32 = true /\ within32 lo hi lo32 = true /\
    leb lo32 hi32 = true /\
    Forall (fun v => leb lo32 v = true /\ leb v hi32 = true) (concat data).
Proof.
  intros Hall. rewrite metrics_summary_run.
  assert (Hflat : Forall (fun v => within32 lo hi v = true) (concat data))
    by (apply Forall_concat, Hall).
  destruct (concat data) as [|x rest]; [discriminate|].
  intros [= <-]. cbn [max min].
  assert (Hnn : Forall (fun v : f32 => isnan v = false) (x :: rest)).
  { eapply Forall_impl; [exact Hflat|]. intros v. apply within32_not_nan. }
  destruct (fold_fmax32_greatest rest x Hnn) as (_ & Hi1 & Hg1).
  destruct (fold_fmin32_least rest x Hnn) as (_ & Hi2 & Hg2).
  pose proof (proj1 (List.Forall_forall _ _) Hflat) as Hin.
  exists (fold_left fmax rest x), (fold_left fmin rest x).
  split; [reflexivity|]. split; [reflexivity|].
  split; [exact Hi1|]. split; [exact Hi2|].
  split; [apply Hin, Hi1|]. split; [apply Hin, Hi2|].
  split; [apply Hg2, Hi1|].
  apply List.Forall_forall. intros v Hv. split; [apply Hg2, Hv|apply Hg1, Hv].
Qed.

Lemma Forall2_Forall_r {A B} (R : A -> B -> Prop) (Q : A -> Prop) (P : B -> Prop)
    (l1 : list A) (l2 : list B) :
  (forall a b, R a b -> Q a -> P b) -> Forall2 R l1 l2 -> Forall Q l1 -> Forall P l2.
Proof.
  intros H HR. induction HR as [|a b l1 l2 Hab _ IH]; intros HQ; constructor.
  - apply (H a b Hab). exact (Forall_inv HQ).
  - apply IH. exact (Forall_inv_tail HQ).
Qed.

Lemma summary_extremes (rgb : Raster f32) :
  all2d (fun px => unit_pixel px = true) rgb -> concat rgb <> [] ->
  exists m,
    returns (_compute_metrics (L:=f32_libm logf) rgb) m /\
    Forall (fun range =>
      exists hi32 lo32 : f32,
        m !! (fst range +:+ "_max") = Some (widen hi32) /\
        m !! (fst range +:+ "_min") = Some (widen lo32) /\
        within32 (fst (snd range)) (snd (snd range)) hi32 = true /\
        within32 (fst (snd range)) (snd (snd range)) lo32 = true /\
        leb lo32 hi32 = true) (index_ranges (S:=f64)).
Proof.
  intros Hrgb Hne.
  destruct (compute_metrics_nonempty (L:=f32_libm logf) rgb module_globals Hne)
    as (idx & m & Hidx & Hm & Hall).
  exists m. split; [unfold returns; rewrite Hm; reflexivity|].
  pose proof (index_rasters_within rgb Hrgb) as Hw. rewrite Hidx in Hw.
  refine (Forall2_Forall_r _ _ _ _ _ _ Hw Hall).
  intros [key data] [key' [lo hi]] [Hk Hd] (s & Hs & _ & _ & Hmax & Hmin).
  cbn [fst snd] in *. subst key'.
  destruct (extremes_within lo hi data module_globals s Hd Hs)
    as (hi32 & lo32 & Ehi & Elo & _ & _ & Hwh & Hwl & Hle & _).
  exists hi32, lo32. rewrite <- Ehi, <- Elo. auto.
Qed.
End Extremes.

(** X6.  On a valid raster with at least one pixel [_compute_metrics]
    returns, and for each of the six indices the maximum and the minimum it
    stores are binary32 numbers of the index raster (widened by [float]),
    finite and within the range of the index -- NDVI, EVI, NDWI and SAVI in
    [-1, 1], FVC in [0, 1], LAI in [0, 6] -- the minimum not above the
    maximum.  This holds in particular for every raster with a pixel that
    [_to_rgb_array_from_bytes] returns.  The logarithm is the platform's,
    asked only to give a number on every positive finite float. *)
Theorem summary_extremes_within_range (logf : spec_float -> spec_float) :
  (forall x, is_pos x = true -> SFisnan (logf x) = false) ->
  (forall rgb : Raster f32,
     all2d (fun px => unit_pixel px = true) rgb -> concat rgb <> [] ->
     exists m,
       returns (_compute_metrics (L:=f32_libm logf) rgb) m /\
       Forall (fun range =>
         exists hi32 lo32 : f32,
           m !! (fst range +:+ "_max") = Some (widen hi32) /\
           m !! (fst range +:+ "_min") = Some (widen lo32) /\
           within32 (fst (snd range)) (snd (snd range)) hi32 = true /\
           within32 (fst (snd range)) (snd (snd range)) lo32 = true /\
           leb lo32 hi32 = true) (index_ranges (S:=f64))) /\
  (forall (c : Codecs) (data : list Byte.byte) (rgb : Raster f32),
     _to_rgb_array_from_bytes c data = inr rgb -> concat rgb <> [] ->
     exists m,
       returns (_compute_metrics (L:=f32_libm logf) rgb) m /\
       Forall (fun range =>
         exists hi32 lo32 : f32,
           m !! (fst range +:+ "_max") = Some (widen hi32) /\
           m !! (fst range +:+ "_min") = Some (widen lo32) /\
           within32 (fst (snd range)) (snd (snd range)) hi32 = true /\
           within32 (fst (snd range)) (snd (snd range)) lo32 = true /\
           leb lo32 hi32 = true) (index_ranges (S:=f64))).
Proof.
  intros Hlog. split.
  - intros rgb. apply summary_extremes, Hlog.
  - intros c data rgb Hdec Hne.
    destruct (to_rgb_array_cases c data rgb Hdec) as (img & -> & _).
    apply summary_extremes; [exact Hlog|apply normalized_raster_unit|exact Hne].
Qed.

Lemma summary_extremes_within_range_witness :
  exists m,
    returns (_compute_metrics (L:=f32_libm log2_floor) degenerate_raster) m /\
    Forall (fun range =>
      exists hi32 lo32 : f32,
        m !! (fst range +:+ "_max") = Some (widen hi32) /\
        m !! (fst range +:+ "_min") = Some (widen lo32) /\
        within32 (fst (snd range)) (snd (snd range)) hi32 = true /\
        within32 (fst (snd range)) (snd (snd range)) lo32 = true /\
        leb lo32 hi32 = true) (index_ranges (S:=f64)).
Proof.
  apply (proj1 (summary_extremes_within_range log2_floor log2_floor_defined)
           degenerate_raster degenerate_raster_unit).
  discriminate.
Defined.

(* ===================================================================== *)
(** * Part IX.  More of the exact reading                                 *)
(* ===================================================================== *)

Section ExactSummary.
Local Open Scope Q_scope.
Context {L : Libm Q}.

(** ** The mean lies between the extremes *)






End ExactSummary.

Section ExactImpactMore.
Local Open Scope Q_scope.

(** ** The score as a function of the means *)

Lemma eps_pos : 0 < EPS (module_globals (S:=Q)).
Proof. reflexivity. Qed.

Lemma change_pct_den_pos (b : Q) : 0 < Qabs b + EPS (module_globals (S:=Q)).
Proof. pose proof (Qabs_nonneg b). pose proof eps_pos. lra. Qed.

Lemma Qdiv_nonneg (x d : Q) : 0 <= x -> 0 < d -> 0 <= x / d.
Proof. intros Hx Hd. apply Qle_shift_div_l; [exact Hd|]. lra. Qed.


Lemma change_pct_sign (before after : gmap string Q) (k : string) :
  (get before (k +:+ "_mean") <= get after (k +:+ "_mean") ->
   0 <= change_pct (EPS module_globals) before after k) /\
  (get after (k +:+ "_mean") <= get before (k +:+ "_mean") ->
   change_pct (EPS module_globals) before after k <= 0) /\
  (0 <= get before (k +:+ "_mean") -> 0 <= get after (k +:+ "_mean") ->
   - (100) < change_pct (EPS module_globals) before after k).
Proof.
  unfold change_pct.
  pose proof (change_pct_den_pos (get before (k +:+ "_mean"))) as Hd.
  set (b := get before (k +:+ "_mean")) in *.
  set (a := get after (k +:+ "_mean")) in *.
  change (fabs b + EPS module_globals)%num with (Qabs b + EPS module_globals).
  set (d := Qabs b + EPS module_globals) in *.
  change ((a - b) / d * lit 100 1)%num with ((a - b) / d * (100 # 1)).
  split; [|split].
  - intros H. pose proof (Qdiv_nonneg (a - b) d ltac:(lra) Hd). lra.
  - intros H. pose proof (Qdiv_nonneg (b - a) d ltac:(lra) Hd) as H1.
    assert (E : (a - b) / d == - ((b - a) / d)) by (field; lra). lra.
  - intros Hb Ha.
    assert (Hdb : d == b + EPS module_globals).
    { unfold d. rewrite Qabs_pos by exact Hb. reflexivity. }
    pose proof eps_pos as He.
    set (e := EPS module_globals) in *. clearbody d e a b.
    assert (E0 : a - b == (a + e) - d) by lra.
    assert (E : (a - b) / d == (a + e) / d - 1) by (rewrite E0; field; lra).
    assert (H2 : 0 < (a + e) / d).
    { apply Qlt_shift_div_l; [exact Hd|]. lra. }
    lra.
Qed.





Lemma weighted_sign (c1 c2 c3 c4 : Q) :
  (0 <= c1 -> 0 <= c2 -> 0 <= c3 -> 0 <= c4 -> 0 <= weighted c1 c2 c3 c4) /\
  (c1 <= 0 -> c2 <= 0 -> c3 <= 0 -> c4 <= 0 -> weighted c1 c2 c3 c4 <= 0) /\
  (-(100) < c1 -> -(100) < c2 -> -(100) < c3 -> -(100) < c4 ->
   -(100) < weighted c1 c2 c3 c4).
Proof. unfold weighted. qred. repeat split; intros; lra. Qed.



Lemma metric_cases {S} (P : string -> (ImpactReport S -> S) -> Prop) :
  P "ndvi" ndvi_change_percent -> P "evi" evi_change_percent ->
  P "fvc" fvc_change_percent -> P "lai" lai_change_percent ->
  forall m field, In (m, field) metrics -> P m field.
Proof.
  intros H1 H2 H3 H4 m field Hin. cbn in Hin.
  destruct Hin as [H|[H|[H|[H|[]]]]]; inversion H; subst; assumption.
Qed.


End ExactImpactMore.

(* ===================================================================== *)
(** * Part X.  The impact analysis at the edges of binary64               *)
(* ===================================================================== *)

Section Edges.
Local Open Scope Z_scope.

(** ** A NaN among the entries *)

Lemma isnan64 (x : f64) : isnan x = true -> f64_val x = S754_nan.
Proof. destruct x as [[]]; cbn; congruence. Qed.

Lemma add_nan64 (x y : f64) :
  isnan x = true \/ isnan y = true -> isnan (x + y)%num = true.
Proof.
  destruct x as [x], y as [y]. cbn [isnan add f64_arith f64_val].
  intros [H|H]; destruct x, y; try discriminate; reflexivity.
Qed.

Lemma sub_nan64 (x y : f64) :
  isnan x = true \/ isnan y = true -> isnan (x - y)%num = true.
Proof.
  destruct x as [x], y as [y]. cbn [isnan sub f64_arith f64_val].
  intros [H|H]; destruct x, y; try discriminate; reflexivity.
Qed.

Lemma mul_nan64 (x y : f64) :
  isnan x = true \/ isnan y = true -> isnan (x * y)%num = true.
Proof.
  destruct x as [x], y as [y]. cbn [isnan mul f64_arith f64_val].
  intros [H|H]; destruct x, y; try discriminate; reflexivity.
Qed.

Lemma div_nan64 (x y : f64) :
  isnan x = true \/ isnan y = true -> isnan (x / y)%num = true.
Proof.
  destruct x as [x], y as [y]. cbn [isnan div f64_arith f64_val].
  intros [H|H]; destruct x, y; try discriminate; reflexivity.
Qed.

Lemma fabs_nan64 (x : f64) : isnan x = true -> isnan (fabs x) = true.
Proof. destruct x as [[]]; cbn; congruence. Qed.

Lemma clip_nan {T} {A : Arith T} (x lo hi : T) :
  isnan x = true -> clip x lo hi = x.
Proof. intros H. unfold clip, npy_max, npy_min. rewrite H, H. reflexivity. Qed.

Lemma change_pct_nan64 (before after : gmap string f64) (m : string) :
  isnan (get before (m +:+ "_mean")) = true \/ isnan (get after (m +:+ "_mean")) = true ->
  isnan (change_pct E64 before after m) = true.
Proof.
  intros H. unfold change_pct. apply mul_nan64. left. apply div_nan64. left.
  apply sub_nan64. tauto.
Qed.

Lemma weighted_nan64 (c1 c2 c3 c4 : f64) :
  isnan c1 = true \/ isnan c2 = true \/ isnan c3 = true \/ isnan c4 = true ->
  isnan (weighted c1 c2 c3 c4) = true.
Proof.
  intros H. unfold weighted.
  destruct H as [H|[H|[H|H]]].
  - do 3 (apply add_nan64; left). apply mul_nan64. auto.
  - do 2 (apply add_nan64; left). apply add_nan64. right. apply mul_nan64. auto.
  - apply add_nan64. left. apply add_nan64. right. apply mul_nan64. auto.
  - apply add_nan64. right. apply mul_nan64. auto.
Qed.

Lemma score_of_nan64 (w : f64) :
  isnan w = true -> isnan (score_of w) = true /\ category_of (score_of w) = "Very Poor".
Proof.
  intros H. unfold score_of.
  assert (Hs : isnan (lit 50 1 + w / lit 2 1)%num = true).
  { apply add_nan64. right. apply div_nan64. auto. }
  rewrite (clip_nan _ _ _ Hs). split; [exact Hs|].
  apply (category_of_bands64 _), Hs.
Qed.

Lemma noise_of_nan64 (before after : gmap string f64) (m : string) :
  In m ["ndvi"; "evi"; "fvc"; "lai"] ->
  isnan (get before (m +:+ "_std")) = true \/ isnan (get after (m +:+ "_std")) = true ->
  isnan (noise_of before after) = true.
Proof.
  intros Hin H.
  assert (Ht : isnan (fabs (get before (m +:+ "_std") - get after (m +:+ "_std"))%num) = true)
    by (apply fabs_nan64, sub_nan64, H).
  unfold noise_of. cbn [map fold_left].
  destruct Hin as [<-|[<-|[<-|[<-|[]]]]].
  - do 3 (apply add_nan64; left). apply add_nan64. auto.
  - do 2 (apply add_nan64; left). apply add_nan64. auto.
  - apply add_nan64. left. apply add_nan64. auto.
  - apply add_nan64. auto.
Qed.

Lemma confidence_of_nan64 (noise : f64) :
  isnan noise = true -> isnan (confidence_of noise) = true.
Proof.
  intros H. unfold confidence_of.
  assert (Hs : isnan (lit 70 1 - noise * lit 5 1)%num = true).
  { apply sub_nan64. right. apply mul_nan64. auto. }
  rewrite (clip_nan _ _ _ Hs). exact Hs.
Qed.

(** X10.  In binary64 a NaN is not clamped away.  If one of the four means
    the analysis reads is NaN, in either summary, the percent change of that
    metric, the weighted score and the impact score are NaN, outside
    [0, 100], and the category is "Very Poor", the label of the last
    [else]; if one of the four standard deviations is NaN the confidence is
    NaN, outside [50, 95].  The call returns all the same. *)
Theorem nan_entry_gives_nan_report (before after : gmap string f64) :
  exists r,
    returns (_impact_analysis before after) r /\
    (forall m field, In (m, field) metrics ->
       isnan (get before (m +:+ "_mean")) = true \/
       isnan (get after (m +:+ "_mean")) = true ->
       isnan (field r) = true /\
       isnan (weighted_score r) = true /\
       isnan (impact_score r) = true /\
       category r = "Very Poor") /\
    (forall m field, In (m, field) (metrics (S:=f64)) ->
       isnan (get before (m +:+ "_std")) = true \/
       isnan (get after (m +:+ "_std")) = true ->
       isnan (confidence r) = true).
Proof.
  eexists. unfold returns. rewrite impact_analysis_run. cbn [fst].
  split; [reflexivity|]. cbn zeta.
  cbn [impact_score confidence category weighted_score].
  change (EPS module_globals) with E64.
  split.
  - intros m field Hin H.
    pose proof (change_pct_nan64 before after m H) as Hc.
    assert (Hw : isnan (weighted (change_pct E64 before after "ndvi")
                          (change_pct E64 before after "evi")
                          (change_pct E64 before after "fvc")
                          (change_pct E64 before after "lai")) = true).
    { apply weighted_nan64. revert m field Hin H Hc.
      refine (metric_cases (fun m _ => _ -> isnan (change_pct E64 before after m) = true -> _)
                _ _ _ _); intros _ Hc; auto. }
    split; [|split; [exact Hw|apply score_of_nan64, Hw]].
    revert m field Hin H Hc.
    refine (metric_cases (fun m field => _ -> isnan (change_pct E64 before after m) = true ->
                                         isnan (field _) = true) _ _ _ _);
      intros _ Hc; exact Hc.
  - intros m field Hin H. apply confidence_of_nan64.
    apply (noise_of_nan64 before after m); [|exact H].
    revert m field Hin H.
    refine (metric_cases (fun m _ => _ -> In m ["ndvi"; "evi"; "fvc"; "lai"]) _ _ _ _);
      intros _; cbn; auto.
Qed.

(** ** Swapping the two summaries *)

Lemma SFabs_binary_round (prec emax : Z) (s : bool) (m : positive) (e : Z) :
  SFabs (binary_round prec emax s m e) = SFabs (binary_round prec emax false m e).
Proof.
  unfold binary_round.
  destruct (shl_align m e (fexp prec emax (Z.pos (digits2_pos m) + e))) as [mz ez].
  unfold binary_round_aux.
  destruct (shr_fexp prec emax (Z.pos mz) ez loc_Exact) as [mrs' e'].
  destruct (shr_fexp prec emax _ e' loc_Exact) as [mrs'' e''].
  destruct (shr_m mrs''); try reflexivity.
  destruct (e'' <=? emax - prec); reflexivity.
Qed.

Lemma SFabs_binary_normalize_opp (prec emax : Z) (M e : Z) :
  SFabs (binary_normalize prec emax (- M) e false)
  = SFabs (binary_normalize prec emax M e false).
Proof.
  destruct M as [|p|p]; cbn [Z.opp binary_normalize]; [reflexivity| |].
  - apply SFabs_binary_round.
  - symmetry. apply SFabs_binary_round.
Qed.

Lemma SFabs_sub_comm (prec emax : Z) (x y : spec_float) :
  SFabs (SFsub prec emax x y) = SFabs (SFsub prec emax y x).
Proof.
  destruct x as [sx|sx| |sx mx ex], y as [sy|sy| |sy my ey];
    try reflexivity; try (destruct sx, sy; reflexivity).
  rewrite !(SFsub_finite prec emax), (Z.min_comm ey ex).
  rewrite <- SFabs_binary_normalize_opp. f_equal. f_equal. lia.
Qed.

Lemma noise_of_comm64 (before after : gmap string f64) :
  noise_of before after = noise_of after before.
Proof.
  unfold noise_of. cbn [map fold_left fabs sub f64_arith f64_val].
  rewrite !(SFabs_sub_comm _ _ (f64_val (get before _))). reflexivity.
Qed.

Lemma Qabs_sub_comm (a b : Q) : Qabs (a - b) = Qabs (b - a).
Proof.
  destruct a as [na da], b as [nb db]. unfold Qminus, Qplus, Qopp, Qabs.
  cbn [Qnum Qden]. f_equal.
  - rewrite <- Z.abs_opp. f_equal. ring.
  - apply Pos.mul_comm.
Qed.

Lemma noise_of_commQ (before after : gmap string Q) :
  noise_of before after = noise_of after before.
Proof.
  unfold noise_of. cbn [map fold_left]. qred.
  rewrite !(Qabs_sub_comm (get before _)). reflexivity.
Qed.

(** X11.  The confidence does not depend on which summary is the earlier
    one: swapping the before-summary and the after-summary leaves it
    unchanged, over exact numbers and bit for bit in binary64, whatever the
    entries (a NaN or an infinity included). *)
Theorem confidence_is_symmetric :
  (forall before after : gmap string Q,
     exists r r',
       returns (_impact_analysis before after) r /\
       returns (_impact_analysis after before) r' /\
       confidence r = confidence r') /\
  (forall before after : gmap string f64,
     exists r r',
       returns (_impact_analysis before after) r /\
       returns (_impact_analysis after before) r' /\
       confidence r = confidence r').
Proof.
  split; intros before after; eexists; eexists; unfold returns;
    rewrite !impact_analysis_run; cbn [fst];
    (split; [reflexivity|]); (split; [reflexivity|]); cbn zeta; cbn [confidence].
  - rewrite (noise_of_commQ before after). reflexivity.
  - rewrite (noise_of_comm64 before after). reflexivity.
Qed.
End Edges.

(* ===================================================================== *)
(** * Part XI.  Flat regions of the indices, in binary32                  *)
(* ===================================================================== *)

Section Flat.
Local Open Scope Z_scope.

(** ** Numbers that are not positive *)

Section Sign.
Variables prec emax : Z.
Hypothesis Hprec : 0 < prec.
Hypothesis Hemax : 2 <= emax.

Lemma valid_binary_digits (s : bool) (m : positive) (e : Z) :
  valid_binary prec emax (S754_finite s m e) = true ->
  e = fexp prec emax (Zdigits2 (Zpos m) + e) /\ Zdigits2 (Zpos m) <= prec /\
  e <= emax - prec.
Proof.
  cbn [valid_binary]. unfold bounded, canonical_mantissa.
  rewrite andb_true_iff, Z.eqb_eq, Z.leb_le.
  change (Zpos (digits2_pos m)) with (Zdigits2 (Zpos m)).
  intros [Hc He]. rewrite (fexp_eq prec emax) in *. lia.
Qed.

(** Among canonical positive floats the order of [SFleb] is the order of
    the values. *)
Lemma canonical_leb_aligned (mx : positive) (ex : Z) (my : positive) (ey : Z) (ez : Z) :
  ex = fexp prec emax (Zdigits2 (Zpos mx) + ex) ->
  ey = fexp prec emax (Zdigits2 (Zpos my) + ey) ->
  ez <= ex -> ez <= ey ->
  SFleb (S754_finite false mx ex) (S754_finite false my ey) = true ->
  aligned false mx ex ez <= aligned false my ey ez.
Proof.
  intros Hx Hy Hzx Hzy Hle. apply SFleb_finite_pos in Hle.
  unfold aligned. cbn [cond_Zopp].
  rewrite (fexp_eq prec emax) in Hx, Hy.
  pose proof (emin_eq prec emax) as Hemin.
  destruct Hle as [Hlt|[-> Hm]].
  - assert (Hdy : Zdigits2 (Zpos my) = prec) by lia.
    assert (Hdx : Zdigits2 (Zpos mx) <= prec) by lia.
    pose proof (Zdigits2_lt_pow2 (Zpos mx) prec ltac:(lia) ltac:(lia) Hdx) as Hmx.
    pose proof (Zdigits2_full prec Hprec (Zpos my) ltac:(lia) Hdy) as Hmy.
    assert (Hpp : 2 ^ prec = 2 * 2 ^ (prec - 1)).
    { rewrite <- Z.pow_succ_r by lia. f_equal. lia. }
    replace (ey - ez) with ((ey - ex) + (ex - ez)) by lia.
    rewrite Z.pow_add_r by lia.
    assert (Hp : 0 < 2 ^ (ex - ez)) by (apply Z.pow_pos_nonneg; lia).
    destruct (pow2_ge_2 (ey - ex) ltac:(lia)) as (q & Hq & ->).
    assert (H1 : Zpos mx <= Zpos my * (2 * q)) by nia.
    rewrite Z.mul_assoc. apply Z.mul_le_mono_nonneg_r; lia.
  - assert (Hp : 0 < 2 ^ (ey - ez)) by (apply Z.pow_pos_nonneg; lia). nia.
Qed.

Lemma outcome_nonpos (m e : Z) :
  0 <= m -> is_nonpos_or_inf (outcome prec emax true m e) = true.
Proof.
  intros Hm. unfold outcome. destruct m; [reflexivity| |lia].
  destruct (e <=? emax - prec); reflexivity.
Qed.

(** [x - c] is not positive when [x <= c], for a canonical positive [c]. *)
Lemma SFsub_nonpos (x : spec_float) (mc : positive) (ec : Z) :
  valid_binary prec emax x = true ->
  ec = fexp prec emax (Zdigits2 (Zpos mc) + ec) ->
  SFleb x (S754_finite false mc ec) = true ->
  is_nonpos_or_inf (SFsub prec emax x (S754_finite false mc ec)) = true.
Proof.
  intros Hv Hc Hle. destruct x as [s|s| |s m e]; try discriminate.
  - reflexivity.
  - destruct s; [reflexivity|discriminate].
  - rewrite (SFsub_finite prec emax).
    set (ez := Z.min e ec).
    set (M := aligned s m e ez - aligned false mc ec ez).
    assert (HM : M <= 0).
    { unfold M. destruct s.
      - pose proof (aligned_pos m e ez ltac:(unfold ez; lia)).
        pose proof (aligned_pos mc ec ez ltac:(unfold ez; lia)).
        unfold aligned in *. cbn [cond_Zopp] in *. lia.
      - destruct (valid_binary_digits false m e Hv) as (Hcx & _).
        pose proof (canonical_leb_aligned m e mc ec ez Hcx Hc
                      ltac:(unfold ez; lia) ltac:(unfold ez; lia) Hle). lia. }
    destruct M as [|p|p] eqn:EM; [reflexivity|lia|]. cbn [binary_normalize].
    destruct (binary_round_spec prec emax Hprec Hemax true p ez) as (m' & e' & -> & Hm & _).
    apply outcome_nonpos, Hm.
Qed.

(** A quotient of a number that is not positive by a positive one is not
    positive. *)
Lemma SFdiv_nonpos (x : spec_float) (my : positive) (ey : Z) :
  is_nonpos_or_inf x = true ->
  is_nonpos_or_inf (SFdiv prec emax x (S754_finite false my ey)) = true.
Proof.
  intros Hx. destruct x as [s|[]| |[] m e]; try discriminate; try reflexivity.
  cbn [SFdiv xorb].
  pose proof (SFdiv_core_nonneg prec emax m e my ey) as Hq.
  destruct (SFdiv_core_binary prec emax (Zpos m) e (Zpos my) ey) as [[mz ez] lz].
  cbn [fst] in Hq.
  destruct (binary_round_aux_spec prec emax Hprec Hemax true mz ez lz Hq)
    as (m' & e' & -> & Hm & _).
  apply outcome_nonpos, Hm.
Qed.
End Sign.

(** A number that is not positive is clipped to the lower bound [0.0]. *)
Lemma clip32_nonpos (x : spec_float) (hi : f32) :
  is_nonpos_or_inf x = true -> ltb (cast (lit 0 1 : f64)) hi = true ->
  clip (F32 x) (cast (lit 0 1 : f64)) hi = cast (lit 0 1 : f64).
Proof.
  intros Hx Hhi. destruct hi as [hi].
  change (cast (lit 0 1 : f64) : f32) with (F32 (S754_zero false)) in *.
  unfold clip, npy_max, npy_min. cbn [isnan ltb f32_arith f32_val] in *.
  assert (Hn : SFisnan x = false) by (destruct x; try discriminate; reflexivity).
  assert (Hlt : SFltb (S754_zero false) x = false).
  { destruct x as [s|[]| |[] m e]; try discriminate; reflexivity. }
  rewrite Hn, Hlt. cbn [f32_val SFisnan]. rewrite Hhi. reflexivity.
Qed.

(** ** FVC at and below the soil anchor *)

Lemma fvc32_zero (v : f32) :
  valid_binary 24 128 (f32_val v) = true ->
  leb v (cast (ndvi_soil (S:=f64))) = true ->
  fvc (S:=f64) (F:=f32) E64 v = cast (lit 0 1 : f64).
Proof.
  intros Hv Hle. destruct v as [x]. cbn [f32_val] in Hv.
  assert (Hsoil : (cast (ndvi_soil (S:=f64)) : f32) = F32 (S754_finite false 13421773 (-26)))
    by (vm_compute; reflexivity).
  assert (Hspan : (cast (ndvi_veg - ndvi_soil + E64)%num : f32)
                  = F32 (S754_finite false 11072979 (-24)))
    by (vm_compute; reflexivity).
  rewrite Hsoil in Hle. cbn [leb f32_arith f32_val] in Hle.
  unfold fvc. rewrite Hsoil, Hspan. cbn [sub div f32_arith f32_val].
  change B32.prec with 24. change B32.emax with 128.
  pose proof (SFsub_nonpos 24 128 p32_pos e32_ge x 13421773 (-26) Hv eq_refl Hle) as Hd.
  pose proof (SFdiv_nonpos 24 128 p32_pos e32_ge _ 11072979 (-24) Hd) as Hq.
  assert (H01 : ltb (cast (lit 0 1 : f64) : f32) (cast (lit 1 1 : f64)) = true)
    by (vm_compute; reflexivity).
  rewrite (clip32_nonpos _ _ Hq H01). vm_compute. reflexivity.
Qed.

Lemma fvc_shape_exact (v : Q) :
  (0 <= fvc (EPS module_globals) v <= 1)%Q /\
  ((fvc (EPS module_globals) v == 0)%Q <-> (v <= 2 # 10)%Q) /\
  ((2 # 10 < v)%Q -> (v < (86 # 100) + EPS module_globals)%Q ->
   (fvc (EPS module_globals) v ==
      ((v - (2 # 10)) / (660001 # 1000000)) * ((v - (2 # 10)) / (660001 # 1000000)))%Q /\
   (0 < fvc (EPS module_globals) v < 1)%Q).
Proof.
  destruct (fvc_unfold v) as (q & Hq & ->).
  assert (He : (EPS (module_globals (S:=Q)) == 1 # 1000000)%Q) by reflexivity.
  destruct (Qclip_cases q 0 1 ltac:(reflexivity)) as [[H ->]|[(H1 & H2 & ->)|[H ->]]].
  - split; [lra|]. split; [split; intros; [lra|reflexivity]|].
    intros; exfalso; lra.
  - split; [nra|]. split; [split; intros; exfalso; nra|].
    intros _ _. split; [|nra].
    assert (E : (q == (v - (2 # 10)) / (660001 # 1000000))%Q).
    { rewrite <- Hq. field. }
    rewrite <- E. reflexivity.
  - split; [lra|]. split; [split; intros; exfalso; lra|].
    intros; exfalso; lra.
Qed.

(** X12.  FVC is 0 exactly up to the soil anchor: over exact numbers it
    lies in [0, 1], it is 0 if and only if NDVI <= 0.2, and strictly between
    the anchors 0.2 and 0.86 + EPS it is the square of
    [(NDVI - 0.2) / 0.660001], strictly between 0 and 1; in binary32 it is
    the float [0.0] for every NDVI, minus infinity included, that is not
    above the float 0.2. *)
Theorem fvc_is_zero_up_to_soil_anchor :
  (forall v : Q,
     (0 <= fvc (EPS module_globals) v <= 1)%Q /\
     ((fvc (EPS module_globals) v == 0)%Q <-> (v <= 2 # 10)%Q) /\
     ((2 # 10 < v)%Q -> (v < (86 # 100) + EPS module_globals)%Q ->
      (fvc (EPS module_globals) v ==
         ((v - (2 # 10)) / (660001 # 1000000))
         * ((v - (2 # 10)) / (660001 # 1000000)))%Q /\
      (0 < fvc (EPS module_globals) v < 1)%Q)) /\
  (forall v : f32,
     valid_binary B32.prec B32.emax (f32_val v) = true ->
     leb v (cast (ndvi_soil (S:=f64))) = true ->
     fvc (S:=f64) (F:=f32) E64 v = cast (lit 0 1 : f64)).
Proof. split; [exact fvc_shape_exact|exact fvc32_zero]. Qed.

Lemma fvc_is_zero_up_to_soil_anchor_witness :
  ((fvc (EPS module_globals) (1 # 2) ==
      (((1 # 2) - (2 # 10)) / (660001 # 1000000))
      * (((1 # 2) - (2 # 10)) / (660001 # 1000000)))%Q /\
   (0 < fvc (EPS module_globals) (1 # 2) < 1)%Q) /\
  fvc (S:=f64) (F:=f32) E64 (cast (lit 1 10 : f64)) = cast (lit 0 1 : f64).
Proof.
  split.
  - apply (proj2 (proj2 (proj1 fvc_is_zero_up_to_soil_anchor (1 # 2)%Q)));
      vm_compute; reflexivity.
  - apply (proj2 fvc_is_zero_up_to_soil_anchor (cast (lit 1 10 : f64)));
      vm_compute; reflexivity.
Defined.

(** ** A grey pixel *)

Lemma unit32_finite (x : f32) : unit32 x = true -> SFfinite (f32_val x) = true.
Proof.
  intros H. apply unit32_shape in H. destruct H as [H _].
  destruct (f32_val x); try discriminate; reflexivity.
Qed.

Lemma grey_vndvi (x B : f32) :
  unit32 x = true -> vndvi E64 (x, x, B) = cast (lit 0 1 : f64).
Proof.
  intros Hx. pose proof (unit32_finite x Hx) as Hf.
  destruct (unit32_shape x Hx) as [Hfin Hnn].
  unfold vndvi. cbn [add sub div f32_arith f32_val].
  change B32.prec with 24. change B32.emax with 128.
  change (f32_val (cast E64)) with eps32.
  rewrite (SFsub_diag 24 128 _ Hf).
  destruct (sum_plus_eps_pos _ _ Hfin Hnn Hfin Hnn) as [_ Hp].
  rewrite (SFdiv_zero_pos 24 128 _ (or_introl Hp)). reflexivity.
Qed.

Lemma grey_ndwi (R x : f32) :
  unit32 x = true -> ndwi E64 (R, x, x) = cast (lit 0 1 : f64).
Proof.
  intros Hx. pose proof (unit32_finite x Hx) as Hf.
  destruct (unit32_shape x Hx) as [Hfin Hnn].
  unfold ndwi. cbn [add sub div f32_arith f32_val].
  change B32.prec with 24. change B32.emax with 128.
  change (f32_val (cast E64)) with eps32.
  rewrite (SFsub_diag 24 128 _ Hf).
  destruct (sum_plus_eps_pos _ _ Hfin Hnn Hfin Hnn) as [_ Hp].
  rewrite (SFdiv_zero_pos 24 128 _ (or_introl Hp)). reflexivity.
Qed.

Lemma grey_savi (x B : f32) :
  unit32 x = true -> savi E64 (x, x, B) = cast (lit 0 1 : f64).
Proof.
  intros Hx. pose proof (unit32_finite x Hx) as Hf.
  destruct (unit32_shape x Hx) as [HG HnG].
  unfold savi. cbn [add sub mul div f32_arith f32_val].
  change B32.prec with 24. change B32.emax with 128.
  change (f32_val (cast E64)) with eps32.
  rewrite (SFsub_diag 24 128 _ Hf).
  set (c15 := f32_val (cast (lit 15 10))).
  set (c05 := f32_val (cast (lit 5 10))).
  assert (H05 : fin_leb 24 128 0 c05 = true) by reflexivity.
  assert (He : fin_leb 24 128 (-19) eps32 = true) by reflexivity.
  pose proof (SFadd_fin 24 128 p32_pos e32_ge 1 1 _ _ HG HG ltac:(lia)) as Hs.
  pose proof (SFadd_nonneg 24 128 p32_pos e32_ge _ _ HnG HnG) as [_ Hnn].
  pose proof (is_nonneg_of_sum _ _ Hs Hnn) as Hsn.
  pose proof (SFadd_fin 24 128 p32_pos e32_ge _ _ _ _ Hs H05 ltac:(lia)) as Hs2.
  pose proof (SFadd_pos 24 128 p32_pos e32_ge _ _ _ _ Hs H05 ltac:(lia) Hsn eq_refl) as Hp2.
  pose proof (is_pos_nonneg _ Hp2) as Hn2.
  pose proof (SFadd_pos 24 128 p32_pos e32_ge _ _ _ _ Hs2 He ltac:(lia) Hn2 eq_refl) as Hp3.
  assert (E15 : SFmul 24 128 c15 (S754_zero false) = S754_zero false) by reflexivity.
  rewrite E15.
  rewrite (SFdiv_zero_pos 24 128 _ (or_introl Hp3)). reflexivity.
Qed.

Lemma grey_evi (x : f32) :
  unit32 x = true -> is_zero32 (evi E64 (x, x, x)) = true.
Proof.
  intros Hx. pose proof (unit32_finite x Hx) as Hf.
  destruct (unit32_shape x Hx) as [HR HnR].
  unfold evi, is_zero32. cbn [add sub mul div f32_arith f32_val].
  change (f32_val (cast E64)) with eps32.
  change (f32_val (cast (lit 1 1))) with one32.
  set (c25 := f32_val (cast (lit 25 10))).
  set (c6 := f32_val (cast (lit 6 1))).
  set (c75 := f32_val (cast (lit 75 10))).
  assert (H6 : fin_leb 24 128 3 c6 = true) by reflexivity.
  assert (H75 : fin_leb 24 128 3 c75 = true) by reflexivity.
  assert (H1 : fin_leb 24 128 1 one32 = true) by reflexivity.
  change B32.prec with 24. change B32.emax with 128.
  rewrite (SFsub_diag 24 128 _ Hf).
  pose proof (SFmul_fin 24 128 p32_pos e32_ge _ _ _ _ H6 HR ltac:(lia) ltac:(lia)) as Ht1.
  pose proof (SFadd_fin 24 128 p32_pos e32_ge _ _ _ _ HR Ht1 ltac:(rewrite emin_eq; lia)) as Ht2.
  pose proof (SFmul_fin 24 128 p32_pos e32_ge _ _ _ _ H75 HR ltac:(lia) ltac:(lia)) as Ht3.
  pose proof (SFsub_fin 24 128 p32_pos e32_ge _ _ _ _ Ht2 Ht3 ltac:(rewrite emin_eq; lia)) as Ht4.
  pose proof (SFadd_fin 24 128 p32_pos e32_ge _ _ _ _ Ht4 H1 ltac:(rewrite emin_eq; lia)) as Ht5.
  pose proof (add_one_ne_neg_eps _ _ Ht4) as Hne.
  destruct (add_eps_finite _ _ Ht5 ltac:(rewrite emin_eq; lia) Hne) as (s & m & e & Hden).
  rewrite Hden.
  assert (E25 : SFmul 24 128 c25 (S754_zero false) = S754_zero false) by reflexivity.
  rewrite E25. reflexivity.
Qed.

Lemma clip32_zero (x : f32) (lo hi : f32) :
  is_zero32 x = true ->
  ltb lo (cast (lit 0 1 : f64)) = true -> ltb (cast (lit 0 1 : f64)) hi = true ->
  is_zero32 (clip x lo hi) = true.
Proof.
  destruct x as [x], lo as [lo], hi as [hi]. unfold is_zero32.
  cbn [f32_val ltb f32_arith].
  change (f32_val (cast (lit 0 1))) with (S754_zero false).
  destruct x as [s| | |]; try discriminate. intros _ Hlo Hhi.
  unfold clip, npy_max, npy_min. cbn [isnan ltb f32_arith f32_val SFisnan].
  assert (H1 : SFltb lo (S754_zero s) = true).
  { destruct lo as [?|[]| |[] ? ?]; try discriminate; reflexivity. }
  assert (H2 : SFltb (S754_zero s) hi = true).
  { destruct hi as [?|[]| |[] ? ?]; try discriminate; reflexivity. }
  rewrite H1. cbn [f32_val SFisnan]. rewrite H2. reflexivity.
Qed.

Section GreyLai.
Variable logf : spec_float -> spec_float.
Hypothesis logf_nonneg :
  forall x, valid_binary B32.prec B32.emax x = true -> SFleb one32 x = true ->
            SFleb (S754_zero false) (logf x) = true.

Lemma grey_lai :
  clip (lai (L:=f32_libm logf) E64 (cast (lit 0 1 : f64)))
       (cast (lit 0 1 : f64)) (cast (lit 6 1 : f64)) = cast (lit 0 1 : f64).
Proof.
  assert (E : lai (L:=f32_libm logf) E64 (cast (lit 0 1 : f64))
              = F32 (SFopp (logf (S754_finite false 8388616 (-23))))) by reflexivity.
  rewrite E.
  pose proof (logf_nonneg (S754_finite false 8388616 (-23)) eq_refl eq_refl) as Hl.
  apply clip32_nonpos; [|vm_compute; reflexivity].
  destruct (logf (S754_finite false 8388616 (-23))) as [s|[]| |[] m e];
    try discriminate; reflexivity.
Qed.

Lemma grey_raster_indices (rgb : Raster f32) :
  all2d (fun px => unit_pixel px = true /\ grey px) rgb ->
  exists idx,
    returns (_compute_indices (L:=f32_libm logf) rgb) idx /\
    map fst idx = index_names /\
    Forall (fun item => all2d (fun v => is_zero32 v = true) (snd item)) idx.
Proof.
  intros Hrgb. eexists. unfold returns. rewrite compute_indices_run. cbn [fst].
  split; [reflexivity|]. split; [reflexivity|].
  assert (Hz0 : is_zero32 (cast (lit 0 1 : f64)) = true) by reflexivity.
  assert (Hc : forall x : f32, is_zero32 x = true ->
            is_zero32 (clip x (cast (neg (lit 1 1) : f64)) (cast (lit 1 1 : f64))) = true).
  { intros x Hx. apply clip32_zero; [exact Hx| |]; vm_compute; reflexivity. }
  assert (Hndvi : all2d (fun v : f32 => v = cast (lit 0 1 : f64)) (map2d (vndvi E64) rgb)).
  { eapply all2d_map2d; [|exact Hrgb]. intros px [Hu [x ->]].
    apply grey_vndvi. unfold unit_pixel in Hu. rewrite !andb_true_iff in Hu. tauto. }
  assert (Hfvc : all2d (fun v : f32 => v = cast (lit 0 1 : f64))
                   (map2d (fvc E64) (map2d (vndvi E64) rgb))).
  { eapply all2d_map2d; [|exact Hndvi]. intros v ->. vm_compute. reflexivity. }
  unfold clip2d.
  repeat constructor; cbn [snd].
  - eapply all2d_map2d; [|exact Hndvi]. intros v ->. apply Hc, Hz0.
  - eapply all2d_map2d; [|eapply all2d_map2d; [|exact Hrgb]].
    + intros v Hv. apply Hc, Hv.
    + intros px [Hu [x ->]]. apply grey_evi.
      unfold unit_pixel in Hu. rewrite !andb_true_iff in Hu. tauto.
  - eapply all2d_map2d; [|eapply all2d_map2d; [|exact Hrgb]].
    + intros v Hv. apply Hc, Hv.
    + intros px [Hu [x ->]]. rewrite grey_ndwi; [exact Hz0|].
      unfold unit_pixel in Hu. rewrite !andb_true_iff in Hu. tauto.
  - eapply all2d_map2d; [|eapply all2d_map2d; [|exact Hrgb]].
    + intros v Hv. apply Hc, Hv.
    + intros px [Hu [x ->]]. rewrite grey_savi; [exact Hz0|].
      unfold unit_pixel in Hu. rewrite !andb_true_iff in Hu. tauto.
  - eapply all2d_map2d; [|exact Hfvc]. intros v ->. vm_compute. reflexivity.
  - eapply all2d_map2d;
      [|eapply (all2d_map2d _ (fun v : f32 =>
                   v = lai (L:=f32_libm logf) E64 (cast (lit 0 1 : f64))));
        [|exact Hfvc]].
    + intros v ->. cbv beta. rewrite grey_lai. exact Hz0.
    + intros f ->. reflexivity.
Qed.
End GreyLai.

(** The stand-in for the logarithm is not negative from 1 on. *)
Lemma log2_floor_nonneg (x : spec_float) :
  valid_binary B32.prec B32.emax x = true -> SFleb one32 x = true ->
  SFleb (S754_zero false) (log2_floor x) = true.
Proof.
  intros Hv Hle. destruct x as [s|[]| |[] m e]; try discriminate; try reflexivity.
  destruct (valid_binary_digits 24 128 false m e Hv) as (Hc & Hd & _).
  unfold one32 in Hle. apply SFleb_finite_pos in Hle.
  rewrite (fexp_eq 24 128), (emin_eq 24 128) in Hc.
  assert (Hz : 0 <= Zdigits2 (Zpos m) + e - 1).
  { destruct Hle as [Hlt|[He Hm]]; [lia|].
    pose proof (Zdigits2_ge_pow2 (Zpos m) 23 ltac:(lia)) as H.
    change (2 ^ 23) with 8388608 in H. specialize (H Hm). lia. }
  unfold log2_floor, B32.of_Z. change B32.prec with 24. change B32.emax with 128.
  destruct (binary_normalize_spec 24 128 p32_pos e32_ge (Zdigits2 (Zpos m) + e - 1) 0)
    as (m' & e' & -> & Hm' & _).
  assert (Hs : (Zdigits2 (Zpos m) + e - 1 <? 0) = false) by (apply Z.ltb_ge; lia).
  rewrite Hs.
  pose proof (outcome_nonneg_or_inf 24 128 m' e' Hm') as Ho.
  destruct (outcome 24 128 false m' e') as [?|[]| |[] ? ?]; try discriminate; reflexivity.
Qed.

(** A raster of three grey levels. *)
Lemma grey_levels_unit :
  all2d (fun px : Pixel f32 => unit_pixel px = true /\ grey px)
    [[ (normalize Byte.x00, normalize Byte.x00, normalize Byte.x00);
       (normalize Byte.x80, normalize Byte.x80, normalize Byte.x80);
       (normalize Byte.xff, normalize Byte.xff, normalize Byte.xff) ]].
Proof.
  repeat constructor; eexists; reflexivity.
Defined.

(** X13.  A grey image has no vegetation signal: on a valid raster whose
    pixels each hold one value in their three channels, every value of the
    six index rasters is zero, in binary32 (NDVI, NDWI, SAVI, FVC and LAI
    are the float [0.0]; the EVI is a zero of the sign of its
    denominator).  The logarithm is the platform's, asked only not to be
    negative from 1 on. *)
Theorem grey_raster_has_zero_indices
    (logf : spec_float -> spec_float) (rgb : Raster f32) :
  (forall x, valid_binary B32.prec B32.emax x = true -> SFleb one32 x = true ->
             SFleb (S754_zero false) (logf x) = true) ->
  all2d (fun px => unit_pixel px = true /\ grey px) rgb ->
  exists idx,
    returns (_compute_indices (L:=f32_libm logf) rgb) idx /\
    map fst idx = index_names /\
    Forall (fun item => all2d (fun v => is_zero32 v = true) (snd item)) idx.
Proof. intros Hlog. apply grey_raster_indices, Hlog. Qed.

Lemma grey_raster_has_zero_indices_witness :
  exists idx,
    returns (_compute_indices (L:=f32_libm log2_floor)
               [[ (normalize Byte.x00, normalize Byte.x00, normalize Byte.x00);
                  (normalize Byte.x80, normalize Byte.x80, normalize Byte.x80);
                  (normalize Byte.xff, normalize Byte.xff, normalize Byte.xff) ]]) idx /\
    map fst idx = index_names /\
    Forall (fun item => all2d (fun v => is_zero32 v = true) (snd item)) idx.
Proof.
  exact (grey_raster_has_zero_indices log2_floor _ log2_floor_nonneg grey_levels_unit).
Defined.
End Flat.

(* ===================================================================== *)
(** * Part XII.  The direction of the score, in binary64                  *)
(* ===================================================================== *)

Section Direction.
Local Open Scope Z_scope.

Section SignedOrder.
Variables prec emax : Z.
Hypothesis Hprec : 0 < prec.
Hypothesis Hemax : 2 <= emax.

(** ** The order of canonical floats is the order of their values *)

Lemma SFleb_finite_neg (m : positive) (e : Z) (m' : positive) (e' : Z) :
  SFleb (S754_finite true m e) (S754_finite true m' e')
  = SFleb (S754_finite false m' e') (S754_finite false m e).
Proof.
  unfold SFleb. cbn [SFcompare].
  rewrite (Z.compare_antisym e e').
  change (Pos.compare_cont Eq m' m) with (Pos.compare m' m).
  change (Pos.compare_cont Eq m m') with (Pos.compare m m').
  rewrite (Pos.compare_antisym m m').
  destruct (e ?= e'); destruct (m ?= m')%positive; reflexivity.
Qed.

Lemma signed_leb_aligned (sx : bool) (mx : positive) (ex : Z)
    (sy : bool) (my : positive) (ey : Z) (ez : Z) :
  ex = fexp prec emax (Zdigits2 (Zpos mx) + ex) ->
  ey = fexp prec emax (Zdigits2 (Zpos my) + ey) ->
  ez <= ex -> ez <= ey ->
  SFleb (S754_finite sx mx ex) (S754_finite sy my ey) = true ->
  aligned sx mx ex ez <= aligned sy my ey ez.
Proof.
  intros Hx Hy Hzx Hzy Hle.
  pose proof (aligned_pos mx ex ez Hzx) as Hpx.
  pose proof (aligned_pos my ey ez Hzy) as Hpy.
  destruct sx, sy.
  - rewrite SFleb_finite_neg in Hle.
    pose proof (canonical_leb_aligned prec emax Hprec my ey mx ex ez Hy Hx Hzy Hzx Hle).
    unfold aligned in *. cbn [cond_Zopp] in *. lia.
  - unfold aligned in *. cbn [cond_Zopp] in *. lia.
  - discriminate.
  - exact (canonical_leb_aligned prec emax Hprec mx ex my ey ez Hx Hy Hzx Hzy Hle).
Qed.

Lemma valid_canonical (s : bool) (m : positive) (e : Z) :
  valid_binary prec emax (S754_finite s m e) = true ->
  e = fexp prec emax (Zdigits2 (Zpos m) + e).
Proof. intros H. apply (valid_binary_digits prec emax s m e H). Qed.

(** ** Signs of differences, products, quotients and sums *)

(** [a - b] is not negative when [b <= a]. *)
Lemma SFsub_nonneg_or_inf (a b : spec_float) :
  valid_binary prec emax a = true -> valid_binary prec emax b = true ->
  SFfinite a = true -> SFfinite b = true -> SFleb b a = true ->
  is_nonneg_or_inf (SFsub prec emax a b) = true.
Proof.
  intros Ha Hb Fa Fb Hle.
  destruct a as [sa|sa| |sa ma ea]; try discriminate;
    destruct b as [sb|sb| |sb mb eb]; try discriminate.
  - cbn. destruct sa, sb; reflexivity.
  - destruct sb; [reflexivity|discriminate].
  - destruct sa; [discriminate|reflexivity].
  - rewrite (SFsub_finite prec emax).
    set (ez := Z.min ea eb).
    pose proof (signed_leb_aligned sb mb eb sa ma ea ez
                  (valid_canonical _ _ _ Hb) (valid_canonical _ _ _ Ha)
                  ltac:(unfold ez; lia) ltac:(unfold ez; lia) Hle) as HM.
    destruct (binary_normalize_spec prec emax Hprec Hemax
                (aligned sa ma ea ez - aligned sb mb eb ez) ez)
      as (m & e & -> & Hm & _).
    match goal with |- context [?x <? 0] =>
      assert (Hs : (x <? 0) = false) by (apply Z.ltb_ge; lia); rewrite Hs end.
    apply (outcome_nonneg_or_inf prec emax), Hm.
Qed.

(** [a - b] is not positive when [a <= b]. *)
Lemma SFsub_nonpos_or_inf (a b : spec_float) :
  valid_binary prec emax a = true -> valid_binary prec emax b = true ->
  SFfinite a = true -> SFfinite b = true -> SFleb a b = true ->
  is_nonpos_or_inf (SFsub prec emax a b) = true.
Proof.
  intros Ha Hb Fa Fb Hle.
  destruct a as [sa|sa| |sa ma ea]; try discriminate;
    destruct b as [sb|sb| |sb mb eb]; try discriminate.
  - cbn. destruct sa, sb; reflexivity.
  - destruct sb; [discriminate|reflexivity].
  - destruct sa; [reflexivity|discriminate].
  - rewrite (SFsub_finite prec emax).
    set (ez := Z.min ea eb).
    pose proof (signed_leb_aligned sa ma ea sb mb eb ez
                  (valid_canonical _ _ _ Ha) (valid_canonical _ _ _ Hb)
                  ltac:(unfold ez; lia) ltac:(unfold ez; lia) Hle) as HM.
    set (M := aligned sa ma ea ez - aligned sb mb eb ez).
    assert (HM0 : M <= 0) by (unfold M; lia).
    destruct M as [|p|p] eqn:EM; [reflexivity|lia|]. cbn [binary_normalize].
    destruct (binary_round_spec prec emax Hprec Hemax true p ez) as (m' & e' & -> & Hm & _).
    apply (outcome_nonpos prec emax), Hm.
Qed.

Lemma SFdiv_nonneg_or_inf (x : spec_float) (my : positive) (ey : Z) :
  is_nonneg_or_inf x = true ->
  is_nonneg_or_inf (SFdiv prec emax x (S754_finite false my ey)) = true.
Proof.
  intros Hx. destruct x as [s|[]| |[] m e]; try discriminate; try reflexivity.
  cbn [SFdiv xorb].
  pose proof (SFdiv_core_nonneg prec emax m e my ey) as Hq.
  destruct (SFdiv_core_binary prec emax (Zpos m) e (Zpos my) ey) as [[mz ez] lz].
  cbn [fst] in Hq.
  destruct (binary_round_aux_spec prec emax Hprec Hemax false mz ez lz Hq)
    as (m' & e' & -> & Hm & _).
  apply (outcome_nonneg_or_inf prec emax), Hm.
Qed.

Lemma SFmul_pos_nonneg_or_inf (mx : positive) (ex : Z) (y : spec_float) :
  is_nonneg_or_inf y = true ->
  is_nonneg_or_inf (SFmul prec emax (S754_finite false mx ex) y) = true.
Proof.
  intros Hy. destruct y as [s|[]| |[] m e]; try discriminate; try reflexivity.
  cbn [SFmul xorb].
  destruct (binary_round_aux_spec prec emax Hprec Hemax false (Zpos (mx * m)) (ex + e)
              loc_Exact ltac:(lia)) as (m' & e' & -> & Hm & _).
  apply (outcome_nonneg_or_inf prec emax), Hm.
Qed.

Lemma SFmul_nonpos_pos (x : spec_float) (my : positive) (ey : Z) :
  is_nonpos_or_inf x = true ->
  is_nonpos_or_inf (SFmul prec emax x (S754_finite false my ey)) = true.
Proof.
  intros Hx. destruct x as [s|[]| |[] m e]; try discriminate; try reflexivity.
  cbn [SFmul xorb].
  destruct (binary_round_aux_spec prec emax Hprec Hemax true (Zpos (m * my)) (e + ey)
              loc_Exact ltac:(lia)) as (m' & e' & -> & Hm & _).
  apply (outcome_nonpos prec emax), Hm.
Qed.

Lemma SFmul_pos_nonpos (mx : positive) (ex : Z) (y : spec_float) :
  is_nonpos_or_inf y = true ->
  is_nonpos_or_inf (SFmul prec emax (S754_finite false mx ex) y) = true.
Proof.
  intros Hy. destruct y as [s|[]| |[] m e]; try discriminate; try reflexivity.
  cbn [SFmul xorb].
  destruct (binary_round_aux_spec prec emax Hprec Hemax true (Zpos (mx * m)) (ex + e)
              loc_Exact ltac:(lia)) as (m' & e' & -> & Hm & _).
  apply (outcome_nonpos prec emax), Hm.
Qed.

Lemma SFadd_nonpos_or_inf (x y : spec_float) :
  is_nonpos_or_inf x = true -> is_nonpos_or_inf y = true ->
  is_nonpos_or_inf (SFadd prec emax x y) = true.
Proof.
  intros Hx Hy.
  destruct x as [sx|[]| |[] mx ex]; try discriminate;
    destruct y as [sy|[]| |[] my ey]; try discriminate; try reflexivity.
  - cbn. destruct sx, sy; reflexivity.
  - rewrite (SFadd_finite prec emax).
    set (ez := Z.min ex ey).
    pose proof (aligned_pos mx ex ez ltac:(unfold ez; lia)) as H1.
    pose proof (aligned_pos my ey ez ltac:(unfold ez; lia)) as H2.
    set (M := aligned true mx ex ez + aligned true my ey ez).
    assert (HM : M < 0) by (unfold M, aligned in *; cbn [cond_Zopp] in *; lia).
    destruct M as [|p|p] eqn:EM; try lia. cbn [binary_normalize].
    destruct (binary_round_spec prec emax Hprec Hemax true p ez) as (m' & e' & -> & Hm & _).
    apply (outcome_nonpos prec emax), Hm.
Qed.

(** ** Adding to a canonical positive float *)

(** [c + t >= c] when [t] is zero, positive or plus infinity. *)
Lemma SFadd_ge_self (mc : positive) (ec : Z) (t : spec_float) :
  ec = fexp prec emax (Zdigits2 (Zpos mc) + ec) -> Zdigits2 (Zpos mc) <= prec ->
  ec <= emax - prec ->
  is_nonneg_or_inf t = true ->
  SFleb (S754_finite false mc ec) (SFadd prec emax (S754_finite false mc ec) t) = true.
Proof.
  intros Hcan Hd Hec Ht.
  assert (Hrefl : SFleb (S754_finite false mc ec) (S754_finite false mc ec) = true).
  { apply SFleb_refl. discriminate. }
  destruct t as [st|[]| |[] mt et]; try discriminate; try exact Hrefl; try reflexivity.
  rewrite (SFadd_finite prec emax).
  set (ez := Z.min ec et).
  pose proof (aligned_pos mt et ez ltac:(unfold ez; lia)) as Hpt.
  pose proof (aligned_pos mc ec ez ltac:(unfold ez; lia)) as Hpc.
  set (M := aligned false mc ec ez + aligned false mt et ez).
  assert (HM : Zpos mc * 2 ^ (ec - ez) <= M).
  { unfold M. unfold aligned at 1. cbn [cond_Zopp]. lia. }
  assert (HM0 : 0 < M) by (unfold M; lia).
  destruct M as [|p|p] eqn:EM; try lia. cbn [binary_normalize].
  destruct (binary_round_above prec emax Hprec Hemax false p ez (Zpos mc) ec)
    as (m & e & -> & Hpos & He & Hge & _); try assumption; try lia.
  apply (outcome_geb_pos prec emax); assumption.
Qed.

Lemma SFadd_opp (x y : spec_float) :
  SFadd prec emax x (SFopp y) = SFsub prec emax x y.
Proof.
  destruct x as [sx|sx| |sx mx ex], y as [sy|sy| |sy my ey];
    try reflexivity; try (destruct sx, sy; reflexivity).
Qed.

(** [c + t <= c] when [t] is zero, negative or minus infinity. *)
Lemma SFadd_le_self (mc : positive) (ec : Z) (t : spec_float) :
  ec = fexp prec emax (Zdigits2 (Zpos mc) + ec) -> ec <= emax - prec ->
  is_nonpos_or_inf t = true ->
  SFleb (SFadd prec emax (S754_finite false mc ec) t) (S754_finite false mc ec) = true.
Proof.
  intros Hcan Hec Ht.
  assert (E : t = SFopp (SFopp t)) by (destruct t as [[]|[]| |[] ? ?]; reflexivity).
  rewrite E, SFadd_opp.
  apply (SFsub_le_self prec emax Hprec Hemax); [exact Hcan|exact Hec|].
  destruct t as [[]|[]| |[] ? ?]; try discriminate; reflexivity.
Qed.
End SignedOrder.

(** ** Entries of a moderate summary *)

Lemma moderate64_shape (x : f64) :
  moderate64 x = true ->
  valid_binary 53 1024 (f64_val x) = true /\ fin_leb 53 1024 1000 (f64_val x) = true /\
  SFfinite (f64_val x) = true.
Proof.
  unfold moderate64. rewrite andb_true_iff. intros [Hv Hf]. repeat split; try assumption.
  destruct (f64_val x); try discriminate; reflexivity.
Qed.

Lemma get_moderate64 (m : gmap string f64) (k : string) :
  moderate_summary m -> moderate64 (get m k) = true.
Proof.
  intros Hm. unfold get. destruct (m !! k) as [v|] eqn:E; cbn [default].
  - exact (Hm k v E).
  - reflexivity.
Qed.

Lemma moderate_summary_list (l : list (string * f64)) :
  Forall (fun kv => moderate64 (snd kv) = true) l -> moderate_summary (list_to_map l).
Proof.
  induction 1 as [|[k v] l Hv _ IH]; cbn [list_to_map foldr].
  - apply map_Forall_empty.
  - apply map_Forall_insert_2; [exact Hv|exact IH].
Qed.

Lemma before_doubling_moderate : moderate_summary before_doubling.
Proof. apply moderate_summary_list. repeat constructor. Qed.

(** The denominator [abs(b) + EPS] of a moderate mean is a positive finite
    float. *)
Lemma change_pct_den_pos64 (b : f64) :
  moderate64 b = true -> is_pos (f64_val (fabs b + E64)%num) = true.
Proof.
  intros Hb. destruct (moderate64_shape b Hb) as (_ & Hf & _).
  destruct b as [b]. cbn [fabs add f64_arith f64_val] in *.
  change B64.prec with 53. change B64.emax with 1024.
  apply (SFadd_pos 53 1024 p64_pos e64_ge 1000 0).
  - destruct b; try discriminate; exact Hf.
  - vm_compute. reflexivity.
  - lia.
  - destruct b; try discriminate; reflexivity.
  - vm_compute. reflexivity.
Qed.

(** ** The sign of a percent change *)

Lemma change_pct_sign64 (before after : gmap string f64) (k : string) :
  moderate_summary before -> finite_summary after ->
  (leb (get before (k +:+ "_mean")) (get after (k +:+ "_mean")) = true ->
   is_nonneg_or_inf (f64_val (change_pct E64 before after k)) = true) /\
  (leb (get after (k +:+ "_mean")) (get before (k +:+ "_mean")) = true ->
   is_nonpos_or_inf (f64_val (change_pct E64 before after k)) = true).
Proof.
  intros Hb Ha. unfold change_pct.
  destruct (moderate64_shape _ (get_moderate64 before (k +:+ "_mean") Hb)) as (Hvb & _ & Hfb).
  destruct (finite64_shape _ (get_finite64 after (k +:+ "_mean") Ha)) as (Hva & Hfa).
  pose proof (change_pct_den_pos64 _ (get_moderate64 before (k +:+ "_mean") Hb)) as Hd.
  set (b := get before (k +:+ "_mean")) in *. set (a := get after (k +:+ "_mean")) in *.
  set (d := (fabs b + E64)%num) in *.
  assert (H100 : f64_val (lit 100 1) = S754_finite false 7036874417766400 (-46))
    by (vm_compute; reflexivity).
  destruct a as [a], b as [b], d as [d].
  cbn [leb sub div mul f64_arith f64_val] in *. rewrite H100.
  change B64.prec with 53. change B64.emax with 1024.
  destruct d as [| | |[] md ed]; try discriminate.
  split; intros Hle.
  - apply (SFmul_nonneg_or_inf 53 1024 p64_pos e64_ge).
    apply (SFdiv_nonneg_or_inf 53 1024 p64_pos e64_ge).
    apply (SFsub_nonneg_or_inf 53 1024 p64_pos e64_ge); assumption.
  - apply (SFmul_nonpos_pos 53 1024 p64_pos e64_ge).
    apply (SFdiv_nonpos 53 1024 p64_pos e64_ge).
    apply (SFsub_nonpos_or_inf 53 1024 p64_pos e64_ge); assumption.
Qed.

Lemma weighted_sign64 (c1 c2 c3 c4 : f64) :
  (is_nonneg_or_inf (f64_val c1) = true -> is_nonneg_or_inf (f64_val c2) = true ->
   is_nonneg_or_inf (f64_val c3) = true -> is_nonneg_or_inf (f64_val c4) = true ->
   is_nonneg_or_inf (f64_val (weighted c1 c2 c3 c4)) = true) /\
  (is_nonpos_or_inf (f64_val c1) = true -> is_nonpos_or_inf (f64_val c2) = true ->
   is_nonpos_or_inf (f64_val c3) = true -> is_nonpos_or_inf (f64_val c4) = true ->
   is_nonpos_or_inf (f64_val (weighted c1 c2 c3 c4)) = true).
Proof.
  unfold weighted. cbn [add mul f64_arith f64_val].
  assert (H4 : f64_val (lit 4 10) = S754_finite false 7205759403792794 (-54))
    by (vm_compute; reflexivity).
  assert (H2 : f64_val (lit 2 10) = S754_finite false 7205759403792794 (-55))
    by (vm_compute; reflexivity).
  rewrite H4, H2. change B64.prec with 53. change B64.emax with 1024.
  split; intros G1 G2 G3 G4.
  - repeat apply (SFadd_nonneg_or_inf 53 1024 p64_pos e64_ge);
      apply (SFmul_pos_nonneg_or_inf 53 1024 p64_pos e64_ge); assumption.
  - repeat apply (SFadd_nonpos_or_inf 53 1024 p64_pos e64_ge);
      apply (SFmul_pos_nonpos 53 1024 p64_pos e64_ge); assumption.
Qed.

(** ** The score on either side of 50 *)

Lemma unclipped_score64 (w : f64) :
  (is_nonneg_or_inf (f64_val w) = true ->
   leb (lit 50 1) (lit 50 1 + w / lit 2 1)%num = true) /\
  (is_nonpos_or_inf (f64_val w) = true ->
   leb (lit 50 1 + w / lit 2 1)%num (lit 50 1) = true).
Proof.
  destruct w as [w]. cbn [leb add div f64_arith f64_val].
  assert (H50 : f64_val (lit 50 1) = S754_finite false 7036874417766400 (-47))
    by (vm_compute; reflexivity).
  assert (H2 : f64_val (lit 2 1) = S754_finite false 4503599627370496 (-51))
    by (vm_compute; reflexivity).
  rewrite H50, H2. change B64.prec with 53. change B64.emax with 1024.
  split; intros Hw.
  - apply (SFadd_ge_self 53 1024 p64_pos e64_ge).
    + reflexivity.
    + apply Z.leb_le. reflexivity.
    + apply Z.leb_le. reflexivity.
    + apply (SFdiv_nonneg_or_inf 53 1024 p64_pos e64_ge), Hw.
  - apply (SFadd_le_self 53 1024 p64_pos e64_ge).
    + reflexivity.
    + apply Z.leb_le. reflexivity.
    + apply (SFdiv_nonpos 53 1024 p64_pos e64_ge), Hw.
Qed.

Lemma leb_not_nan64 (x y : f64) : leb x y = true -> isnan x = false /\ isnan y = false.
Proof.
  destruct x as [x], y as [y]. cbn [leb isnan f64_arith f64_val]. intros H.
  destruct (SFleb_not_nan x y H) as [Hx Hy].
  destruct x, y; try congruence; split; reflexivity.
Qed.

Lemma leb_trans64 (x y z : f64) : leb x y = true -> leb y z = true -> leb x z = true.
Proof.
  destruct x as [x], y as [y], z as [z]. cbn [leb f64_arith f64_val]. intros H1 H2.
  destruct (SFleb_not_nan x y H1) as [Hx Hy]. destruct (SFleb_not_nan y z H2) as [_ Hz].
  exact (SFleb_trans x y z Hx Hy Hz H1 H2).
Qed.

Lemma ltb_false_leb64 (x y : f64) :
  isnan x = false -> isnan y = false -> ltb x y = false -> leb y x = true.
Proof.
  destruct x as [x], y as [y]. cbn [leb ltb isnan f64_arith f64_val]. intros Hx Hy H.
  apply SFltb_false_leb; try assumption; destruct x, y; discriminate.
Qed.

Lemma ltb_leb64 (x y : f64) : ltb x y = true -> leb x y = true.
Proof.
  destruct x as [x], y as [y]. cbn [leb ltb f64_arith f64_val].
  unfold SFltb, SFleb. destruct (SFcompare x y) as [[]|]; congruence.
Qed.

(** The clamp keeps the side of 50 the unclipped score is on. *)
Lemma score_of_side64 (w : f64) :
  (is_nonneg_or_inf (f64_val w) = true ->
   leb (lit 50 1) (score_of w) = true /\ leb (score_of w) (lit 100 1) = true) /\
  (is_nonpos_or_inf (f64_val w) = true ->
   leb (lit 0 1) (score_of w) = true /\ leb (score_of w) (lit 50 1) = true).
Proof.
  unfold score_of. set (s := (lit 50 1 + w / lit 2 1)%num).
  assert (L0 : leb (lit 0 1) (lit 50 1 : f64) = true) by (vm_compute; reflexivity).
  assert (L1 : leb (lit 50 1) (lit 100 1 : f64) = true) by (vm_compute; reflexivity).
  assert (L2 : leb (lit 100 1) (lit 50 1 : f64) = false) by (vm_compute; reflexivity).
  assert (L3 : leb (lit 50 1) (lit 0 1 : f64) = false) by (vm_compute; reflexivity).
  assert (L4 : leb (lit 0 1) (lit 0 1 : f64) = true) by (vm_compute; reflexivity).
  assert (L5 : leb (lit 100 1) (lit 100 1 : f64) = true) by (vm_compute; reflexivity).
  assert (N0 : isnan (lit 0 1 : f64) = false) by (vm_compute; reflexivity).
  assert (N1 : isnan (lit 100 1 : f64) = false) by (vm_compute; reflexivity).
  assert (Hlh : ltb (lit 0 1) (lit 100 1 : f64) = true) by (vm_compute; reflexivity).
  split; intros Hw.
  - pose proof (proj1 (unclipped_score64 w) Hw) as Hs. fold s in Hs.
    destruct (leb_not_nan64 _ _ Hs) as [_ Hn].
    destruct (clip_cases s (lit 0 1) (lit 100 1) Hn N0 Hlh)
      as [(-> & _ & H2)|[(-> & H1)|(-> & _ & _)]].
    + split; [exact Hs|apply ltb_leb64, H2].
    + pose proof (ltb_false_leb64 _ _ N0 Hn H1) as H3.
      rewrite (leb_trans64 _ _ _ Hs H3) in L3. discriminate.
    + split; assumption.
  - pose proof (proj2 (unclipped_score64 w) Hw) as Hs. fold s in Hs.
    destruct (leb_not_nan64 _ _ Hs) as [Hn _].
    destruct (clip_cases s (lit 0 1) (lit 100 1) Hn N0 Hlh)
      as [(-> & H1 & _)|[(-> & _)|(-> & _ & H2)]].
    + split; [apply ltb_leb64, H1|exact Hs].
    + split; assumption.
    + pose proof (ltb_false_leb64 _ _ Hn N1 H2) as H3.
      rewrite (leb_trans64 _ _ _ H3 Hs) in L2. discriminate.
Qed.

Lemma category_of_side64 (s : f64) :
  (leb (lit 50 1) s = true -> In (category_of s) ["Excellent"; "Good"; "Moderate"]) /\
  (leb s (lit 50 1) = true -> In (category_of s) ["Moderate"; "Poor"; "Very Poor"]).
Proof.
  unfold category_of. split; intros H.
  - rewrite H. destruct (leb (lit 80 1) s); [left; reflexivity|].
    destruct (leb (lit 65 1) s); [right; left; reflexivity|]. right. right. left. reflexivity.
  - assert (L1 : leb (lit 80 1) (lit 50 1 : f64) = false) by (vm_compute; reflexivity).
    assert (L2 : leb (lit 65 1) (lit 50 1 : f64) = false) by (vm_compute; reflexivity).
    destruct (leb (lit 80 1) s) eqn:E1.
    { rewrite (leb_trans64 _ _ _ E1 H) in L1. discriminate. }
    destruct (leb (lit 65 1) s) eqn:E2.
    { rewrite (leb_trans64 _ _ _ E2 H) in L2. discriminate. }
    destruct (leb (lit 50 1) s); [left; reflexivity|].
    destruct (leb (lit 35 1) s); [right; left; reflexivity|]. right. right. left. reflexivity.
Qed.

(** X14.  In binary64 rounding does not turn the direction of the report
    round.  The entries of the before-summary are valid finite floats of
    magnitude below 2^1000, those of the after-summary valid finite floats.
    If none of the four means is lower after than before, each percent
    change and the weighted score are zero, positive or plus infinity, the
    impact score lies in [50, 100] and the category is "Excellent", "Good"
    or "Moderate".  If none of the four means is higher after than before,
    each percent change and the weighted score are zero, negative or minus
    infinity, the impact score lies in [0, 50] and the category is
    "Moderate", "Poor" or "Very Poor". *)
Theorem direction_follows_means_in_binary64 (before after : gmap string f64) :
  moderate_summary before -> finite_summary after ->
  exists r,
    returns (_impact_analysis before after) r /\
    ((forall m field, In (m, field) (metrics (S:=f64)) ->
        leb (get before (m +:+ "_mean")) (get after (m +:+ "_mean")) = true) ->
     (forall m field, In (m, field) metrics ->
        is_nonneg_or_inf (f64_val (field r)) = true) /\
     is_nonneg_or_inf (f64_val (weighted_score r)) = true /\
     leb (lit 50 1) (impact_score r) = true /\
     leb (impact_score r) (lit 100 1) = true /\
     In (category r) ["Excellent"; "Good"; "Moderate"]) /\
    ((forall m field, In (m, field) (metrics (S:=f64)) ->
        leb (get after (m +:+ "_mean")) (get before (m +:+ "_mean")) = true) ->
     (forall m field, In (m, field) metrics ->
        is_nonpos_or_inf (f64_val (field r)) = true) /\
     is_nonpos_or_inf (f64_val (weighted_score r)) = true /\
     leb (lit 0 1) (impact_score r) = true /\
     leb (impact_score r) (lit 50 1) = true /\
     In (category r) ["Moderate"; "Poor"; "Very Poor"]).
Proof.
  intros Hb Ha. eexists. unfold returns. rewrite impact_analysis_run. cbn [fst].
  split; [reflexivity|]. cbn zeta.
  cbn [impact_score category weighted_score].
  change (EPS module_globals) with E64.
  set (c := change_pct E64 before after).
  pose proof (fun k => change_pct_sign64 before after k Hb Ha) as Hc. fold c in Hc.
  split; intros H.
  - pose proof (proj1 (Hc "ndvi") (H _ _ (or_introl eq_refl))) as M1.
    pose proof (proj1 (Hc "evi") (H _ _ (or_intror (or_introl eq_refl)))) as M2.
    pose proof (proj1 (Hc "fvc") (H _ _ (or_intror (or_intror (or_introl eq_refl))))) as M3.
    pose proof (proj1 (Hc "lai")
                  (H _ _ (or_intror (or_intror (or_intror (or_introl eq_refl)))))) as M4.
    pose proof (proj1 (weighted_sign64 _ _ _ _) M1 M2 M3 M4) as Mw.
    destruct (proj1 (score_of_side64 _) Mw) as [S1 S2].
    split; [|split; [exact Mw|split; [exact S1|split; [exact S2|]]]].
    + intros m field Hin.
      refine (metric_cases (fun m field => is_nonneg_or_inf (f64_val (field _)) = true)
                _ _ _ _ m field Hin);
        cbn [ndvi_change_percent evi_change_percent fvc_change_percent lai_change_percent];
        assumption.
    + apply category_of_side64, S1.
  - pose proof (proj2 (Hc "ndvi") (H _ _ (or_introl eq_refl))) as M1.
    pose proof (proj2 (Hc "evi") (H _ _ (or_intror (or_introl eq_refl)))) as M2.
    pose proof (proj2 (Hc "fvc") (H _ _ (or_intror (or_intror (or_introl eq_refl))))) as M3.
    pose proof (proj2 (Hc "lai")
                  (H _ _ (or_intror (or_intror (or_intror (or_introl eq_refl)))))) as M4.
    pose proof (proj2 (weighted_sign64 _ _ _ _) M1 M2 M3 M4) as Mw.
    destruct (proj2 (score_of_side64 _) Mw) as [S1 S2].
    split; [|split; [exact Mw|split; [exact S1|split; [exact S2|]]]].
    + intros m field Hin.
      refine (metric_cases (fun m field => is_nonpos_or_inf (f64_val (field _)) = true)
                _ _ _ _ m field Hin);
        cbn [ndvi_change_percent evi_change_percent fvc_change_percent lai_change_percent];
        assumption.
    + apply category_of_side64, S2.
Qed.

Lemma direction_follows_means_in_binary64_witness :
  moderate_summary before_doubling /\ finite_summary after_doubling /\
  exists r,
    returns (_impact_analysis (S:=f64) before_doubling after_doubling) r /\
    ((forall m field, In (m, field) (metrics (S:=f64)) ->
        leb (get (S:=f64) before_doubling (m +:+ "_mean"))
            (get after_doubling (m +:+ "_mean")) = true) ->
     (forall m field, In (m, field) metrics ->
        is_nonneg_or_inf (f64_val (field r)) = true) /\
     is_nonneg_or_inf (f64_val (weighted_score r)) = true /\
     leb (lit 50 1) (impact_score r) = true /\
     leb (impact_score r) (lit 100 1) = true /\
     In (category r) ["Excellent"; "Good"; "Moderate"]) /\
    ((forall m field, In (m, field) (metrics (S:=f64)) ->
        leb (get (S:=f64) after_doubling (m +:+ "_mean"))
            (get before_doubling (m +:+ "_mean")) = true) ->
     (forall m field, In (m, field) metrics ->
        is_nonpos_or_inf (f64_val (field r)) = true) /\
     is_nonpos_or_inf (f64_val (weighted_score r)) = true /\
     leb (lit 0 1) (impact_score r) = true /\
     leb (impact_score r) (lit 50 1) = true /\
     In (category r) ["Moderate"; "Poor"; "Very Poor"]).
Proof.
  split; [exact before_doubling_moderate|]. split; [exact after_doubling_finite|].
  exact (direction_follows_means_in_binary64 before_doubling after_doubling
           before_doubling_moderate after_doubling_finite).
Defined.
End Direction.

(* ===================================================================== *)
(** * Part XIII.  The sign of NDVI, NDWI and SAVI                         *)
(* ===================================================================== *)

Lemma pointwise_map2d {A B} (P : A -> B -> Prop) (Q : A -> Prop) (f : A -> B)
    (a : list (list A)) :
  (forall x, Q x -> P x (f x)) -> all2d Q a -> pointwise P a (map2d f a).
Proof.
  intros Hf Ha. unfold pointwise, map2d, all2d in *.
  induction Ha as [|row a Hrow _ IH]; cbn [map]; constructor; [|exact IH].
  induction Hrow as [|x row Hx _ IHrow]; cbn [map]; constructor; [|exact IHrow].
  apply Hf, Hx.
Qed.

Lemma clip2d_map2d {S F} {AF : Arith F} {D : Dtype S F} {A} (g : A -> F)
    (a : list (list A)) (lo hi : S) :
  clip2d (map2d g a) lo hi = map2d (fun x => clip (g x) (cast lo) (cast hi)) a.
Proof.
  unfold clip2d, map2d. rewrite map_map. apply map_ext. intros row. apply map_map.
Qed.

Section IndexSign32.
Local Open Scope Z_scope.

Lemma unit32_valid (x : f32) :
  unit32 x = true ->
  valid_binary 24 128 (f32_val x) = true /\ SFfinite (f32_val x) = true.
Proof.
  intros Hx. split; [|apply unit32_finite, Hx].
  unfold unit32 in Hx. rewrite !andb_true_iff in Hx. apply Hx.
Qed.

Lemma diff_sign32 (a b : f32) :
  unit32 a = true -> unit32 b = true ->
  (leb b a = true -> is_nonneg_or_inf (SFsub 24 128 (f32_val a) (f32_val b)) = true) /\
  (leb a b = true -> is_nonpos_or_inf (SFsub 24 128 (f32_val a) (f32_val b)) = true).
Proof.
  intros Ha Hb. destruct (unit32_valid a Ha) as [Va Fa], (unit32_valid b Hb) as [Vb Fb].
  split; intros Hle.
  - apply (SFsub_nonneg_or_inf 24 128 p32_pos e32_ge); assumption.
  - apply (SFsub_nonpos_or_inf 24 128 p32_pos e32_ge); assumption.
Qed.

Lemma unit_pixel_parts (R G B : f32) :
  unit_pixel (R, G, B) = true -> unit32 R = true /\ unit32 G = true /\ unit32 B = true.
Proof. unfold unit_pixel. rewrite !andb_true_iff. tauto. Qed.

(** The unclipped ratios. *)
Lemma ratio_sign32 (a b : f32) :
  unit32 a = true -> unit32 b = true ->
  let v := SFdiv 24 128 (SFsub 24 128 (f32_val b) (f32_val a))
             (SFadd 24 128 (SFadd 24 128 (f32_val b) (f32_val a)) eps32) in
  (leb a b = true -> is_nonneg_or_inf v = true) /\
  (leb b a = true -> is_nonpos_or_inf v = true).
Proof.
  intros Ha Hb v. subst v.
  destruct (unit32_shape a Ha) as [Hfa Hna], (unit32_shape b Hb) as [Hfb Hnb].
  destruct (sum_plus_eps_pos _ _ Hfb Hnb Hfa Hna) as [_ Hp].
  destruct (diff_sign32 b a Hb Ha) as [D1 D2].
  destruct (SFadd 24 128 (SFadd 24 128 (f32_val b) (f32_val a)) eps32)
    as [| | |[] md ed]; try discriminate.
  split; intros Hle.
  - apply (SFdiv_nonneg_or_inf 24 128 p32_pos e32_ge), D1, Hle.
  - apply (SFdiv_nonpos 24 128 p32_pos e32_ge), D2, Hle.
Qed.

Lemma savi_sign32 (R G B : f32) :
  unit_pixel (R, G, B) = true ->
  (leb R G = true -> is_nonneg_or_inf (f32_val (savi E64 (R, G, B))) = true) /\
  (leb G R = true -> is_nonpos_or_inf (f32_val (savi E64 (R, G, B))) = true).
Proof.
  intros Hpx. destruct (unit_pixel_shape R G B Hpx) as ((HR & HnR) & (HG & HnG) & _).
  destruct (unit_pixel_parts R G B Hpx) as (UR & UG & _).
  destruct (diff_sign32 G R UG UR) as [D1 D2].
  unfold savi. cbn [add sub mul div f32_arith f32_val].
  change B32.prec with 24. change B32.emax with 128.
  change (f32_val (cast E64)) with eps32.
  assert (E15 : f32_val (cast (lit 15 10 : f64)) = S754_finite false 12582912 (-23))
    by (vm_compute; reflexivity).
  rewrite E15.
  set (c05 := f32_val (cast (lit 5 10 : f64))).
  assert (H05 : fin_leb 24 128 0 c05 = true) by reflexivity.
  assert (He : fin_leb 24 128 (-19) eps32 = true) by reflexivity.
  pose proof (SFadd_fin 24 128 p32_pos e32_ge 1 1 _ _ HG HR ltac:(lia)) as Hs.
  pose proof (SFadd_nonneg 24 128 p32_pos e32_ge _ _ HnG HnR) as [_ Hnn].
  pose proof (is_nonneg_of_sum _ _ Hs Hnn) as Hsn.
  pose proof (SFadd_fin 24 128 p32_pos e32_ge _ _ _ _ Hs H05 ltac:(lia)) as Hs2.
  pose proof (SFadd_pos 24 128 p32_pos e32_ge _ _ _ _ Hs H05 ltac:(lia) Hsn eq_refl) as Hp2.
  pose proof (is_pos_nonneg _ Hp2) as Hn2.
  pose proof (SFadd_pos 24 128 p32_pos e32_ge _ _ _ _ Hs2 He ltac:(lia) Hn2 eq_refl) as Hp3.
  destruct (SFadd 24 128 (SFadd 24 128 (SFadd 24 128 (f32_val G) (f32_val R)) c05) eps32)
    as [| | |[] md ed]; try discriminate.
  split; intros Hle.
  - apply (SFdiv_nonneg_or_inf 24 128 p32_pos e32_ge).
    apply (SFmul_pos_nonneg_or_inf 24 128 p32_pos e32_ge), D1, Hle.
  - apply (SFdiv_nonpos 24 128 p32_pos e32_ge).
    apply (SFmul_pos_nonpos 24 128 p32_pos e32_ge), D2, Hle.
Qed.

(** The clamp to [-1, 1] keeps the sign. *)
Lemma clip32_keeps_sign (x : f32) :
  (is_nonneg_or_inf (f32_val x) = true ->
   within32 (lit 0 1) (lit 1 1) (clip x (cast (neg (lit 1 1) : f64)) (cast (lit 1 1 : f64)))
   = true) /\
  (is_nonpos_or_inf (f32_val x) = true ->
   within32 (neg (lit 1 1)) (lit 0 1)
     (clip x (cast (neg (lit 1 1) : f64)) (cast (lit 1 1 : f64))) = true).
Proof.
  destruct x as [x].
  change (cast (neg (lit 1 1) : f64) : f32) with (F32 (S754_finite true 8388608 (-23))).
  change (cast (lit 1 1 : f64) : f32) with (F32 (S754_finite false 8388608 (-23))).
  unfold within32.
  change (cast (lit 0 1 : f64) : f32) with (F32 (S754_zero false)).
  change (cast (neg (lit 1 1) : f64) : f32) with (F32 (S754_finite true 8388608 (-23))).
  change (cast (lit 1 1 : f64) : f32) with (F32 (S754_finite false 8388608 (-23))).
  unfold clip, npy_max, npy_min, finite32.
  cbn [isnan ltb leb f32_arith f32_val].
  split; intros Hx.
  - destruct x as [s|[]| |[] m e]; try discriminate; try reflexivity.
    cbn [f32_val SFisnan].
    change (SFltb (S754_finite true 8388608 (-23)) (S754_finite false m e)) with true.
    cbn [f32_val SFisnan].
    destruct (SFltb (S754_finite false m e) (S754_finite false 8388608 (-23))) eqn:E.
    + cbn [f32_val]. rewrite (SFltb_leb _ _ E). reflexivity.
    + reflexivity.
  - destruct x as [s|[]| |[] m e]; try discriminate; try reflexivity.
    cbn [f32_val SFisnan].
    destruct (SFltb (S754_finite true 8388608 (-23)) (S754_finite true m e)) eqn:E.
    + cbn [f32_val SFisnan].
      change (SFltb (S754_finite true m e) (S754_finite false 8388608 (-23))) with true.
      cbn [f32_val]. rewrite (SFltb_leb _ _ E). reflexivity.
    + reflexivity.
Qed.

Lemma ndvi_follows32 (px : Pixel f32) :
  unit_pixel px = true ->
  let '(R, G, B) := px in
  sign_follows32 R G (clip (vndvi E64 px) (cast (neg (lit 1 1) : f64)) (cast (lit 1 1 : f64))).
Proof.
  destruct px as [[R G] B]. intros Hpx.
  destruct (unit_pixel_parts R G B Hpx) as (UR & UG & _).
  destruct (ratio_sign32 R G UR UG) as [S1 S2].
  destruct (clip32_keeps_sign (vndvi E64 (R, G, B))) as [C1 C2].
  split; intros Hle; [apply C1, S1, Hle|apply C2, S2, Hle].
Qed.

Lemma ndwi_follows32 (px : Pixel f32) :
  unit_pixel px = true ->
  let '(R, G, B) := px in
  sign_follows32 B G (clip (ndwi E64 px) (cast (neg (lit 1 1) : f64)) (cast (lit 1 1 : f64))).
Proof.
  destruct px as [[R G] B]. intros Hpx.
  destruct (unit_pixel_parts R G B Hpx) as (_ & UG & UB).
  destruct (ratio_sign32 B G UB UG) as [S1 S2].
  destruct (clip32_keeps_sign (ndwi E64 (R, G, B))) as [C1 C2].
  split; intros Hle; [apply C1, S1, Hle|apply C2, S2, Hle].
Qed.

Lemma savi_follows32 (px : Pixel f32) :
  unit_pixel px = true ->
  let '(R, G, B) := px in
  sign_follows32 R G (clip (savi E64 px) (cast (neg (lit 1 1) : f64)) (cast (lit 1 1 : f64))).
Proof.
  destruct px as [[R G] B]. intros Hpx.
  destruct (savi_sign32 R G B Hpx) as [S1 S2].
  destruct (clip32_keeps_sign (savi E64 (R, G, B))) as [C1 C2].
  split; intros Hle; [apply C1, S1, Hle|apply C2, S2, Hle].
Qed.
End IndexSign32.

Section IndexSignExact.
Local Open Scope Q_scope.

Lemma Qratio_sign (n d : Q) :
  0 < d ->
  (0 < n / d <-> 0 < n) /\ (n / d == 0 <-> n == 0) /\ (n / d < 0 <-> n < 0).
Proof.
  intros Hd. assert (E : n / d * d == n) by (field; lra).
  generalize dependent (n / d). intros x E.
  repeat split; intros H; nra.
Qed.

Lemma Qratio_inside (n d : Q) : - d < n -> n < d -> - (1) < n / d < 1.
Proof.
  intros H1 H2. assert (Hd : 0 < d) by lra.
  assert (E : n / d * d == n) by (field; lra).
  generalize dependent (n / d). intros x E. split; nra.
Qed.

Lemma Qclip_inside (x : Q) : - (1) < x < 1 -> clip x (- (1)) 1 = x.
Proof.
  intros [H1 H2].
  destruct (Qclip_cases x (- (1)) 1 ltac:(reflexivity)) as [[H _]|[(_ & _ & E)|[H _]]];
    [lra|exact E|lra].
Qed.

Lemma ratio_follows_exact (a b n d : Q) :
  0 < d -> - d < n -> n < d ->
  (0 < n <-> a < b) -> (n == 0 <-> a == b) -> (n < 0 <-> b < a) ->
  sign_follows_exact a b (clip (n / d) (- (1)) 1).
Proof.
  intros Hd H1 H2 S1 S2 S3.
  pose proof (Qratio_inside n d H1 H2) as Hin.
  rewrite (Qclip_inside _ Hin).
  destruct (Qratio_sign n d Hd) as (R1 & R2 & R3).
  unfold sign_follows_exact. rewrite R1, R2, R3. tauto.
Qed.

Lemma ndvi_follows_exact (px : Pixel Q) :
  unit_pixel_exact px ->
  let '(R, G, B) := px in
  sign_follows_exact R G
    (clip (vndvi (EPS module_globals) px) (cast (neg (lit 1 1) : Q)) (cast (lit 1 1 : Q))).
Proof.
  destruct px as [[R G] B]. intros (HR & HG & HB). unfold vndvi. qred.
  apply ratio_follows_exact; try lra; split; intros; lra.
Qed.

Lemma ndwi_follows_exact (px : Pixel Q) :
  unit_pixel_exact px ->
  let '(R, G, B) := px in
  sign_follows_exact B G
    (clip (ndwi (EPS module_globals) px) (cast (neg (lit 1 1) : Q)) (cast (lit 1 1 : Q))).
Proof.
  destruct px as [[R G] B]. intros (HR & HG & HB). unfold ndwi. qred.
  apply ratio_follows_exact; try lra; split; intros; lra.
Qed.

Lemma savi_follows_exact (px : Pixel Q) :
  unit_pixel_exact px ->
  let '(R, G, B) := px in
  sign_follows_exact R G
    (clip (savi (EPS module_globals) px) (cast (neg (lit 1 1) : Q)) (cast (lit 1 1 : Q))).
Proof.
  destruct px as [[R G] B]. intros (HR & HG & HB). unfold savi. qred.
  apply ratio_follows_exact; try lra; split; intros; lra.
Qed.
End IndexSignExact.

(** X15.  NDVI and SAVI take the sign of green minus red, NDWI that of
    green minus blue, pixel by pixel.  In binary32, on a valid raster: where
    red <= green the NDVI and the SAVI of the pixel are in [0, 1], where
    green <= red they are in [-1, 0]; likewise the NDWI with blue for red.
    Over exact numbers, on channel values in [0, 1]: the three indices are
    strictly inside (-1, 1), so their clamp never binds, and each is
    positive, zero or negative exactly when the difference of its two
    channels is.  The EVI follows no such rule: on the valid pixel
    (0, 26/255, 1) green is above red and the EVI is negative. *)
Theorem index_sign_follows_channels :
  (forall (logf : spec_float -> spec_float) (rgb : Raster f32),
     all2d (fun px => unit_pixel px = true) rgb ->
     exists ndvi_a evi_a ndwi_a savi_a fvc_a lai_a,
       returns (_compute_indices (L:=f32_libm logf) rgb)
         [ ("ndvi", ndvi_a); ("evi", evi_a); ("ndwi", ndwi_a);
           ("savi", savi_a); ("fvc", fvc_a); ("lai", lai_a) ] /\
       pointwise (fun '(R, G, B) v => sign_follows32 R G v) rgb ndvi_a /\
       pointwise (fun '(R, G, B) v => sign_follows32 B G v) rgb ndwi_a /\
       pointwise (fun '(R, G, B) v => sign_follows32 R G v) rgb savi_a) /\
  (forall (L : Libm Q) (rgb : Raster Q),
     all2d unit_pixel_exact rgb ->
     exists ndvi_a evi_a ndwi_a savi_a fvc_a lai_a,
       returns (_compute_indices (L:=L) rgb)
         [ ("ndvi", ndvi_a); ("evi", evi_a); ("ndwi", ndwi_a);
           ("savi", savi_a); ("fvc", fvc_a); ("lai", lai_a) ] /\
       pointwise (fun '(R, G, B) v => sign_follows_exact R G v) rgb ndvi_a /\
       pointwise (fun '(R, G, B) v => sign_follows_exact B G v) rgb ndwi_a /\
       pointwise (fun '(R, G, B) v => sign_follows_exact R G v) rgb savi_a) /\
  (let px := (normalize Byte.x00, normalize Byte.x1a, normalize Byte.xff) in
   unit_pixel px = true /\
   ltb (normalize Byte.x00) (normalize Byte.x1a) = true /\
   ltb (clip (evi E64 px) (cast (neg (lit 1 1) : f64)) (cast (lit 1 1 : f64)))
       (cast (lit 0 1 : f64)) = true).
Proof.
  split; [|split].
  - intros logf rgb Hrgb. do 6 eexists. unfold returns.
    rewrite compute_indices_run. cbn [fst]. split; [reflexivity|].
    rewrite !clip2d_map2d. change (EPS module_globals) with E64.
    split; [|split].
    + eapply pointwise_map2d; [|exact Hrgb]. intros [[R G] B]. apply ndvi_follows32.
    + eapply pointwise_map2d; [|exact Hrgb]. intros [[R G] B]. apply ndwi_follows32.
    + eapply pointwise_map2d; [|exact Hrgb]. intros [[R G] B]. apply savi_follows32.
  - intros L rgb Hrgb. do 6 eexists. unfold returns.
    rewrite compute_indices_run. cbn [fst]. split; [reflexivity|].
    rewrite !clip2d_map2d.
    split; [|split].
    + eapply pointwise_map2d; [|exact Hrgb]. intros [[R G] B]. apply ndvi_follows_exact.
    + eapply pointwise_map2d; [|exact Hrgb]. intros [[R G] B]. apply ndwi_follows_exact.
    + eapply pointwise_map2d; [|exact Hrgb]. intros [[R G] B]. apply savi_follows_exact.
  - vm_compute. repeat split.
Qed.

Lemma index_sign_follows_channels_witness :
  exists ndvi_a evi_a ndwi_a savi_a fvc_a lai_a,
    returns (_compute_indices (L:=f32_libm log2_floor) degenerate_raster)
      [ ("ndvi", ndvi_a); ("evi", evi_a); ("ndwi", ndwi_a);
        ("savi", savi_a); ("fvc", fvc_a); ("lai", lai_a) ] /\
    pointwise (fun '(R, G, B) v => sign_follows32 R G v) degenerate_raster ndvi_a /\
    pointwise (fun '(R, G, B) v => sign_follows32 B G v) degenerate_raster ndwi_a /\
    pointwise (fun '(R, G, B) v => sign_follows32 R G v) degenerate_raster savi_a.
Proof.
  exact (proj1 index_sign_follows_channels log2_floor degenerate_raster
           degenerate_raster_unit).
Defined.
